(** * EliteEmailAutomator: contact import, campaign dispatch, message
      generation and the image-job tracker

    A shallow embedding of [server/routes.ts] (with the image-task routes of
    its later revision), and of the in-memory [MemStorage] of
    [server/storage], together with the properties of the specification
    that concern them.

    JavaScript strings are sequences of UTF-16 code units; they are modelled
    as lists of code units ([N]).  The storage [Map]s keep insertion order,
    so they are modelled as association lists.  Calls to the outside world
    (the e-mail provider, the completion provider, the image provider) are
    modelled by oracles that give the outcome of each call. *)

From Stdlib Require Import String Ascii DecimalString.
From Stdlib Require Import List NArith ZArith Bool Lia Arith.
Import ListNotations.

Set Implicit Arguments.

(* ================================================================== *)
(** ** JavaScript strings *)

Module Js.

Definition code_unit := N.
Definition jsstring := list code_unit.

(** A string literal of the source, as its code units. *)
Definition str (s : string) : jsstring :=
  map N_of_ascii (list_ascii_of_string s).

Definition jseq (a b : jsstring) : bool :=
  if list_eq_dec N.eq_dec a b then true else false.

Definition len (s : jsstring) : Z := Z.of_nat (length s).

(** [v || d] for a value that is a string, [undefined] or [null]: the empty
    string is falsy. *)
Definition or_else (v : option jsstring) (d : jsstring) : jsstring :=
  match v with
  | Some (c :: s) => c :: s
  | _ => d
  end.

Definition truthy (v : option jsstring) : bool :=
  match v with
  | Some (_ :: _) => true
  | _ => false
  end.

(** A value that is not known to be a string: the cell of a spreadsheet
    row, and what the routes copy from it.  A number is kept as what the
    program looks at: whether it is falsy (0 or NaN) and its text
    ([ToString]). *)
Inductive Value : Type :=
| VText (s : jsstring)
| VNumber (falsy : bool) (text : jsstring)
| VBool (b : bool)
| VNull.

(** [ToBoolean] *)
Definition truthy_value (v : Value) : bool :=
  match v with
  | VText (_ :: _) => true
  | VText [] => false
  | VNumber falsy _ => negb falsy
  | VBool b => b
  | VNull => false
  end.

(** [ToString], as [RegExp.prototype.test] and [String.prototype.replace]
    apply it to an argument. *)
Definition to_text (v : Value) : jsstring :=
  match v with
  | VText s => s
  | VNumber _ text => text
  | VBool true => str "true"
  | VBool false => str "false"
  | VNull => str "null"
  end.

(** [v || d] for a property [v] that may be absent. *)
Definition value_or (v : option Value) (d : Value) : Value :=
  match v with
  | Some x => if truthy_value x then x else d
  | None => d
  end.

(** [s.substring(start, end)]: both indices are clamped to [0, length] and
    swapped when out of order. *)
Definition substring (s : jsstring) (i j : Z) : jsstring :=
  let clamp x := Z.min (Z.max x 0) (len s) in
  let from := Z.min (clamp i) (clamp j) in
  let to := Z.max (clamp i) (clamp j) in
  firstn (Z.to_nat (to - from)) (skipn (Z.to_nat from) s).

(** [s.lastIndexOf(c)] for a one-character search string: the index of the
    last occurrence, or -1. *)
Fixpoint lastIndexOf_from (c : code_unit) (s : jsstring) (i acc : Z) : Z :=
  match s with
  | [] => acc
  | x :: t => lastIndexOf_from c t (i + 1) (if N.eqb x c then i else acc)
  end.

Definition lastIndexOf (c : code_unit) (s : jsstring) : Z :=
  lastIndexOf_from c s 0 (-1).

(** [p] is a prefix of [s]. *)
Fixpoint starts_with (p s : jsstring) : bool :=
  match p, s with
  | [], _ => true
  | _ :: _, [] => false
  | a :: p', b :: s' => N.eqb a b && starts_with p' s'
  end.

(** [s.includes(p)]: [p] occurs somewhere in [s]. *)
Fixpoint contains (p s : jsstring) : bool :=
  starts_with p s ||
  match s with
  | [] => false
  | _ :: t => contains p t
  end.

Definition ends_with (p s : jsstring) : bool :=
  starts_with (rev p) (rev s).

(** The white space class [\s] of a regular expression. *)
Definition is_space (c : code_unit) : bool :=
  ((9 <=? c) && (c <=? 13) || (c =? 32) || (c =? 160) || (c =? 5760)
   || (8192 <=? c) && (c <=? 8202) || (c =? 8232) || (c =? 8233)
   || (c =? 8239) || (c =? 8287) || (c =? 12288) || (c =? 65279))%N.

(** Line terminators, which [.] does not match. *)
Definition is_line_terminator (c : code_unit) : bool :=
  ((c =? 10) || (c =? 13) || (c =? 8232) || (c =? 8233))%N.

(** Case folding of the [i] flag.  For the ASCII letters the patterns of this
    program are made of, a code unit matches a letter exactly when it is that
    letter in either case: no code unit from 128 on folds to an ASCII one. *)
Definition canonicalize (c : code_unit) : code_unit :=
  if ((97 <=? c) && (c <=? 122))%N then (c - 32)%N else c.

(** Decimal rendering of a number inside a template literal. *)
Definition of_number (n : N) : jsstring :=
  str (NilZero.string_of_uint (N.to_uint n)).

End Js.
Import Js.

(* ================================================================== *)
(** ** Regular expressions, as far as [RegExp.prototype.test] needs them *)

Module Regex.

Inductive regex : Type :=
| Empty : regex
| Eps : regex
| Cls : (code_unit -> bool) -> regex
| Cat : regex -> regex -> regex
| Alt : regex -> regex -> regex
| Star : regex -> regex.

Fixpoint nullable (r : regex) : bool :=
  match r with
  | Empty => false
  | Eps => true
  | Cls _ => false
  | Cat a b => nullable a && nullable b
  | Alt a b => nullable a || nullable b
  | Star _ => true
  end.

Definition cat (a b : regex) : regex :=
  match a, b with
  | Empty, _ => Empty
  | _, Empty => Empty
  | Eps, _ => b
  | _, _ => Cat a b
  end.

Definition alt (a b : regex) : regex :=
  match a, b with
  | Empty, _ => b
  | _, Empty => a
  | _, _ => Alt a b
  end.

(** Brzozowski derivative. *)
Fixpoint deriv (c : code_unit) (r : regex) : regex :=
  match r with
  | Empty => Empty
  | Eps => Empty
  | Cls p => if p c then Eps else Empty
  | Cat a b =>
      if nullable a then alt (cat (deriv c a) b) (deriv c b)
      else cat (deriv c a) b
  | Alt a b => alt (deriv c a) (deriv c b)
  | Star a => cat (deriv c a) (Star a)
  end.

(** The whole string is in the language: a pattern between [^] and [$]. *)
Fixpoint full_match (r : regex) (s : jsstring) : bool :=
  match s with
  | [] => nullable r
  | c :: t => full_match (deriv c r) t
  end.

(** Some prefix of the string is in the language. *)
Fixpoint prefix_match (r : regex) (s : jsstring) : bool :=
  nullable r ||
  match s with
  | [] => false
  | c :: t => prefix_match (deriv c r) t
  end.

(** [r.test(s)] for a pattern without anchors: a match starts somewhere. *)
Fixpoint test (r : regex) (s : jsstring) : bool :=
  prefix_match r s ||
  match s with
  | [] => false
  | _ :: t => test r t
  end.

Definition chr (c : code_unit) : regex := Cls (N.eqb c).

(** One character of a pattern under the [i] flag. *)
Definition chr_ci (c : code_unit) : regex :=
  Cls (fun x => N.eqb (canonicalize x) (canonicalize c)).

(** A literal word under the [i] flag. *)
Definition word_ci (w : string) : regex :=
  fold_right (fun c r => Cat (chr_ci c) r) Eps (str w).

Definition dot : regex := Cls (fun c => negb (is_line_terminator c)).
Definition opt (r : regex) : regex := Alt r Eps.
Definition plus (r : regex) : regex := Cat r (Star r).

Fixpoint alts (rs : list regex) : regex :=
  match rs with
  | [] => Empty
  | [r] => r
  | r :: rs' => Alt r (alts rs')
  end.

End Regex.

(* ================================================================== *)
(** ** The in-memory store ([MemStorage]) *)

Module Store.

(** Identifiers are the values of [randomUUID()]: the n-th call yields the
    identifier [n].  The time stamps of the records ([createdAt], [sentAt])
    are left out: no route reads them. *)
Definition Id := nat.

Record Contact : Type := mkContact {
  c_id : Id;
  c_name : Value;
  c_email : Value;
  c_isValid : bool;
  c_campaignId : option Id
}.

(** A contact before it is stored ([InsertContact]). *)
Record InsertContact : Type := mkInsertContact {
  ic_name : Value;
  ic_email : Value;
  ic_campaignId : option Id;
  ic_isValid : option bool
}.

Inductive CampaignStatus : Type := Pending | Sending | Completed | CampaignFailed.

Record Campaign : Type := mkCampaign {
  cp_id : Id;
  cp_subject : jsstring;
  cp_message : jsstring;
  cp_totalContacts : nat;
  cp_sentCount : nat;
  cp_failedCount : nat;
  cp_status : CampaignStatus
}.

Inductive ResultStatus : Type := Sent | Failed.

Record EmailResult : Type := mkEmailResult {
  er_id : Id;
  er_campaignId : Id;
  er_contactId : Id;
  er_email : Value;
  er_status : ResultStatus;
  er_error : option jsstring
}.

Record AiMessage : Type := mkAiMessage {
  am_id : Id;
  am_messageType : jsstring;
  am_promotionalIdea : jsstring;
  am_generatedMessage : jsstring;
  am_characterCount : Z;
  am_wordCount : nat;
  am_isCompliant : bool
}.

(** A JavaScript [Map] keyed by identifiers: [set] on a present key replaces
    the value where it stands, [set] on a new key appends; [values()]
    iterates in insertion order. *)
Definition JsMap (V : Type) : Type := list (Id * V).

Fixpoint map_get {V} (k : Id) (m : JsMap V) : option V :=
  match m with
  | [] => None
  | (k', v) :: m' => if Nat.eqb k k' then Some v else map_get k m'
  end.

Fixpoint map_set {V} (k : Id) (v : V) (m : JsMap V) : JsMap V :=
  match m with
  | [] => [(k, v)]
  | (k', v') :: m' =>
      if Nat.eqb k k' then (k, v) :: m' else (k', v') :: map_set k v m'
  end.

Definition map_values {V} (m : JsMap V) : list V := map snd m.
Definition map_keys {V} (m : JsMap V) : list Id := map fst m.

(** What an e-mail send call is given. *)
Record EmailRequest : Type := mkEmailRequest {
  rq_toEmail : Value;
  rq_toName : Value;
  rq_subject : jsstring;
  rq_htmlContent : jsstring;
  rq_textContent : jsstring
}.

(** The state of the process: the four maps of [MemStorage], the number of
    identifiers drawn so far, and the requests handed to the e-mail
    provider so far (kept to observe who was written to). *)
Record World : Type := mkWorld {
  contacts : JsMap Contact;
  campaigns : JsMap Campaign;
  emailResults : JsMap EmailResult;
  aiMessages : JsMap AiMessage;
  uuids : nat;
  outbox : list EmailRequest
}.

Definition empty_world : World := mkWorld [] [] [] [] 0 [].

Definition set_contacts (m : JsMap Contact) (w : World) : World :=
  mkWorld m (campaigns w) (emailResults w) (aiMessages w) (uuids w) (outbox w).
Definition set_campaigns (m : JsMap Campaign) (w : World) : World :=
  mkWorld (contacts w) m (emailResults w) (aiMessages w) (uuids w) (outbox w).
Definition set_emailResults (m : JsMap EmailResult) (w : World) : World :=
  mkWorld (contacts w) (campaigns w) m (aiMessages w) (uuids w) (outbox w).
Definition set_aiMessages (m : JsMap AiMessage) (w : World) : World :=
  mkWorld (contacts w) (campaigns w) (emailResults w) m (uuids w) (outbox w).
Definition set_uuids (n : nat) (w : World) : World :=
  mkWorld (contacts w) (campaigns w) (emailResults w) (aiMessages w) n (outbox w).
Definition set_outbox (o : list EmailRequest) (w : World) : World :=
  mkWorld (contacts w) (campaigns w) (emailResults w) (aiMessages w) (uuids w) o.

(** What a [throw] carries: an [Error] with its message, or another value. *)
Inductive Thrown : Type :=
| ErrorObj (message : jsstring)
| NonError.

(** A computation on the world that returns or throws; what it wrote before
    a throw stays written. *)
Inductive Outcome (A : Type) : Type :=
| Ret (a : A)
| Throw (e : Thrown).
Arguments Ret {A} a.
Arguments Throw {A} e.

Definition M (A : Type) : Type := World -> Outcome A * World.

Definition ret {A} (a : A) : M A := fun w => (Ret a, w).
Definition throw {A} (e : Thrown) : M A := fun w => (Throw e, w).
Definition bind {A B} (m : M A) (k : A -> M B) : M B :=
  fun w =>
    match m w with
    | (Ret a, w') => k a w'
    | (Throw e, w') => (Throw e, w')
    end.
Definition get_world : M World := fun w => (Ret w, w).
Definition modify (f : World -> World) : M unit := fun w => (Ret tt, f w).

Declare Scope store_scope.
Delimit Scope store_scope with store.
Notation "x <- m ;; k" := (bind m (fun x => k))
  (at level 61, m at next level, right associativity) : store_scope.
Notation "m ;;; k" := (bind m (fun _ => k))
  (at level 61, right associativity) : store_scope.
Local Open Scope store_scope.

Definition randomUUID : M Id :=
  fun w => (Ret (uuids w), set_uuids (S (uuids w)) w).

Definition default {A} (v : option A) (d : A) : A :=
  match v with
  | Some a => a
  | None => d
  end.

Definition createContact (insertContact : InsertContact) : M Contact :=
  id <- randomUUID ;;
  let contact :=
    mkContact id (ic_name insertContact) (ic_email insertContact)
      (default (ic_isValid insertContact) false)
      (ic_campaignId insertContact) in
  modify (fun w => set_contacts (map_set id contact (contacts w)) w) ;;;
  ret contact.


(** The only update the routes make to a contact: [{ campaignId }]. *)
Record ContactUpdates : Type := mkContactUpdates {
  cu_campaignId : option (option Id);
  cu_isValid : option bool
}.

Definition apply_contact_updates (c : Contact) (u : ContactUpdates) : Contact :=
  mkContact (c_id c) (c_name c) (c_email c)
    (default (cu_isValid u) (c_isValid c))
    (default (cu_campaignId u) (c_campaignId c)).

Definition not_found (what : string) (id : Id) : Thrown :=
  ErrorObj (str what ++ str " with id " ++ of_number (N.of_nat id)
            ++ str " not found").

Definition updateContact (id : Id) (updates : ContactUpdates) : M Contact :=
  w <- get_world ;;
  match map_get id (contacts w) with
  | None => throw (not_found "Contact" id)
  | Some contact =>
      let updatedContact := apply_contact_updates contact updates in
      modify (fun w => set_contacts (map_set id updatedContact (contacts w)) w) ;;;
      ret updatedContact
  end.

Definition same_campaign (campaignId : Id) (c : option Id) : bool :=
  match c with
  | Some i => Nat.eqb i campaignId
  | None => false
  end.

Definition getContactsByCampaign (campaignId : Id) : M (list Contact) :=
  fun w =>
    (Ret (filter (fun contact => same_campaign campaignId (c_campaignId contact))
            (map_values (contacts w))), w).

Fixpoint createManyContacts (insertContacts : list InsertContact)
  : M (list Contact) :=
  match insertContacts with
  | [] => ret []
  | insertContact :: rest =>
      contact <- createContact insertContact ;;
      others <- createManyContacts rest ;;
      ret (contact :: others)
  end.

(** [/^[^\s@]+@[^\s@]+\.[^\s@]+$/] *)
Definition emailRegex : Regex.regex :=
  let part := Regex.plus (Regex.Cls (fun c => negb (is_space c || N.eqb c 64%N))) in
  Regex.Cat part
    (Regex.Cat (Regex.chr 64%N)
       (Regex.Cat part (Regex.Cat (Regex.chr 46%N) part))).

Definition validateContacts (contacts : list Contact) : M (list Contact) :=
  ret (map (fun contact =>
              mkContact (c_id contact) (c_name contact) (c_email contact)
                (Regex.full_match emailRegex (to_text (c_email contact)))
                (c_campaignId contact))
         contacts).

Record InsertCampaign : Type := mkInsertCampaign {
  icp_subject : jsstring;
  icp_message : jsstring;
  icp_totalContacts : option nat;
  icp_sentCount : option nat;
  icp_failedCount : option nat;
  icp_status : option CampaignStatus
}.

Definition createCampaign (insertCampaign : InsertCampaign) : M Campaign :=
  id <- randomUUID ;;
  let campaign :=
    mkCampaign id (icp_subject insertCampaign) (icp_message insertCampaign)
      (default (icp_totalContacts insertCampaign) 0)
      (default (icp_sentCount insertCampaign) 0)
      (default (icp_failedCount insertCampaign) 0)
      (default (icp_status insertCampaign) Pending) in
  modify (fun w => set_campaigns (map_set id campaign (campaigns w)) w) ;;;
  ret campaign.

Definition getCampaign (id : Id) : M (option Campaign) :=
  fun w => (Ret (map_get id (campaigns w)), w).

Record CampaignUpdates : Type := mkCampaignUpdates {
  cpu_status : option CampaignStatus;
  cpu_sentCount : option nat;
  cpu_failedCount : option nat
}.

Definition apply_campaign_updates (c : Campaign) (u : CampaignUpdates) : Campaign :=
  mkCampaign (cp_id c) (cp_subject c) (cp_message c) (cp_totalContacts c)
    (default (cpu_sentCount u) (cp_sentCount c))
    (default (cpu_failedCount u) (cp_failedCount c))
    (default (cpu_status u) (cp_status c)).

Definition updateCampaign (id : Id) (updates : CampaignUpdates) : M Campaign :=
  w <- get_world ;;
  match map_get id (campaigns w) with
  | None => throw (not_found "Campaign" id)
  | Some campaign =>
      let updatedCampaign := apply_campaign_updates campaign updates in
      modify (fun w => set_campaigns (map_set id updatedCampaign (campaigns w)) w) ;;;
      ret updatedCampaign
  end.

Record InsertEmailResult : Type := mkInsertEmailResult {
  ier_campaignId : Id;
  ier_contactId : Id;
  ier_email : Value;
  ier_status : ResultStatus;
  ier_error : option jsstring
}.

Definition createEmailResult (insertResult : InsertEmailResult) : M EmailResult :=
  id <- randomUUID ;;
  let result :=
    mkEmailResult id (ier_campaignId insertResult) (ier_contactId insertResult)
      (ier_email insertResult) (ier_status insertResult)
      (ier_error insertResult) in
  modify (fun w => set_emailResults (map_set id result (emailResults w)) w) ;;;
  ret result.

Definition getEmailResultsByCampaign (campaignId : Id) : M (list EmailResult) :=
  fun w =>
    (Ret (filter (fun result => Nat.eqb (er_campaignId result) campaignId)
            (map_values (emailResults w))), w).

Record InsertAiMessage : Type := mkInsertAiMessage {
  iam_messageType : jsstring;
  iam_promotionalIdea : jsstring;
  iam_generatedMessage : jsstring;
  iam_characterCount : Z;
  iam_wordCount : nat;
  iam_isCompliant : option bool
}.

Definition createAiMessage (insertMessage : InsertAiMessage) : M AiMessage :=
  id <- randomUUID ;;
  let message :=
    mkAiMessage id (iam_messageType insertMessage)
      (iam_promotionalIdea insertMessage) (iam_generatedMessage insertMessage)
      (iam_characterCount insertMessage) (iam_wordCount insertMessage)
      (default (iam_isCompliant insertMessage) false) in
  modify (fun w => set_aiMessages (map_set id message (aiMessages w)) w) ;;;
  ret message.

Definition getAiMessage (id : Id) : M (option AiMessage) :=
  fun w => (Ret (map_get id (aiMessages w)), w).

(** Every key of the four maps was drawn from [randomUUID]: the next
    identifier is new to all of them. *)
Definition keys_below {V} (n : nat) (m : JsMap V) : Prop :=
  Forall (fun k => k < n) (map_keys m).

Definition store_wf (w : World) : Prop :=
  keys_below (uuids w) (contacts w) /\
  keys_below (uuids w) (campaigns w) /\
  keys_below (uuids w) (emailResults w) /\
  keys_below (uuids w) (aiMessages w).

End Store.

(* ================================================================== *)
(** ** [String.prototype.replace] with a global literal pattern *)

Module Replace.

(** The expansion of a replacement string at one match (GetSubstitution):
    the pattern has no capture groups, so only [$$], [$&], [$`] and [$']
    are special; any other [$] stands for itself. *)
Fixpoint getSubstitution (matched before after replacement : jsstring)
  : jsstring :=
  match replacement with
  | [] => []
  | c :: t =>
      if N.eqb c 36%N then
        match t with
        | [] => [c]
        | d :: t' =>
            if N.eqb d 36%N then
              36%N :: getSubstitution matched before after t'
            else if N.eqb d 38%N then
              matched ++ getSubstitution matched before after t'
            else if N.eqb d 96%N then
              before ++ getSubstitution matched before after t'
            else if N.eqb d 39%N then
              after ++ getSubstitution matched before after t'
            else c :: getSubstitution matched before after t
        end
      else c :: getSubstitution matched before after t
  end.

(** [s.replace(/pattern/g, replacement)] for a non-empty pattern without
    metacharacters: the matches are found from left to right and do not
    overlap.  [before] is what precedes the current position in the whole
    string, [skip] counts the characters of a match still to be passed. *)
Fixpoint replaceAll_from (pattern replacement before : jsstring) (skip : nat)
    (s : jsstring) : jsstring :=
  match s with
  | [] => []
  | c :: t =>
      match skip with
      | S k => replaceAll_from pattern replacement (before ++ [c]) k t
      | O =>
          if starts_with pattern s then
            getSubstitution pattern before (skipn (length pattern) s)
              replacement
            ++ replaceAll_from pattern replacement (before ++ [c])
                 (length pattern - 1) t
          else c :: replaceAll_from pattern replacement (before ++ [c]) 0 t
      end
  end.

Definition replaceAll (pattern replacement s : jsstring) : jsstring :=
  replaceAll_from pattern replacement [] 0 s.

End Replace.

(* ================================================================== *)
(** ** The routes on the store ([registerRoutes]) *)

Module Routes.
Import Store.
Local Open Scope store_scope.

(** [try { body } catch (error) { handler }] at the boundary of a route. *)
Definition try_catch {A} (body : M A) (handler : Thrown -> A)
  : World -> A * World :=
  fun w =>
    match body w with
    | (Ret a, w') => (a, w')
    | (Throw e, w') => (handler e, w')
    end.

(** [try { body } catch (error) { handler }] inside a route. *)
Definition try_ {A} (body : M A) (handler : Thrown -> M A) : M A :=
  fun w =>
    match body w with
    | (Ret a, w') => (Ret a, w')
    | (Throw e, w') => handler e w'
    end.

(** *** POST /api/upload-contacts *)

(** A row of [sheet_to_json]: an object from column headers to cells.  A
    cell is a text, a number, a boolean or [null]; an empty cell leaves no
    key. *)
Definition Row := list (jsstring * Value).

Fixpoint row_get (key : jsstring) (row : Row) : option Value :=
  match row with
  | [] => None
  | (k, v) :: row' => if jseq k key then Some v else row_get key row'
  end.

(** [key in row] *)
Definition has_key (key : string) (row : Row) : bool :=
  match row_get (str key) row with
  | Some _ => true
  | None => false
  end.

Inductive UploadInput : Type :=
| NoFile
| Unreadable (e : Thrown)
| Sheet (jsonData : list Row).

Inductive UploadResponse : Type :=
| UploadOk (preview : list Contact) (total valid invalid : nat)
    (contactIds : list Id)
| UploadError (code : N) (error : jsstring).

Definition FormatError : UploadResponse :=
  UploadError 400 (str "File is empty").
Definition SchemaError : UploadResponse :=
  UploadError 400
    (str "Required columns missing. File must contain 'Name' and 'Email' columns.").

Definition contactsToInsert (jsonData : list Row) : list InsertContact :=
  map (fun row =>
         mkInsertContact
           (value_or (row_get (str "Name") row)
              (value_or (row_get (str "name") row) (VText [])))
           (value_or (row_get (str "Email") row)
              (value_or (row_get (str "email") row) (VText [])))
           None (Some false))
    jsonData.

Definition uploadContacts (file : UploadInput) : World -> UploadResponse * World :=
  try_catch
    (match file with
     | NoFile => ret (UploadError 400 (str "No file uploaded"))
     | Unreadable e => throw e
     | Sheet jsonData =>
         match jsonData with
         | [] => ret FormatError
         | firstRow :: _ =>
             let hasName := has_key "Name" firstRow || has_key "name" firstRow in
             let hasEmail := has_key "Email" firstRow || has_key "email" firstRow in
             if negb hasName || negb hasEmail then ret SchemaError
             else
               createdContacts <- createManyContacts (contactsToInsert jsonData) ;;
               validatedContacts <- validateContacts createdContacts ;;
               let validCount := length (filter c_isValid validatedContacts) in
               let invalidCount := length validatedContacts - validCount in
               ret (UploadOk (firstn 10 validatedContacts)
                      (length validatedContacts) validCount invalidCount
                      (map c_id validatedContacts))
         end
     end)
    (fun _ => UploadError 500 (str "Failed to process file")).

(** *** POST /api/campaigns *)

Inductive CampaignResponse : Type :=
| CampaignOk (campaign : Campaign)
| CampaignError (code : N) (error : jsstring).

Fixpoint attachContacts (contactIds : list Id) (campaignId : Id) : M unit :=
  match contactIds with
  | [] => ret tt
  | contactId :: rest =>
      updateContact contactId (mkContactUpdates (Some (Some campaignId)) None) ;;;
      attachContacts rest campaignId
  end.

Definition postCampaign (subject message : jsstring) (contactIds : list Id)
  : World -> CampaignResponse * World :=
  try_catch
    (campaign <- createCampaign
                   (mkInsertCampaign subject message (Some (length contactIds))
                      (Some 0) (Some 0) (Some Pending)) ;;
     attachContacts contactIds (cp_id campaign) ;;;
     ret (CampaignOk campaign))
    (fun _ => CampaignError 500 (str "Failed to create campaign")).

(** *** POST /api/campaigns/:id/send *)

Inductive SendOutcome : Type :=
| Delivered
| Rejected (e : Thrown).

(** The e-mail provider: what [sendTransacEmail] does with a request, given
    how many requests it was handed before. *)
Definition Provider := nat -> EmailRequest -> SendOutcome.

Definition sendTransacEmail (api : Provider) (request : EmailRequest) : M unit :=
  fun w =>
    let w' := set_outbox (outbox w ++ [request]) w in
    match api (length (outbox w)) request with
    | Delivered => (Ret tt, w')
    | Rejected e => (Throw e, w')
    end.

Definition placeholder : jsstring := Eval cbv in str "{name}".

(** [template.replace(/{name}/g, name)] *)
Definition personalize (template name : jsstring) : jsstring :=
  Replace.replaceAll placeholder name template.

Definition dq : jsstring := [34%N].
Definition nl : jsstring := [10%N].

Definition htmlContent (personalizedMessage : jsstring) : jsstring :=
  nl ++ str "              <div style=" ++ dq
  ++ str "font-family: Arial, sans-serif; max-width: 600px; margin: 0 auto;"
  ++ dq ++ str ">" ++ nl
  ++ str "                "
  ++ Replace.replaceAll nl (str "<br>") personalizedMessage ++ nl
  ++ str "                <br><br>" ++ nl
  ++ str "                <hr style=" ++ dq
  ++ str "border: 1px solid #eee; margin: 20px 0;" ++ dq ++ str ">" ++ nl
  ++ str "                <p style=" ++ dq
  ++ str "font-size: 12px; color: #666;" ++ dq ++ str ">" ++ nl
  ++ str "                  Elite IIT Coaching Institute<br>" ++ nl
  ++ str "                  Yelahanka, Bangalore<br>" ++ nl
  ++ str "                  <a href=" ++ dq
  ++ str "mailto:unsubscribe@eliteiit.com" ++ dq ++ str ">Unsubscribe</a>" ++ nl
  ++ str "                </p>" ++ nl
  ++ str "              </div>" ++ nl
  ++ str "            ".

Definition emailRequest (campaign : Campaign) (contact : Contact) : EmailRequest :=
  let personalizedMessage :=
    personalize (cp_message campaign) (to_text (c_name contact)) in
  let personalizedSubject :=
    personalize (cp_subject campaign) (to_text (c_name contact)) in
  mkEmailRequest (c_email contact) (c_name contact) personalizedSubject
    (htmlContent personalizedMessage) personalizedMessage.

Definition error_message (e : Thrown) (fallback : string) : jsstring :=
  match e with
  | ErrorObj message => message
  | NonError => str fallback
  end.

(** The body of the [for] loop for one contact; the pair is
    [(sentCount, failedCount)]. *)
Definition sendOne (api : Provider) (campaign : Campaign) (id : Id)
    (contact : Contact) (counts : nat * nat) : M (nat * nat) :=
  try_
    (sendTransacEmail api (emailRequest campaign contact) ;;;
     createEmailResult
       (mkInsertEmailResult id (c_id contact) (c_email contact) Sent None) ;;;
     ret (S (fst counts), snd counts))
    (fun error =>
       createEmailResult
         (mkInsertEmailResult id (c_id contact) (c_email contact) Failed
            (Some (error_message error "Unknown error"))) ;;;
       ret (fst counts, S (snd counts))).

Fixpoint sendLoop (api : Provider) (campaign : Campaign) (id : Id)
    (validContacts : list Contact) (counts : nat * nat) : M (nat * nat) :=
  match validContacts with
  | [] => ret counts
  | contact :: rest =>
      counts' <- sendOne api campaign id contact counts ;;
      sendLoop api campaign id rest counts'
  end.

Inductive SendResponse : Type :=
| SendOk (sentCount failedCount total : nat)
| SendError (code : N) (error : jsstring).

Definition NotFoundError : SendResponse :=
  SendError 404 (str "Campaign not found").
Definition ServiceUnavailableError : SendResponse :=
  SendError 503
    (str "Email service not configured. Please add BREVO_API_KEY to environment variables.").

Definition postCampaignSend (brevoApi : option Provider) (id : Id)
  : World -> SendResponse * World :=
  try_catch
    (campaign <- getCampaign id ;;
     match campaign with
     | None => ret NotFoundError
     | Some campaign =>
         updateCampaign id (mkCampaignUpdates (Some Sending) None None) ;;;
         contacts <- getContactsByCampaign id ;;
         let validContacts := filter c_isValid contacts in
         match brevoApi with
         | None => ret ServiceUnavailableError
         | Some api =>
             counts <- sendLoop api campaign id validContacts (0, 0) ;;
             updateCampaign id
               (mkCampaignUpdates (Some Completed) (Some (fst counts))
                  (Some (snd counts))) ;;;
             ret (SendOk (fst counts) (snd counts) (length validContacts))
         end
     end)
    (fun _ => SendError 500 (str "Failed to send campaign")).

(** *** GET /api/campaigns/:id/results *)

Inductive ResultsResponse : Type :=
| ResultsOk (campaign : Campaign) (results : list EmailResult)
    (total sent failed : nat) (failedEmails : list EmailResult)
| ResultsError (code : N) (error : jsstring).

Definition is_failed (r : EmailResult) : bool :=
  match er_status r with
  | Failed => true
  | Sent => false
  end.

Definition getCampaignResults (id : Id) : World -> ResultsResponse * World :=
  try_catch
    (campaign <- getCampaign id ;;
     results <- getEmailResultsByCampaign id ;;
     match campaign with
     | None => ret (ResultsError 404 (str "Campaign not found"))
     | Some campaign =>
         ret (ResultsOk campaign results (cp_totalContacts campaign)
                (cp_sentCount campaign) (cp_failedCount campaign)
                (filter is_failed results))
     end)
    (fun _ => ResultsError 500 (str "Failed to get campaign results")).

End Routes.

(* ================================================================== *)
(** ** Calls to the HTTP providers *)

Module Http.
Import Store.

(** What a [fetch] and the reading of its body come to.  [FetchThrew] stands
    for every exception of that step: the request was rejected, the body was
    not the expected JSON, or a property was read from [undefined]. *)
Inductive HttpResult (A : Type) : Type :=
| FetchThrew (e : Thrown)
| HttpNotOk (status : N) (statusText body : jsstring)
    (errorMessage retryAfter : option jsstring)
| HttpOk (a : A).
Arguments FetchThrew {A} e.
Arguments HttpNotOk {A} status statusText body errorMessage retryAfter.
Arguments HttpOk {A} a.

End Http.

(* ================================================================== *)
(** ** POST /api/ai-message *)

Module MessageGenerator.
Import Store Routes Http Regex.
Local Open Scope store_scope.
Local Open Scope Z_scope.

Definition limitOf (messageType : jsstring) : Z :=
  if jseq messageType (str "sms") then 160 else 1100.

Definition ellipsis : jsstring := Eval cbv in str "...".
Definition space : code_unit := 32%N.

(** Where the text is cut: the last space among the first [limit]
    characters (-1 when there is none, which [substring] takes as 0). *)
Definition cutIndex (limit : Z) (generatedMessage : jsstring) : Z :=
  let truncated := substring generatedMessage 0 limit in
  Z.min (len truncated) (lastIndexOf space truncated).

(** The block that enforces the character limit. *)
Definition enforceLimit (messageType generatedMessage : jsstring) : jsstring :=
  let limit := limitOf messageType in
  if len generatedMessage >? limit then
    let truncated := substring generatedMessage 0 limit in
    let truncated :=
      substring truncated 0
        (Z.min (len truncated) (lastIndexOf space truncated)) in
    truncated ++ ellipsis
  else generatedMessage.

(** [s.split(/\s+/)]: the pieces between the runs of white space. *)
Fixpoint split_from (piece : jsstring) (in_gap : bool) (s : jsstring)
  : list jsstring :=
  match s with
  | [] => [piece]
  | c :: t =>
      if is_space c then
        if in_gap then split_from [] true t
        else piece :: split_from [] true t
      else split_from (piece ++ [c]) false t
  end.

Definition split_whitespace (s : jsstring) : list jsstring :=
  split_from [] false s.

Definition wordCountOf (finalMessage : jsstring) : nat :=
  length (filter (fun word => 0 <? len word) (split_whitespace finalMessage)).

(** [/stop|opt.?out|unsubscribe/i] *)
Definition optOutRegex : regex :=
  alts [word_ci "stop";
        Cat (word_ci "opt") (Cat (opt dot) (word_ci "out"));
        word_ci "unsubscribe"].

(** [/elite.?iit/i] *)
Definition businessNameRegex : regex :=
  Cat (word_ci "elite") (Cat (opt dot) (word_ci "iit")).

(** [/call|contact|visit|reply|click|join/i] *)
Definition ctaRegex : regex :=
  alts [word_ci "call"; word_ci "contact"; word_ci "visit"; word_ci "reply";
        word_ci "click"; word_ci "join"].

(** [/yelahanka|bangalore/i] *)
Definition locationRegex : regex :=
  alts [word_ci "yelahanka"; word_ci "bangalore"].

Record Compliance : Type := mkCompliance {
  hasOptOut : bool;
  hasBusinessName : bool;
  hasCTA : bool;
  withinLimit : bool;
  hasLocation : bool;
  isCompliant : bool
}.

Definition complianceOf (messageType finalMessage : jsstring) : Compliance :=
  let characterCount := len finalMessage in
  let hasOptOut := test optOutRegex finalMessage in
  let hasBusinessName := test businessNameRegex finalMessage in
  let hasCTA := test ctaRegex finalMessage in
  let withinLimit :=
    if jseq messageType (str "sms") then characterCount <=? 160
    else characterCount <=? 250 in
  let hasLocation := test locationRegex finalMessage in
  let isCompliant :=
    hasOptOut && hasBusinessName && hasCTA && withinLimit && hasLocation in
  mkCompliance hasOptOut hasBusinessName hasCTA withinLimit hasLocation
    isCompliant.

Inductive AiResponse : Type :=
| AiOk (aiMessage : AiMessage) (compliance : Compliance)
| AiError (code : N) (error : jsstring).

(** The route.  [openrouterKey] tells whether the completion credential is
    set; [response] is what the completion provider answers, with the
    content of its first choice.  The prompt sent to the provider does not
    enter what is stored. *)
Definition postAiMessage (openrouterKey : bool)
    (messageType promotionalIdea : jsstring)
    (response : HttpResult (option jsstring)) : World -> AiResponse * World :=
  try_catch
    (if negb openrouterKey then
       ret (AiError 503
              (str "AI service not configured. Please add OPENROUTER_API_KEY to environment variables."))
     else
       match response with
       | FetchThrew e => throw e
       | HttpNotOk _ statusText _ errorMessage _ =>
           throw (ErrorObj (str "OpenRouter API error: "
                            ++ or_else errorMessage statusText))
       | HttpOk content =>
           let generatedMessage := or_else content [] in
           let finalMessage := enforceLimit messageType generatedMessage in
           let characterCount := len finalMessage in
           let wordCount := wordCountOf finalMessage in
           let compliance := complianceOf messageType finalMessage in
           aiMessage <- createAiMessage
                          (mkInsertAiMessage messageType promotionalIdea
                             finalMessage characterCount wordCount
                             (Some (isCompliant compliance))) ;;
           ret (AiOk aiMessage compliance)
       end)
    (fun _ => AiError 500 (str "Failed to generate AI message")).

End MessageGenerator.

(* ================================================================== *)
(** ** The image-generation job tracker *)

Module ImageTracker.
Import Store Routes Http.

(** The value kept as the error of a task: a text, or, when the provider's
    [data.error] is an object without a usable message, that object. *)
Inductive ErrorInfo : Type :=
| ErrText (s : jsstring)
| ErrObject (message : option jsstring).

(** [ImageTask].  The status is declared as one of six literals, but what is
    assigned to it at run time is whatever string the provider reports, so
    it is a string here. *)
Record ImageTask : Type := mkImageTask {
  originalPrompt : jsstring;
  enhancedPrompt : option jsstring;
  freepikTaskId : option jsstring;
  status : jsstring;
  imageUrl : option jsstring;
  error : option ErrorInfo
}.

Definition CREATED : jsstring := Eval cbv in str "CREATED".
Definition INITIALIZING : jsstring := Eval cbv in str "INITIALIZING".
Definition PENDING : jsstring := Eval cbv in str "PENDING".
Definition PROCESSING : jsstring := Eval cbv in str "PROCESSING".
Definition COMPLETED : jsstring := Eval cbv in str "COMPLETED".
Definition FAILED : jsstring := Eval cbv in str "FAILED".

Definition terminal (s : jsstring) : bool :=
  jseq s COMPLETED || jseq s FAILED.

Definition set_status (s : jsstring) (t : ImageTask) : ImageTask :=
  mkImageTask (originalPrompt t) (enhancedPrompt t) (freepikTaskId t) s
    (imageUrl t) (error t).
Definition set_enhancedPrompt (p : jsstring) (t : ImageTask) : ImageTask :=
  mkImageTask (originalPrompt t) (Some p) (freepikTaskId t) (status t)
    (imageUrl t) (error t).
Definition set_freepikTaskId (h : jsstring) (t : ImageTask) : ImageTask :=
  mkImageTask (originalPrompt t) (enhancedPrompt t) (Some h) (status t)
    (imageUrl t) (error t).
Definition set_imageUrl (u : jsstring) (t : ImageTask) : ImageTask :=
  mkImageTask (originalPrompt t) (enhancedPrompt t) (freepikTaskId t)
    (status t) (Some u) (error t).
Definition set_error (e : ErrorInfo) (t : ImageTask) : ImageTask :=
  mkImageTask (originalPrompt t) (enhancedPrompt t) (freepikTaskId t)
    (status t) (imageUrl t) (Some e).

(** [imageTaskCache]: a [Map] from task identifiers to tasks. *)
Definition TaskCache := list (jsstring * ImageTask).

Fixpoint cache_get (taskId : jsstring) (cache : TaskCache) : option ImageTask :=
  match cache with
  | [] => None
  | (k, t) :: cache' => if jseq taskId k then Some t else cache_get taskId cache'
  end.

Fixpoint cache_set (taskId : jsstring) (t : ImageTask) (cache : TaskCache)
  : TaskCache :=
  match cache with
  | [] => [(taskId, t)]
  | (k, t') :: cache' =>
      if jseq taskId k then (taskId, t) :: cache'
      else (k, t') :: cache_set taskId t cache'
  end.

(** The JSON body of a response; absent fields are [None]. *)
Record Body : Type := mkBody {
  b_status : option jsstring;
  b_imageUrl : option jsstring;
  b_enhancedPrompt : option jsstring;
  b_error : option ErrorInfo;
  b_message : option jsstring;
  b_retryAfter : option jsstring;
  b_taskId : option jsstring;
  b_originalPrompt : option jsstring
}.

Definition empty_body : Body :=
  mkBody None None None None None None None None.

Record Response : Type := mkResponse {
  code : N;
  body : Body
}.

Definition error_response (c : N) (message : string) : Response :=
  mkResponse c
    (mkBody None None None (Some (ErrText (str message))) None None None None).

Definition failed_response (e : ErrorInfo) : Response :=
  mkResponse 200
    (mkBody (Some FAILED) None None (Some e) None None None None).

(** The credentials of the environment. *)
Record Env : Type := mkEnv {
  FREEPIK_API_KEY : bool;
  OPENROUTER_API_KEY : bool
}.

(** *** POST /api/generate-image/start *)

(** [imageDescription.trim().length === 0] *)
Definition blank (s : jsstring) : bool := forallb is_space s.

(** [generatedTaskId] is the value of [generateTaskId()]. *)
Definition startImage (env : Env) (imageDescription : option jsstring)
    (generatedTaskId : jsstring) (cache : TaskCache) : Response * TaskCache :=
  if negb (FREEPIK_API_KEY env) then
    (error_response 503
       "Image generation service not configured. Please add FREEPIK_API_KEY to environment variables.",
     cache)
  else if negb (OPENROUTER_API_KEY env) then
    (error_response 503
       "AI service not configured. Please add OPENROUTER_API_KEY to environment variables.",
     cache)
  else
    match imageDescription with
    | Some (c :: d) =>
        if blank (c :: d) then
          (error_response 400 "Image description is required", cache)
        else
          (mkResponse 200
             (mkBody (Some CREATED) None (Some []) None None None
                (Some generatedTaskId) (Some (c :: d))),
           cache_set generatedTaskId
             (mkImageTask (c :: d) None None CREATED None None) cache)
    | _ => (error_response 400 "Image description is required", cache)
    end.

(** *** GET /api/generate-image/status/:taskId *)

(** What the image provider answers to a submission. *)
Record SubmitData : Type := mkSubmitData {
  sub_json : jsstring;           (* JSON.stringify(imageData) *)
  sub_task_id : option jsstring; (* imageData.data?.task_id *)
  sub_status : option jsstring   (* imageData.data?.status *)
}.

(** What the image provider answers to a status request. *)
Record StatusData : Type := mkStatusData {
  sd_status : option jsstring;      (* statusData.data?.status *)
  sd_generated : list jsstring;     (* statusData.data?.generated || [] *)
  sd_error : option ErrorInfo;      (* statusData.data?.error *)
  sd_dataMessage : option jsstring; (* statusData.data?.message *)
  sd_message : option jsstring      (* statusData.message *)
}.

(** The answers of the providers during one poll, should they be asked. *)
Record Providers : Type := mkProviders {
  enhance : HttpResult (option jsstring);
  submit : HttpResult SubmitData;
  check : HttpResult StatusData
}.

(** The provider calls a poll makes, in order. *)
Inductive Call : Type :=
| CallEnhance (prompt : jsstring)
| CallSubmit (prompt : jsstring)
| CallStatus (handle : jsstring).

Definition is_initialization (c : Call) : bool :=
  match c with
  | CallEnhance _ => true
  | CallSubmit _ => true
  | CallStatus _ => false
  end.

(** The [catch] of the initialization step. *)
Definition failInitialization (task : ImageTask) (e : Thrown)
  : ImageTask * option Response :=
  let message := ErrText (error_message e "Initialization failed") in
  (set_error message (set_status FAILED task), Some (failed_response message)).

(** The lazy initialization of a task found in state CREATED.  The response
    is [Some] when the route returns from inside this step. *)
Definition initialize (p : Providers) (task : ImageTask)
  : ImageTask * option Response * list Call :=
  let task := set_status INITIALIZING task in
  let call1 := CallEnhance (originalPrompt task) in
  match enhance p with
  | FetchThrew e => (failInitialization task e, [call1])
  | HttpNotOk _ statusText errorText _ _ =>
      (failInitialization task
         (ErrorObj (str "Prompt enhancement failed: " ++ statusText
                    ++ str " - " ++ errorText)),
       [call1])
  | HttpOk content =>
      let enhanced := or_else content (originalPrompt task) in
      let task := set_enhancedPrompt enhanced task in
      let call2 := CallSubmit enhanced in
      match submit p with
      | FetchThrew e => (failInitialization task e, [call1; call2])
      | HttpNotOk st _ errorText _ _ =>
          (failInitialization task
             (ErrorObj (str "Freepik API error: " ++ of_number st
                        ++ str " - " ++ errorText)),
           [call1; call2])
      | HttpOk imageData =>
          match sub_task_id imageData with
          | Some (c :: h) =>
              let task := set_freepikTaskId (c :: h) task in
              let task :=
                set_status
                  (if jseq (or_else (sub_status imageData) []) COMPLETED
                   then COMPLETED else PENDING) task in
              (task, None, [call1; call2])
          | _ =>
              (failInitialization task
                 (ErrorObj (str "No task ID received from Freepik API. Response: "
                            ++ sub_json imageData)),
               [call1; call2])
          end
      end
  end.

(** The error of a failed provider task: the first usable one of
    [data.error.message], [data.error], [data.message], [message]. *)
Definition extractError (statusData : StatusData) : ErrorInfo :=
  match sd_error statusData with
  | Some (ErrObject (Some (c :: m))) => ErrText (c :: m)
  | Some (ErrObject m) => ErrObject m
  | Some (ErrText (c :: s)) => ErrText (c :: s)
  | _ =>
      ErrText (or_else (sd_dataMessage statusData)
                 (or_else (sd_message statusData)
                    (str "Image generation failed")))
  end.

(** The status check of a task that has a provider handle. *)
Definition checkStatus (p : Providers) (task : ImageTask)
  : ImageTask * Response :=
  match check p with
  | FetchThrew e =>
      (task,
       mkResponse 500
         (mkBody (Some (str "ERROR")) None None
            (Some (ErrText (error_message e "Failed to check image status")))
            None None None None))
  | HttpNotOk st _ errorText _ retryAfter =>
      if N.eqb st 429 then
        (task,
         mkResponse 429
           (mkBody (Some (str "RATE_LIMITED")) None None
              (Some (ErrText
                 (str "Rate limit exceeded. Please try again in a few moments.")))
              None (Some (or_else retryAfter (str "30"))) None None))
      else
        (task,
         mkResponse 500
           (mkBody (Some (str "ERROR")) None None
              (Some (ErrText (str "Failed to check status: " ++ of_number st
                              ++ str " - " ++ errorText)))
              None None None None))
  | HttpOk statusData =>
      let st := or_else (sd_status statusData) [] in
      if jseq st COMPLETED then
        match sd_generated statusData with
        | url :: _ =>
            (set_status COMPLETED (set_imageUrl url task),
             mkResponse 200
               (mkBody (Some COMPLETED) (Some url)
                  (Some (or_else (enhancedPrompt task) (originalPrompt task)))
                  None None None None None))
        | [] =>
            let e := ErrText (str "Task completed but no images were generated") in
            (set_error e (set_status FAILED task), failed_response e)
        end
      else if jseq st FAILED then
        let e := extractError statusData in
        (set_error e (set_status FAILED task), failed_response e)
      else
        let task := set_status (or_else (sd_status statusData) PROCESSING) task in
        (task,
         mkResponse 200
           (mkBody (Some (status task)) None None None
              (Some (str "Image is being generated...")) None None None))
  end.

(** One poll of a task that is in the cache. *)
Definition pollTask (p : Providers) (task : ImageTask)
  : ImageTask * Response * list Call :=
  let '(task, early, calls) :=
    if jseq (status task) CREATED then initialize p task
    else (task, None, []) in
  match early with
  | Some response => (task, response, calls)
  | None =>
      match freepikTaskId task with
      | Some (c :: h) =>
          let '(task', response) := checkStatus p task in
          (task', response, calls ++ [CallStatus (c :: h)])
      | _ =>
          (task,
           mkResponse 200
             (mkBody (Some (status task)) (imageUrl task) None (error task)
                (Some (if jseq (status task) INITIALIZING
                       then str "Initializing image generation..."
                       else str "Processing..."))
                None None None),
           calls)
      end
  end.

Definition getImageStatus (env : Env) (p : Providers) (taskId : jsstring)
    (cache : TaskCache) : Response * TaskCache * list Call :=
  if negb (FREEPIK_API_KEY env) then
    (error_response 503 "Image generation service not configured.", cache, [])
  else if negb (OPENROUTER_API_KEY env) then
    (error_response 503 "AI service not configured.", cache, [])
  else
    match taskId with
    | [] => (error_response 400 "Task ID is required", cache, [])
    | _ =>
        match cache_get taskId cache with
        | None =>
            (mkResponse 404
               (mkBody (Some (str "ERROR")) None None
                  (Some (ErrText (str "Task not found. It may have expired.")))
                  None None None None),
             cache, [])
        | Some task =>
            let '(task', response, calls) := pollTask p task in
            (response, cache_set taskId task' cache, calls)
        end
    end.

(** Successive polls of one task, each with the answers the providers give
    during it: the final task, the responses and every provider call. *)
Fixpoint pollMany (ps : list Providers) (task : ImageTask)
  : ImageTask * list Response * list Call :=
  match ps with
  | [] => (task, [], [])
  | p :: ps' =>
      let '(task1, response, calls) := pollTask p task in
      let '(task2, responses, calls') := pollMany ps' task1 in
      (task2, response :: responses, calls ++ calls')
  end.

(** How often the initialization step was entered. *)
Definition initializations (calls : list Call) : nat :=
  length (filter (fun c => match c with CallEnhance _ => true | _ => false end)
            calls).

End ImageTracker.

(* ================================================================== *)
(** ** The server: requests on the store, one after the other *)

Module Server.
Import Store Routes Http MessageGenerator.

Inductive Request : Type :=
| UploadContacts (file : UploadInput)
| CreateCampaign (subject message : jsstring) (contactIds : list Id)
| SendCampaign (id : Id)
| CampaignResults (id : Id)
| GenerateMessage (messageType promotionalIdea : jsstring)
    (response : HttpResult (option jsstring)).

(** What the environment sets once, when the module is loaded. *)
Record Config : Type := mkConfig {
  brevoApi : option Provider;
  openrouterKey : bool
}.

Definition serve (cfg : Config) (r : Request) (w : World) : World :=
  match r with
  | UploadContacts file => snd (uploadContacts file w)
  | CreateCampaign subject message contactIds =>
      snd (postCampaign subject message contactIds w)
  | SendCampaign id => snd (postCampaignSend (brevoApi cfg) id w)
  | CampaignResults id => snd (getCampaignResults id w)
  | GenerateMessage messageType promotionalIdea response =>
      snd (postAiMessage (openrouterKey cfg) messageType promotionalIdea
             response w)
  end.

Fixpoint serveAll (cfg : Config) (rs : list Request) (w : World) : World :=
  match rs with
  | [] => w
  | r :: rs' => serveAll cfg rs' (serve cfg r w)
  end.

End Server.

(* ================================================================== *)
(** ** Notions used to state the properties *)

Module Props.
Import Store Routes Http MessageGenerator ImageTracker Server.

(** The five probes of a compliance report, in the order of the route. *)
Definition probes (c : Compliance) : list bool :=
  [hasOptOut c; hasBusinessName c; hasCTA c; withinLimit c; hasLocation c].

(** In how many probes two reports differ. *)
Fixpoint differing (u v : list bool) : nat :=
  match u, v with
  | x :: u', y :: v' => (if xorb x y then 1 else 0) + differing u' v'
  | _, _ => 0
  end.

(** Every probe on which two reports agree is true in both. *)
Fixpoint agreeing_hold (u v : list bool) : bool :=
  match u, v with
  | x :: u', y :: v' => (xorb x y || x) && agreeing_hold u' v'
  | _, _ => true
  end.

(** An SMS completion of 170 characters whose 160th character is the last
    space: 159 letters, a space, 10 letters. *)
Definition overlongSms : jsstring :=
  repeat 97%N 159 ++ [32%N] ++ repeat 98%N 10.


(** The entries a list of records adds to a map, each under its key. *)
Definition entries {V} (key : V -> Id) (vs : list V) : JsMap V :=
  map (fun v => (key v, v)) vs.

(** The contacts [createManyContacts] makes when the next identifier is [n]. *)
Fixpoint fresh_contacts (n : nat) (ics : list InsertContact) : list Contact :=
  match ics with
  | [] => []
  | ic :: rest =>
      mkContact n (ic_name ic) (ic_email ic) (default (ic_isValid ic) false)
        (ic_campaignId ic)
      :: fresh_contacts (S n) rest
  end.

(** A contact with the validity flag that [validateContacts] computes. *)
Definition validated (c : Contact) : Contact :=
  mkContact (c_id c) (c_name c) (c_email c)
    (Regex.full_match emailRegex (to_text (c_email c))) (c_campaignId c).

(** The first row has a name column and an e-mail column, as the route
    tests them. *)
Definition hasName (firstRow : Row) : bool :=
  has_key "Name" firstRow || has_key "name" firstRow.
Definition hasEmail (firstRow : Row) : bool :=
  has_key "Email" firstRow || has_key "email" firstRow.

(** The schema condition in the words of the specification: a column is
    present when some header is the word in any mix of cases, and the
    import is refused when neither column is present. *)
Definition to_lower (c : code_unit) : code_unit :=
  if ((65 <=? c) && (c <=? 90))%N then (c + 32)%N else c.
Definition has_column_ci (name : string) (row : Row) : bool :=
  existsb (fun kv => jseq (map to_lower (fst kv)) (str name)) row.
Definition spec_SchemaError (rows : list Row) : bool :=
  match rows with
  | [] => false
  | firstRow :: _ =>
      negb (has_column_ci "name" firstRow)
      && negb (has_column_ci "email" firstRow)
  end.

(** The contacts attached to a campaign, and the valid ones among them, in
    the order of the store. *)
Definition attached (id : Id) (w : World) : list Contact :=
  filter (fun contact => same_campaign id (c_campaignId contact))
    (map_values (contacts w)).
Definition validContactsOf (id : Id) (w : World) : list Contact :=
  filter c_isValid (attached id w).

Definition status_of (o : SendOutcome) : ResultStatus :=
  match o with
  | Delivered => Sent
  | Rejected _ => Failed
  end.

Definition error_of (o : SendOutcome) : option jsstring :=
  match o with
  | Delivered => None
  | Rejected e => Some (error_message e "Unknown error")
  end.

(** The results a dispatch records for the contacts [cs], when the provider
    was handed [k] requests before and the next identifier is [n]. *)
Fixpoint dispatch_results (api : Provider) (campaign : Campaign) (id : Id)
    (k n : nat) (cs : list Contact) : list EmailResult :=
  match cs with
  | [] => []
  | c :: rest =>
      let o := api k (emailRequest campaign c) in
      mkEmailResult n id (c_id c) (c_email c) (status_of o) (error_of o)
      :: dispatch_results api campaign id (S k) (S n) rest
  end.

Definition is_sent (r : EmailResult) : bool := negb (is_failed r).

Definition count_sent (rs : list EmailResult) : nat :=
  length (filter is_sent rs).
Definition count_failed (rs : list EmailResult) : nat :=
  length (filter is_failed rs).

(** No contact of the store carries a true validity flag. *)
Definition all_invalid (w : World) : Prop :=
  Forall (fun c => c_isValid c = false) (map_values (contacts w)).

(** A provider that rejects every request. *)
Definition rejecting (e : Thrown) : Provider := fun _ _ => Rejected e.

(** The counters after one send. *)
Definition bump (o : SendOutcome) (counts : nat * nat) : nat * nat :=
  match o with
  | Delivered => (S (fst counts), snd counts)
  | Rejected _ => (fst counts, S (snd counts))
  end.

(** A property of the world that a computation keeps, whether it returns or
    throws. *)
Definition preserves (P : World -> Prop) {A} (m : M A) : Prop :=
  forall w, P w -> P (snd (m w)).

(** A campaign as a refused dispatch leaves it. *)
Definition stranded (campaign : Campaign) : Campaign :=
  mkCampaign (cp_id campaign) (cp_subject campaign) (cp_message campaign)
    (cp_totalContacts campaign) (cp_sentCount campaign)
    (cp_failedCount campaign) Sending.

(** A campaign as a finished dispatch leaves it. *)
Definition completed (campaign : Campaign) (sentCount failedCount : nat)
  : Campaign :=
  mkCampaign (cp_id campaign) (cp_subject campaign) (cp_message campaign)
    (cp_totalContacts campaign) sentCount failedCount Completed.

(** The campaign [id] is stored as [c], and no campaign key is ahead of
    the identifiers drawn. *)
Definition holds_campaign (id : Id) (c : Campaign) (w : World) : Prop :=
  keys_below (uuids w) (campaigns w) /\ map_get id (campaigns w) = Some c.

(** The text of the e-mail address the importer takes from a row. *)
Definition email_of_row (row : Row) : jsstring :=
  to_text (value_or (row_get (str "Email") row)
             (value_or (row_get (str "email") row) (VText []))).

(** A sheet with two well-formed addresses and a malformed one. *)
Definition sampleRows : list Row :=
  [[(str "Name", VText (str "Ann"));
    (str "Email", VText (str "ann@example.org"))];
   [(str "Name", VText (str "Bob"));
    (str "Email", VText (str "bob@example.org"))];
   [(str "Name", VText (str "Cy"));
    (str "Email", VText (str "not-an-address"))]].

(** The replacement string refers to the text at or around the match: read
    from left to right, it has one of the patterns [$&], [$`] and [$']. *)
Fixpoint refers_to_match (replacement : jsstring) : bool :=
  match replacement with
  | [] => false
  | c :: t =>
      if N.eqb c 36%N then
        match t with
        | [] => false
        | d :: t' =>
            if N.eqb d 36%N then refers_to_match t'
            else if N.eqb d 38%N || N.eqb d 96%N || N.eqb d 39%N then true
            else refers_to_match t
        end
      else refers_to_match t
  end.

(** What a replacement string without such a pattern stands for at every
    match: itself, with [$$] read as one [$]. *)
Definition written (replacement : jsstring) : jsstring :=
  Replace.getSubstitution [] [] [] replacement.

(** The beginnings and the ends of the placeholder, the empty text and the
    whole placeholder left out. *)
Definition openings : list jsstring :=
  Eval cbv in [str "{"; str "{n"; str "{na"; str "{nam"; str "{name"].
Definition closings : list jsstring :=
  Eval cbv in [str "name}"; str "ame}"; str "me}"; str "e}"; str "}"].

(** A text that cannot bring the placeholder back when it is written in
    place of one: it does not contain the placeholder, it is not a piece of
    the word [name] (the empty text is such a piece), it does not end with a
    beginning of the placeholder and it does not begin with an end of it. *)
Definition text_safe (e : jsstring) : bool :=
  negb (contains placeholder e)
  && negb (contains e (str "name"))
  && forallb (fun o => negb (ends_with o e)) openings
  && forallb (fun q => negb (starts_with q e)) closings.

(** A recipient name that cannot bring the placeholder back: it does not
    refer to the text of the match and what it stands for is such a text. *)
Definition name_safe (name : jsstring) : bool :=
  negb (refers_to_match name) && text_safe (written name).

(** The prefixes of a text, from the empty one to the text itself. *)
Definition prefixes (q : jsstring) : list jsstring :=
  map (fun n => firstn n q) (seq 0 (S (length q))).

(** The pieces of a text: the prefixes of its suffixes. *)
Fixpoint pieces (s : jsstring) : list jsstring :=
  match s with
  | [] => [[]]
  | _ :: t => prefixes s ++ pieces t
  end.

(** The placeholder three times: a template whose second placeholder has a
    placeholder before it and one after it. *)
Definition thrice : jsstring := placeholder ++ placeholder ++ placeholder.

(** What a poll answers for a task it does not take to the provider. *)
Definition current_response (task : ImageTask) : Response :=
  mkResponse 200
    (mkBody (Some (status task)) (imageUrl task) None (error task)
       (Some (if jseq (status task) INITIALIZING
              then str "Initializing image generation..."
              else str "Processing..."))
       None None None).

(** The status a task takes from an OK answer of the provider. *)
Definition reported_status (statusData : StatusData) : jsstring :=
  if jseq (or_else (sd_status statusData) []) COMPLETED then
    match sd_generated statusData with
    | [] => FAILED
    | _ :: _ => COMPLETED
    end
  else if jseq (or_else (sd_status statusData) []) FAILED then FAILED
  else or_else (sd_status statusData) PROCESSING.

(** The initialization step of a poll did not come to a provider handle. *)
Definition initialization_fails (p : Providers) : bool :=
  match enhance p with
  | HttpOk _ =>
      match submit p with
      | HttpOk imageData => negb (truthy (sub_task_id imageData))
      | _ => true
      end
  | _ => true
  end.

Definition configured : Env := mkEnv true true.

(** A finished job with a provider handle. *)
Definition finishedTask : ImageTask :=
  mkImageTask (str "a poster") (Some (str "a detailed poster"))
    (Some (str "h1")) COMPLETED (Some (str "https://cdn.example/1.png")) None.

(** The provider answers that the job is in progress. *)
Definition inProgress : Providers :=
  mkProviders (FetchThrew NonError) (FetchThrew NonError)
    (HttpOk (mkStatusData (Some (str "IN_PROGRESS")) [] None None None)).

(** The cache after a job was submitted under the identifier [task_1]. *)
Definition submittedCache : TaskCache :=
  snd (startImage configured (Some (str "a poster")) (str "task_1") []).

(** The providers accept the job and report it, as the image provider does
    for a new job, in status [CREATED]. *)
Definition accepting : Providers :=
  mkProviders (HttpOk (Some (str "a detailed poster")))
    (HttpOk (mkSubmitData (str "{}") (Some (str "h1")) (Some (str "CREATED"))))
    (HttpOk (mkStatusData (Some (str "CREATED")) [] None None None)).

(** A store with one campaign and three contacts attached to it, two of
    them with a true validity flag. *)
Definition sampleCampaign : Campaign :=
  mkCampaign 0 (str "Hello {name}") (str "Dear {name}, classes start soon.")
    3 0 0 Pending.
Definition ann : Contact :=
  mkContact 1 (VText (str "Ann")) (VText (str "ann@example.org")) true
    (Some 0).
Definition bob : Contact :=
  mkContact 2 (VText (str "Bob")) (VText (str "bob@example.org")) true
    (Some 0).
Definition cy : Contact :=
  mkContact 3 (VText (str "Cy")) (VText (str "not-an-address")) false
    (Some 0).
Definition sampleWorld : World :=
  mkWorld [(1, ann); (2, bob); (3, cy)] [(0, sampleCampaign)] [] [] 4 [].

(** A provider that rejects the second request it is handed. *)
Definition sampleApi : Provider :=
  fun k _ =>
    if Nat.eqb k 1 then Rejected (ErrorObj (str "mailbox full")) else Delivered.

(** The flag stored for a message generated from a completion, and the
    probes of its report. *)
Definition generated (messageType completion : jsstring)
  : option (bool * list bool) :=
  match fst (postAiMessage true messageType [] (HttpOk (Some completion))
               empty_world) with
  | AiOk aiMessage compliance =>
      Some (am_isCompliant aiMessage, probes compliance)
  | AiError _ _ => None
  end.

End Props.

(* ================================================================== *)
(** ** POST /api/generate-image: the route that waits for the image *)

Module LegacyImage.
Import Store Routes Http ImageTracker.

(** What the image provider answers to a submission, as this route reads
    it. *)
Record Submission : Type := mkSubmission {
  data_task_id : option jsstring;   (* imageData.data?.task_id *)
  root_task_id : option jsstring    (* imageData.task_id *)
}.

(** The answers of the providers during one request: [statuses k] is the
    answer to the status request of attempt [k]. *)
Record Answers : Type := mkAnswers {
  enhancement : HttpResult (option jsstring);
  submission : HttpResult Submission;
  statuses : nat -> HttpResult StatusData
}.

Inductive LegacyResponse : Type :=
| ImageOk (originalPrompt enhancedPrompt imageUrl : jsstring)
| ImageError (code : N) (error : jsstring).

Definition maxAttempts : nat := 60.

(** The [while] loop: [attempts] polls were made, [remaining] may still be
    made.  It ends with the image address ([imageUrl], empty when the
    attempts ran out) or with a [throw], and tells how many status requests
    were sent. *)
Fixpoint pollLoop (statuses : nat -> HttpResult StatusData)
    (attempts remaining : nat) : Outcome jsstring * nat :=
  match remaining with
  | O => (Ret [], attempts)
  | S remaining' =>
      match statuses attempts with
      | FetchThrew e => (Throw e, S attempts)
      | HttpNotOk _ statusText _ _ _ =>
          (Throw (ErrorObj (str "Failed to check task status: " ++ statusText)),
           S attempts)
      | HttpOk statusData =>
          let st := or_else (sd_status statusData) [] in
          if jseq st COMPLETED then
            match sd_generated statusData with
            | url :: _ => (Ret url, S attempts)
            | [] =>
                (Throw (ErrorObj
                          (str "Task completed but no images were generated")),
                 S attempts)
            end
          else if jseq st FAILED then
            (Throw (ErrorObj (str "Image generation task failed")), S attempts)
          else pollLoop statuses (S attempts) remaining'
      end
  end.

(** The body of the route after the checks of the request: the response or
    a [throw], and the number of status requests. *)
Definition generate (a : Answers) (imageDescription : jsstring)
  : Outcome LegacyResponse * nat :=
  match enhancement a with
  | FetchThrew e => (Throw e, 0)
  | HttpNotOk _ statusText _ errorMessage _ =>
      (Throw (ErrorObj (str "Prompt enhancement error: "
                        ++ or_else errorMessage statusText)), 0)
  | HttpOk content =>
      let enhancedPrompt := or_else content imageDescription in
      match submission a with
      | FetchThrew e => (Throw e, 0)
      | HttpNotOk _ statusText _ errorMessage _ =>
          (Throw (ErrorObj (str "Image generation error: "
                            ++ or_else errorMessage statusText)), 0)
      | HttpOk imageData =>
          if truthy (data_task_id imageData) || truthy (root_task_id imageData)
          then
            match pollLoop (statuses a) 0 maxAttempts with
            | (Throw e, n) => (Throw e, n)
            | (Ret [], n) =>
                (Throw (ErrorObj
                          (str "Image generation timed out after 2 minutes")),
                 n)
            | (Ret (c :: url), n) =>
                (Ret (ImageOk imageDescription enhancedPrompt (c :: url)), n)
            end
          else
            (Throw (ErrorObj (str "No task ID returned from Freepik API")), 0)
      end
  end.

Definition postGenerateImage (env : Env) (imageDescription : option jsstring)
    (a : Answers) : LegacyResponse * nat :=
  if negb (OPENROUTER_API_KEY env) then
    (ImageError 503
       (str "AI service not configured. Please add OPENROUTER_API_KEY to environment variables."),
     0)
  else if negb (FREEPIK_API_KEY env) then
    (ImageError 503
       (str "Image service not configured. Please add FREEPIK_API_KEY to environment variables."),
     0)
  else
    match imageDescription with
    | Some (c :: d) =>
        if blank (c :: d) then
          (ImageError 400 (str "Image description is required"), 0)
        else
          match generate a (c :: d) with
          | (Ret response, n) => (response, n)
          | (Throw e, n) =>
              (ImageError 500 (error_message e "Failed to generate image"), n)
          end
    | _ => (ImageError 400 (str "Image description is required"), 0)
    end.

End LegacyImage.

(* ================================================================== *)
(** ** The client of the image routes ([pollImageStatus]) *)

Module Client.
Import Store Routes Http ImageTracker.

(** What a request to the status route comes to: no answer at all, or the
    response of the server. *)
Inductive Reply : Type :=
| NoReply (e : Thrown)
| Replied (r : Response).

(** [response.ok] *)
Definition ok (r : Response) : bool :=
  ((200 <=? code r) && (code r <=? 299))%N.

(** The message of [new Error(value || fallback)]. *)
Definition error_text (value : option ErrorInfo) (fallback : string) : jsstring :=
  match value with
  | Some (ErrText (c :: s)) => c :: s
  | Some (ErrObject _) => str "[object Object]"
  | _ => str fallback
  end.

(** [api.checkImageStatus] *)
Definition checkImageStatus (reply : Reply) : Outcome Body :=
  match reply with
  | NoReply e => Throw e
  | Replied r =>
      if ok r then Ret (body r)
      else Throw (ErrorObj (error_text (b_error (body r))
                              "Failed to check image status"))
  end.

(** What the loop waits for between two requests: the back-off of an
    attempt, or the delay a rate-limited answer asks for. *)
Inductive Wait : Type :=
| Backoff (attempts : nat)
| RetryAfter (seconds : jsstring).

(** How the polling ends: the image is shown, or an error is thrown. *)
Inductive PollEnd : Type :=
| Shown (imageUrl enhancedPrompt : jsstring)
| Failure (e : Thrown).

Definition maxAttempts : nat := 40.

Definition RATE_LIMITED : jsstring := Eval cbv in str "RATE_LIMITED".

(** The loop of [pollImageStatus]: [replies k] is what the request of
    attempt [k] comes to.  The result is how the polling ends, what was
    waited for, and the number of requests. *)
Fixpoint pollFrom (replies : nat -> Reply) (originalPrompt : jsstring)
    (attempts remaining : nat) : PollEnd * list Wait * nat :=
  match remaining with
  | O =>
      (Failure (ErrorObj (str "Image generation timed out. Please try again.")),
       [], attempts)
  | S remaining' =>
      match checkImageStatus (replies attempts) with
      | Throw e => (Failure e, [], S attempts)
      | Ret statusResult =>
          let st := or_else (b_status statusResult) [] in
          if jseq st COMPLETED && truthy (b_imageUrl statusResult) then
            (Shown (or_else (b_imageUrl statusResult) [])
               (or_else (b_enhancedPrompt statusResult) originalPrompt),
             [], S attempts)
          else if jseq st FAILED then
            (Failure (ErrorObj (error_text (b_error statusResult)
                                  "Image generation failed")),
             [], S attempts)
          else
            let wait :=
              if jseq st RATE_LIMITED
              then RetryAfter (or_else (b_retryAfter statusResult) (str "30"))
              else Backoff attempts in
            let '(result, waits, n) :=
              pollFrom replies originalPrompt (S attempts) remaining' in
            (result, wait :: waits, n)
      end
  end.

Definition pollImageStatus (replies : nat -> Reply) (originalPrompt : jsstring)
  : PollEnd * list Wait * nat :=
  pollFrom replies originalPrompt 0 maxAttempts.

End Client.

(* ================================================================== *)
(** ** The authorization middleware ([authMiddleware]) *)

Module Auth.
Import Store.

(** What the identity provider answers for a token: the user it found, if
    any, and whether it reports an error. *)
Record UserAnswer (User : Type) : Type := mkUserAnswer {
  user : option User;
  failed : bool
}.

Inductive AuthOutcome (User : Type) : Type :=
| Next (u : User)
| Unauthorized (message : jsstring).
Arguments Next {User} u.
Arguments Unauthorized {User} message.

Definition bearer : jsstring := Eval cbv in str "Bearer ".

(** [getUser token] is what [supabase.auth.getUser(token)] comes to: an
    answer or a [throw]. *)
Definition authMiddleware {User : Type}
    (getUser : jsstring -> Outcome (UserAnswer User))
    (authorization : option jsstring) : AuthOutcome User :=
  match authorization with
  | Some (c :: h) =>
      if starts_with bearer (c :: h) then
        let token := substring (c :: h) 7 (len (c :: h)) in
        match getUser token with
        | Ret answer =>
            match user answer with
            | Some u =>
                if failed answer then
                  Unauthorized (str "Invalid or expired token")
                else Next u
            | None => Unauthorized (str "Invalid or expired token")
            end
        | Throw _ => Unauthorized (str "Authentication failed")
        end
      else Unauthorized (str "No authorization token provided")
  | _ => Unauthorized (str "No authorization token provided")
  end.

End Auth.

(* ================================================================== *)
(** ** Notions used to state the further properties *)

Module Props2.
Import Store Routes Http Regex MessageGenerator ImageTracker Server Props.

(** The strings a regular expression stands for. *)
Inductive matches : regex -> jsstring -> Prop :=
| MEps : matches Eps []
| MCls p c : p c = true -> matches (Cls p) [c]
| MCat a b s t : matches a s -> matches b t -> matches (Cat a b) (s ++ t)
| MAltL a b s : matches a s -> matches (Alt a b) s
| MAltR a b s : matches b s -> matches (Alt a b) s
| MStarNil a : matches (Star a) []
| MStarApp a s t : matches a s -> matches (Star a) t -> matches (Star a) (s ++ t).

(** Some non-empty string of the regular expression may end with the
    character [x] (an upper bound: the classes are tested at [x] only). *)
Fixpoint may_end_with (x : code_unit) (r : regex) : bool :=
  match r with
  | Empty => false
  | Eps => false
  | Cls p => p x
  | Cat a b => may_end_with x b || (nullable b && may_end_with x a)
  | Alt a b => may_end_with x a || may_end_with x b
  | Star a => may_end_with x a
  end.

(** A character of a part of an address: neither white space nor [@]. *)
Definition part_char (c : code_unit) : bool :=
  negb (is_space c || N.eqb c 64%N).

(** A part of an address: not empty, made of such characters. *)
Definition part (s : jsstring) : Prop :=
  s <> [] /\ forallb part_char s = true.

(** The words of a text, counted from left to right: a word starts at each
    character that is not white space and does not follow one. *)
Fixpoint word_starts (in_word : bool) (s : jsstring) : nat :=
  match s with
  | [] => 0
  | c :: t =>
      if is_space c then word_starts false t
      else (if in_word then 0 else 1) + word_starts true t
  end.

(** The campaign of a contact, and the contact with another campaign. *)
Definition attach (cid : Id) (c : Contact) : Contact :=
  mkContact (c_id c) (c_name c) (c_email c) (c_isValid c) (Some cid).

(** The campaign that [postCampaign] stores when the next identifier is
    [n]. *)
Definition new_campaign (n : Id) (subject message : jsstring)
    (contactIds : list Id) : Campaign :=
  mkCampaign n subject message (length contactIds) 0 0 Pending.

(** Every status request of the polling loops is answered "in progress". *)
Definition pending_answer : HttpResult StatusData :=
  HttpOk (mkStatusData (Some (str "IN_PROGRESS")) [] None None None).

(** A provider answer is one of "still running". *)
Definition still_running (r : HttpResult StatusData) : bool :=
  match r with
  | HttpOk statusData =>
      negb (jseq (or_else (sd_status statusData) []) COMPLETED)
      && negb (jseq (or_else (sd_status statusData) []) FAILED)
  | _ => false
  end.

(** A reply of the status route that makes the client go on polling. *)
Definition keeps_polling (reply : Client.Reply) : bool :=
  match Client.checkImageStatus reply with
  | Ret statusResult =>
      negb (jseq (or_else (b_status statusResult) []) COMPLETED
            && truthy (b_imageUrl statusResult))
      && negb (jseq (or_else (b_status statusResult) []) FAILED)
  | Throw _ => false
  end.

(** The shape of an address that is flagged valid. *)
Definition address_shape (email : jsstring) : Prop :=
  exists loc dom tld,
    email = loc ++ 64%N :: dom ++ 46%N :: tld
    /\ part loc /\ part dom /\ part tld.





(** The contact is in the store under the identifier. *)
Definition present (w : World) (id : Id) : Prop :=
  map_get id (contacts w) <> None.

Definition listed (id : Id) (ids : list Id) : bool :=
  existsb (Nat.eqb id) ids.

(** [w'] is [w] with the contacts [ids] attached to the campaign [cid], and
    nothing else changed. *)
Definition attached_to (cid : Id) (ids : list Id) (w w' : World) : Prop :=
  campaigns w' = campaigns w
  /\ emailResults w' = emailResults w
  /\ aiMessages w' = aiMessages w
  /\ uuids w' = uuids w
  /\ outbox w' = outbox w
  /\ map_keys (contacts w') = map_keys (contacts w)
  /\ forall k,
       map_get k (contacts w')
       = if listed k ids then option_map (attach cid) (map_get k (contacts w))
         else map_get k (contacts w).

(** The results of a campaign, as the results route lists them. *)
Definition results_of (id : Id) (w : World) : list EmailResult :=
  filter (fun result => Nat.eqb (er_campaignId result) id)
    (map_values (emailResults w)).

(** Nothing was handed to the e-mail provider and no result is recorded. *)
Definition silent (w : World) : Prop :=
  outbox w = [] /\ emailResults w = [].

(** Sample answers of the providers of the image routes: a rate limit
    with a delay of five seconds, and a completed job with one asset. *)
Definition rateLimited : Providers :=
  mkProviders (FetchThrew NonError) (FetchThrew NonError)
    (HttpNotOk 429 (str "Too Many Requests") [] None (Some (str "5"))).

Definition completedAnswer : HttpResult StatusData :=
  HttpOk (mkStatusData (Some COMPLETED) [str "https://cdn.example/2.png"]
            None None None).

Definition delivering : Providers :=
  mkProviders (FetchThrew NonError) (FetchThrew NonError) completedAnswer.

(** A job as the start route stores it, and one that is being generated. *)
Definition submittedTask : ImageTask :=
  mkImageTask (str "a poster") None None CREATED None None.

Definition runningTask : ImageTask :=
  mkImageTask (str "a poster") (Some (str "a detailed poster"))
    (Some (str "h1")) PENDING None None.

(** The providers as the waiting route meets them: the job never leaves
    the state "in progress", or it is completed at the third status
    request. *)
Definition neverDone : LegacyImage.Answers :=
  LegacyImage.mkAnswers (HttpOk (Some (str "a detailed poster")))
    (HttpOk (LegacyImage.mkSubmission (Some (str "h1")) None))
    (fun _ => pending_answer).

Definition doneAtThird : LegacyImage.Answers :=
  LegacyImage.mkAnswers (HttpOk (Some (str "a detailed poster")))
    (HttpOk (LegacyImage.mkSubmission (Some (str "h1")) None))
    (fun k => if Nat.eqb k 2 then completedAnswer else pending_answer).

(** A campaign whose texts have no placeholder. *)
Definition plainCampaign : Campaign :=
  mkCampaign 0 (str "Hello") (str "Classes start soon.") 1 0 0 Pending.

(** An identity provider that knows one token. *)
Definition knownToken (token : jsstring) : Outcome (Auth.UserAnswer nat) :=
  if jseq token (str "t0k")
  then Ret (Auth.mkUserAnswer (Some 7) false)
  else Ret (Auth.mkUserAnswer None true).

End Props2.

(* ================================================================== *)
(** * Properties *)

Import Store Routes Http Regex MessageGenerator ImageTracker Server Props.

(** ** Strings *)

Lemma jseq_true (a b : jsstring) : jseq a b = true <-> a = b.
Proof. unfold jseq; destruct (list_eq_dec N.eq_dec a b); split; congruence. Qed.

Lemma jseq_refl (a : jsstring) : jseq a a = true.
Proof. now apply jseq_true. Qed.

Lemma jseq_false (a b : jsstring) : jseq a b = false <-> a <> b.
Proof. unfold jseq; destruct (list_eq_dec N.eq_dec a b); split; congruence. Qed.

Lemma starts_with_cons (a b : code_unit) (p s : jsstring) :
  starts_with (a :: p) (b :: s) = N.eqb a b && starts_with p s.
Proof. reflexivity. Qed.

Lemma starts_with_app (p s : jsstring) :
  starts_with p s = true <-> exists t, s = p ++ t.
Proof.
  revert s. induction p as [|a p IH]; intros s.
  - split; [intros _; now exists s|reflexivity].
  - destruct s as [|b s].
    + split; [discriminate|]. intros [t Ht]. discriminate Ht.
    + rewrite starts_with_cons, andb_true_iff, N.eqb_eq, IH. split.
      * intros [-> [t ->]]. now exists t.
      * intros [t Ht]. inversion Ht; subst. split; [reflexivity|now exists t].
Qed.

Lemma len_app (a b : jsstring) : len (a ++ b) = (len a + len b)%Z.
Proof. unfold len; rewrite length_app; lia. Qed.

Lemma len_nonneg (a : jsstring) : (0 <= len a)%Z.
Proof. unfold len; lia. Qed.

Lemma substring_prefix (s : jsstring) (j : Z) :
  substring s 0 j = firstn (Z.to_nat j) s.
Proof.
  unfold substring. pose proof (len_nonneg s) as Hs.
  replace (Z.min (Z.max 0 0) (len s)) with 0%Z by lia.
  destruct (Z.le_gt_cases j 0) as [Hj | Hj].
  - replace (Z.min (Z.max j 0) (len s)) with 0%Z by lia.
    replace (Z.to_nat j) with 0%nat by lia. reflexivity.
  - replace (Z.min 0 (Z.min (Z.max j 0) (len s))) with 0%Z by lia.
    replace (Z.max 0 (Z.min (Z.max j 0) (len s))) with (Z.min j (len s)) by lia.
    simpl skipn. rewrite Z.sub_0_r.
    destruct (Z.le_gt_cases j (len s)) as [Hl | Hl].
    + now replace (Z.min j (len s)) with j by lia.
    + replace (Z.min j (len s)) with (len s) by lia.
      unfold len in *. rewrite Nat2Z.id.
      rewrite firstn_all. symmetry. apply firstn_all2. lia.
Qed.

Lemma lastIndexOf_from_bounds (c : code_unit) (s : jsstring) (i acc : Z) :
  (-1 <= acc < i)%Z ->
  (-1 <= lastIndexOf_from c s i acc < i + len s)%Z.
Proof.
  revert i acc. induction s as [|x t IH]; intros i acc H; simpl.
  - unfold len; simpl; lia.
  - specialize (IH (i + 1)%Z (if N.eqb x c then i else acc)).
    unfold len in *. simpl length. rewrite Nat2Z.inj_succ.
    destruct (N.eqb x c); lia.
Qed.

Lemma lastIndexOf_bounds (c : code_unit) (s : jsstring) :
  (-1 <= lastIndexOf c s < len s)%Z \/ (s = [] /\ lastIndexOf c s = -1)%Z.
Proof.
  destruct s as [|x t]; [right; split; reflexivity|left].
  unfold lastIndexOf.
  pose proof (@lastIndexOf_from_bounds c (x :: t) 0 (-1)) as H.
  lia.
Qed.

Lemma nth_error_firstn_Some {A} (l : list A) (n j : nat) (x : A) :
  nth_error (firstn n l) j = Some x -> nth_error l j = Some x.
Proof.
  revert n j; induction l as [|a l IH]; intros n j H.
  - now rewrite firstn_nil in H.
  - destruct n; [destruct j; discriminate H|].
    destruct j; simpl in *; eauto.
Qed.

Lemma lastIndexOf_from_spec (c : code_unit) (s : jsstring) :
  forall i acc : Z,
    (acc < i)%Z ->
    (lastIndexOf_from c s i acc = acc
     /\ forallb (fun x => negb (N.eqb x c)) s = true)
    \/ ((i <= lastIndexOf_from c s i acc < i + len s)%Z
        /\ nth_error s (Z.to_nat (lastIndexOf_from c s i acc - i)) = Some c).
Proof.
  induction s as [|x t IH]; intros i acc Hacc; [left; split; reflexivity|].
  cbn [lastIndexOf_from forallb].
  unfold len. cbn [length]. rewrite Nat2Z.inj_succ. fold (len t).
  destruct (N.eqb_spec x c) as [->|Hxc]; cbn [negb andb].
  - right.
    destruct (IH (i + 1)%Z i ltac:(lia)) as [[Hr _] | [Hr Hn]].
    + rewrite Hr. split; [pose proof (len_nonneg t); lia|].
      now replace (i - i)%Z with 0%Z by lia.
    + split; [lia|].
      replace (Z.to_nat (lastIndexOf_from c t (i + 1) i - i))
        with (S (Z.to_nat (lastIndexOf_from c t (i + 1) i - (i + 1)))) by lia.
      exact Hn.
  - destruct (IH (i + 1)%Z acc ltac:(lia)) as [[Hr Hf] | [Hr Hn]].
    + left. now split.
    + right. split; [lia|].
      replace (Z.to_nat (lastIndexOf_from c t (i + 1) acc - i))
        with (S (Z.to_nat (lastIndexOf_from c t (i + 1) acc - (i + 1)))) by lia.
      exact Hn.
Qed.

(** ** The message generator *)

Section Truncation.

Variables messageType generatedMessage : jsstring.
Hypothesis overlong : (len generatedMessage > limitOf messageType)%Z.

Lemma limitOf_positive : (160 <= limitOf messageType)%Z.
Proof. unfold limitOf; destruct (jseq _ _); lia. Qed.

Lemma enforceLimit_overlong :
  enforceLimit messageType generatedMessage =
  firstn (Z.to_nat (cutIndex (limitOf messageType) generatedMessage))
    generatedMessage ++ ellipsis.
Proof.
  unfold enforceLimit, cutIndex.
  destruct (Z.gtb_spec (len generatedMessage) (limitOf messageType)) as [_|Hn];
    [|lia].
  f_equal. rewrite !substring_prefix.
  rewrite firstn_firstn. f_equal.
  set (t := firstn _ generatedMessage).
  pose proof limitOf_positive as Hl.
  assert (Ht : (len t <= limitOf messageType)%Z).
  { unfold t, len. rewrite length_firstn. lia. }
  destruct (lastIndexOf_bounds space t) as [H | [_ H]]; [lia|].
  rewrite H. lia.
Qed.

(** What the truncation does guarantee: the text ends with the marker and
    is at most two characters longer than the cap. *)
Lemma enforceLimit_ends_with_ellipsis :
  ends_with ellipsis (enforceLimit messageType generatedMessage) = true.
Proof.
  rewrite enforceLimit_overlong. unfold ends_with.
  rewrite rev_app_distr. reflexivity.
Qed.

Lemma enforceLimit_length :
  (len (enforceLimit messageType generatedMessage)
   <= limitOf messageType + 2)%Z.
Proof.
  rewrite enforceLimit_overlong, len_app.
  pose proof limitOf_positive as Hl.
  unfold cutIndex. rewrite substring_prefix.
  set (t := firstn (Z.to_nat (limitOf messageType)) generatedMessage).
  assert (Ht : len t = limitOf messageType).
  { unfold t, len. rewrite length_firstn. unfold len in overlong. lia. }
  assert (He : len ellipsis = 3%Z) by reflexivity.
  assert (Hc : (len (firstn (Z.to_nat (Z.min (len t) (lastIndexOf space t)))
                       generatedMessage)
                <= Z.max 0 (Z.min (len t) (lastIndexOf space t)))%Z).
  { unfold len at 1. rewrite length_firstn. lia. }
  destruct (lastIndexOf_bounds space t) as [H | [_ H]]; lia.
Qed.

(** The cut is at the last space among the first characters up to the
    cap; without such a space nothing of the text is kept. *)
Lemma cut_is_at_a_space :
  let k := cutIndex (limitOf messageType) generatedMessage in
  (k = (-1)%Z
   /\ forallb (fun x => negb (N.eqb x space))
        (firstn (Z.to_nat (limitOf messageType)) generatedMessage) = true
   /\ enforceLimit messageType generatedMessage = ellipsis)
  \/ ((0 <= k < limitOf messageType)%Z
      /\ nth_error generatedMessage (Z.to_nat k) = Some space
      /\ enforceLimit messageType generatedMessage
         = firstn (Z.to_nat k) generatedMessage ++ ellipsis).
Proof.
  intros k. pose proof enforceLimit_overlong as He. fold k in He.
  pose proof limitOf_positive as Hl.
  unfold k, cutIndex in *. rewrite substring_prefix in *.
  set (t := firstn (Z.to_nat (limitOf messageType)) generatedMessage) in *.
  assert (Ht : len t = limitOf messageType).
  { unfold t, len. rewrite length_firstn. unfold len in overlong. lia. }
  unfold lastIndexOf in *.
  destruct (@lastIndexOf_from_spec space t 0 (-1) ltac:(lia))
    as [[Hr Hf] | [Hr Hn]].
  - left. rewrite Hr in *.
    replace (Z.min (len t) (-1)) with (-1)%Z in * by lia.
    repeat split; auto.
  - right. rewrite Z.sub_0_r in Hn.
    replace (Z.min (len t) (lastIndexOf_from space t 0 (-1)))
      with (lastIndexOf_from space t 0 (-1)) in * by lia.
    repeat split; try lia; auto.
    eapply nth_error_firstn_Some. exact Hn.
Qed.
End Truncation.

(** C2 (the code departs from the claim): an SMS completion of 170
    characters whose last space among the first 160 is the 160th character
    is stored with 162 characters, two more than the cap of 160, and is
    itself reported as not within the limit. *)
Theorem sms_truncation_exceeds_cap :
  exists aiMessage compliance w,
    postAiMessage true (str "sms") (str "offer") (HttpOk (Some overlongSms))
      empty_world = (AiOk aiMessage compliance, w)
    /\ len overlongSms = 170%Z
    /\ am_generatedMessage aiMessage = repeat 97%N 159 ++ ellipsis
    /\ am_characterCount aiMessage = 162%Z
    /\ withinLimit compliance = false.
Proof.
  eexists _, _, _. split; [vm_compute; reflexivity|].
  repeat split.
Qed.

(** The flag of a report is the conjunction of its five probes; when two
    reports differ in exactly one probe, their flags differ exactly when the
    four probes on which they agree are all true. *)
Lemma complianceOf_conjunction (mt m mt' m' : jsstring) :
  isCompliant (complianceOf mt m)
  = (hasOptOut (complianceOf mt m) && hasBusinessName (complianceOf mt m)
     && hasCTA (complianceOf mt m) && withinLimit (complianceOf mt m)
     && hasLocation (complianceOf mt m))
  /\ (differing (probes (complianceOf mt m)) (probes (complianceOf mt' m')) = 1 ->
      (isCompliant (complianceOf mt m) = negb (isCompliant (complianceOf mt' m'))
       <-> agreeing_hold (probes (complianceOf mt m))
             (probes (complianceOf mt' m')) = true)).
Proof.
  unfold complianceOf, probes; cbn [hasOptOut hasBusinessName hasCTA withinLimit
    hasLocation isCompliant].
  split; [reflexivity|].
  generalize (test optOutRegex m) (test businessNameRegex m) (test ctaRegex m)
    (test locationRegex m) (test optOutRegex m') (test businessNameRegex m')
    (test ctaRegex m') (test locationRegex m').
  generalize (if jseq mt (str "sms") then (len m <=? 160)%Z else (len m <=? 250)%Z)
    (if jseq mt' (str "sms") then (len m' <=? 160)%Z else (len m' <=? 250)%Z).
  intros a4 b4 a1 a2 a3 a5 b1 b2 b3 b5.
  destruct a1, a2, a3, a4, a5, b1, b2, b3, b4, b5; cbn;
    intros H; try discriminate H; split; intros G; try reflexivity;
    discriminate G.
Qed.

(** ** The store *)

Section MapLemmas.

Context {V : Type}.
Implicit Types (m : JsMap V) (k : Id) (v : V).

Lemma map_get_set_same m k v : map_get k (map_set k v m) = Some v.
Proof.
  induction m as [|[k' v'] m IH]; simpl.
  - now rewrite Nat.eqb_refl.
  - destruct (Nat.eqb k k') eqn:E; simpl.
    + now rewrite Nat.eqb_refl.
    + now rewrite E.
Qed.

Lemma map_get_set_other m k k' v :
  k <> k' -> map_get k (map_set k' v m) = map_get k m.
Proof.
  intros Hk. induction m as [|[k0 v0] m IH]; simpl.
  - apply Nat.eqb_neq in Hk. now rewrite Hk.
  - destruct (Nat.eqb k' k0) eqn:E; simpl.
    + apply Nat.eqb_eq in E. subst k0.
      apply Nat.eqb_neq in Hk. now rewrite Hk.
    + now rewrite IH.
Qed.

Lemma map_get_below m k v n :
  keys_below n m -> map_get k m = Some v -> k < n.
Proof.
  unfold keys_below, map_keys.
  induction m as [|[k0 v0] m IH]; simpl; intros Hb Hg; [discriminate|].
  inversion Hb; subst.
  destruct (Nat.eqb k k0) eqn:E.
  - apply Nat.eqb_eq in E. now subst.
  - auto.
Qed.

Lemma map_set_fresh m n v :
  keys_below n m -> map_set n v m = m ++ [(n, v)].
Proof.
  unfold keys_below, map_keys.
  induction m as [|[k0 v0] m IH]; simpl; intros Hb; [reflexivity|].
  inversion Hb; subst.
  assert (E : Nat.eqb n k0 = false) by (apply Nat.eqb_neq; simpl in *; lia).
  rewrite E. now rewrite IH.
Qed.

Lemma keys_below_mono m n n' :
  n <= n' -> keys_below n m -> keys_below n' m.
Proof.
  unfold keys_below. intros Hn Hb.
  eapply Forall_impl; [|exact Hb]. simpl. intros; lia.
Qed.

Lemma keys_below_set m n k v :
  k < n -> keys_below n m -> keys_below n (map_set k v m).
Proof.
  unfold keys_below, map_keys. intros Hk.
  induction m as [|[k0 v0] m IH]; simpl; intros Hb.
  - repeat constructor. exact Hk.
  - inversion Hb; subst.
    destruct (Nat.eqb k k0); simpl; constructor; auto.
Qed.

Lemma map_values_set_Forall (P : V -> Prop) m k v :
  P v -> Forall P (map_values m) -> Forall P (map_values (map_set k v m)).
Proof.
  unfold map_values. intros Hv.
  induction m as [|[k0 v0] m IH]; simpl; intros Hm.
  - repeat constructor. exact Hv.
  - inversion Hm; subst.
    destruct (Nat.eqb k k0); simpl; constructor; auto.
Qed.

Lemma map_get_In m k v : map_get k m = Some v -> In v (map_values m).
Proof.
  unfold map_values.
  induction m as [|[k0 v0] m IH]; simpl; [discriminate|].
  destruct (Nat.eqb k k0); intros H.
  - inversion H; subst. now left.
  - right. auto.
Qed.

End MapLemmas.

Section Preservation.

Variable P : World -> Prop.

Lemma preserves_ret {A} (a : A) : preserves P (ret a).
Proof. intros w H. exact H. Qed.

Lemma preserves_throw {A} (e : Thrown) : preserves P (@throw A e).
Proof. intros w H. exact H. Qed.

Lemma preserves_bind {A B} (m : M A) (k : A -> M B) :
  preserves P m -> (forall a, preserves P (k a)) -> preserves P (bind m k).
Proof.
  intros Hm Hk w H. unfold bind.
  specialize (Hm w H). destruct (m w) as [[a | e] w']; simpl in *.
  - now apply Hk.
  - exact Hm.
Qed.

Lemma preserves_try {A} (m : M A) (h : Thrown -> M A) :
  preserves P m -> (forall e, preserves P (h e)) -> preserves P (try_ m h).
Proof.
  intros Hm Hh w H. unfold try_.
  specialize (Hm w H). destruct (m w) as [[a | e] w']; simpl in *.
  - exact Hm.
  - now apply Hh.
Qed.

Lemma preserves_try_catch {A} (m : M A) (h : Thrown -> A) (w : World) :
  preserves P m -> P w -> P (snd (try_catch m h w)).
Proof.
  intros Hm H. unfold try_catch.
  specialize (Hm w H). destruct (m w) as [[a | e] w']; exact Hm.
Qed.

Lemma preserves_get {A} (f : World -> A) :
  preserves P (fun w => (Ret (f w), w)).
Proof. intros w H. exact H. Qed.

End Preservation.

(** ** What the message generator stores *)

(** The record that is returned is the record that is stored; its count is
    the length of its text, its flag is the flag of the report, and its text
    is the completion after the limit was enforced. *)
Lemma stored_message (key : bool) (messageType idea : jsstring)
    (response : HttpResult (option jsstring)) (w w' : World)
    (aiMessage : AiMessage) (compliance : Compliance) :
  postAiMessage key messageType idea response w = (AiOk aiMessage compliance, w') ->
  map_get (am_id aiMessage) (aiMessages w') = Some aiMessage
  /\ am_characterCount aiMessage = len (am_generatedMessage aiMessage)
  /\ am_isCompliant aiMessage = isCompliant compliance
  /\ compliance = complianceOf messageType (am_generatedMessage aiMessage)
  /\ exists content,
       response = HttpOk content
       /\ am_generatedMessage aiMessage
          = enforceLimit messageType (or_else content []).
Proof.
  unfold postAiMessage, try_catch.
  destruct key; simpl; [|discriminate].
  destruct response as [e | st stText b em ra | content]; simpl;
    try discriminate.
  unfold bind, createAiMessage, bind, randomUUID, modify, ret; simpl.
  intros H. inversion H; subst; clear H. simpl.
  split; [apply map_get_set_same|].
  repeat split. now exists content.
Qed.

(** C8, as stated, fails: the reports of these two SMS messages differ in
    the business-name probe alone, and the flag stored for either message
    is false. *)
Lemma flipping_one_probe_may_keep_the_flag :
  generated (str "sms") (str "hello")
  = Some (false, [false; false; false; true; false])
  /\ generated (str "sms") (str "hello EliteIIT")
     = Some (false, [false; true; false; true; false]).
Proof. vm_compute. split; reflexivity. Qed.

(** C8 (amended): the compliance flag stored with a generated message is
    the conjunction of the five probes of its report; when the reports of
    two generated messages differ in exactly one probe, the stored flags
    differ exactly when the four probes on which the reports agree are all
    true. *)
Theorem compliance_flag_is_conjunction
    (key key' : bool) (mt idea mt' idea' : jsstring)
    (response response' : HttpResult (option jsstring))
    (w w1 w' w1' : World) (aiMessage aiMessage' : AiMessage)
    (compliance compliance' : Compliance) :
  postAiMessage key mt idea response w = (AiOk aiMessage compliance, w1) ->
  postAiMessage key' mt' idea' response' w' = (AiOk aiMessage' compliance', w1') ->
  map_get (am_id aiMessage) (aiMessages w1) = Some aiMessage
  /\ am_isCompliant aiMessage
     = (hasOptOut compliance && hasBusinessName compliance && hasCTA compliance
        && withinLimit compliance && hasLocation compliance)
  /\ (differing (probes compliance) (probes compliance') = 1 ->
      (am_isCompliant aiMessage = negb (am_isCompliant aiMessage')
       <-> agreeing_hold (probes compliance) (probes compliance') = true)).
Proof.
  intros H H'.
  destruct (stored_message _ _ _ _ _ H) as (Hs & _ & Hf & Hc & _).
  destruct (stored_message _ _ _ _ _ H') as (_ & _ & Hf' & Hc' & _).
  split; [exact Hs|]. rewrite Hf, Hf', Hc, Hc'.
  apply complianceOf_conjunction.
Qed.

Lemma compliance_flag_is_conjunction_witness :
  generated (str "sms") (str "EliteIIT Bangalore: call now. STOP to opt out")
  = Some (true, [true; true; true; true; true])
  /\ generated (str "sms") (str "Bangalore: call now. STOP to opt out")
     = Some (false, [true; false; true; true; true]).
Proof.
  unfold generated.
  destruct (postAiMessage true (str "sms") []
              (HttpOk (Some (str "EliteIIT Bangalore: call now. STOP to opt out")))
              empty_world) as [[m c|code e] w1] eqn:E;
    [|exfalso; vm_compute in E; discriminate E].
  destruct (postAiMessage true (str "sms") []
              (HttpOk (Some (str "Bangalore: call now. STOP to opt out")))
              empty_world) as [[m' c'|code' e'] w1'] eqn:E';
    [|exfalso; vm_compute in E'; discriminate E'].
  destruct (@compliance_flag_is_conjunction _ _ _ _ _ _ _ _ _ _ _ _ _ _ _ _ E E')
    as (_ & _ & Hflip).
  assert (Hc : probes c = [true; true; true; true; true]).
  { pose proof E as G. vm_compute in G. inversion G; subst. reflexivity. }
  assert (Hc' : probes c' = [true; false; true; true; true]).
  { pose proof E' as G. vm_compute in G. inversion G; subst. reflexivity. }
  assert (Hm' : am_isCompliant m' = false).
  { pose proof E' as G. vm_compute in G. inversion G; subst. reflexivity. }
  cbn [fst]. rewrite Hc, Hc' in *.
  assert (Hm : am_isCompliant m = negb (am_isCompliant m')).
  { apply Hflip; reflexivity. }
  rewrite Hm, Hm'. split; reflexivity.
Defined.

Lemma bind_run_ret {A B} (m : M A) (k : A -> M B) (w w' : World) (a : A) :
  m w = (Ret a, w') -> bind m k w = k a w'.
Proof. intros H. unfold bind. now rewrite H. Qed.

Lemma bind_run_throw {A B} (m : M A) (k : A -> M B) (w w' : World) (e : Thrown) :
  m w = (Throw e, w') -> bind m k w = (Throw e, w').
Proof. intros H. unfold bind. now rewrite H. Qed.

(** *** Creating contacts *)

Lemma createContact_run (ic : InsertContact) (w : World) :
  createContact ic w =
  (Ret (mkContact (uuids w) (ic_name ic) (ic_email ic)
          (default (ic_isValid ic) false) (ic_campaignId ic)),
   mkWorld
     (map_set (uuids w)
        (mkContact (uuids w) (ic_name ic) (ic_email ic)
           (default (ic_isValid ic) false) (ic_campaignId ic))
        (contacts w))
     (campaigns w) (emailResults w) (aiMessages w) (S (uuids w)) (outbox w)).
Proof. reflexivity. Qed.

Lemma createManyContacts_result (ics : list InsertContact) (w : World) :
  fst (createManyContacts ics w) = Ret (fresh_contacts (uuids w) ics).
Proof.
  revert w. induction ics as [|ic rest IH]; intros w; [reflexivity|].
  cbn [createManyContacts fresh_contacts].
  erewrite bind_run_ret by apply createContact_run.
  unfold bind at 1.
  match goal with |- context [createManyContacts rest ?w1] =>
    specialize (IH w1); destruct (createManyContacts rest w1) as [[cs|e] w2]
  end; simpl in IH; [|discriminate].
  inversion IH; subst. reflexivity.
Qed.

Lemma createManyContacts_run (ics : list InsertContact) (w : World) :
  keys_below (uuids w) (contacts w) ->
  createManyContacts ics w =
  (Ret (fresh_contacts (uuids w) ics),
   mkWorld (contacts w ++ entries c_id (fresh_contacts (uuids w) ics))
     (campaigns w) (emailResults w) (aiMessages w)
     (uuids w + length ics) (outbox w)).
Proof.
  revert w. induction ics as [|ic rest IH]; intros w Hw.
  - destruct w; simpl. unfold ret, entries; simpl.
    now rewrite app_nil_r, Nat.add_0_r.
  - cbn [createManyContacts fresh_contacts].
    erewrite bind_run_ret by apply createContact_run.
    rewrite map_set_fresh by exact Hw.
    erewrite bind_run_ret.
    2:{ apply IH. cbn [contacts uuids].
        unfold keys_below, map_keys in *. rewrite map_app, Forall_app. split.
        - eapply Forall_impl; [|exact Hw]. simpl; intros; lia.
        - repeat constructor. }
    cbn [contacts campaigns emailResults aiMessages uuids outbox].
    unfold ret. f_equal. f_equal.
    + unfold entries. cbn [map c_id]. now rewrite <- app_assoc.
    + simpl. lia.
Qed.

Lemma fresh_contacts_length (n : nat) (ics : list InsertContact) :
  length (fresh_contacts n ics) = length ics.
Proof. revert n; induction ics; intros n; simpl; auto. Qed.


Lemma fresh_contacts_names (n : nat) (ics : list InsertContact) :
  map c_name (fresh_contacts n ics) = map ic_name ics
  /\ map c_email (fresh_contacts n ics) = map ic_email ics.
Proof.
  revert n; induction ics as [|ic r IH]; intros n; simpl; [easy|].
  destruct (IH (S n)) as [-> ->]. easy.
Qed.

Lemma fresh_contacts_invalid (n : nat) (rows : list Row) :
  Forall (fun c => c_isValid c = false)
    (fresh_contacts n (contactsToInsert rows)).
Proof.
  revert n; induction rows as [|row r IH]; intros n; simpl; constructor; auto.
Qed.

(** ** The contact importer *)

Lemma contactsToInsert_length (rows : list Row) :
  length (contactsToInsert rows) = length rows.
Proof. unfold contactsToInsert. apply length_map. Qed.

Lemma uploadContacts_empty (w : World) :
  uploadContacts (Sheet []) w = (FormatError, w).
Proof. reflexivity. Qed.

Lemma uploadContacts_missing (firstRow : Row) (rest : list Row) (w : World) :
  hasName firstRow = false \/ hasEmail firstRow = false ->
  uploadContacts (Sheet (firstRow :: rest)) w = (SchemaError, w).
Proof.
  unfold hasName, hasEmail, uploadContacts, try_catch. intros H.
  assert (E : negb (has_key "Name" firstRow || has_key "name" firstRow)
              || negb (has_key "Email" firstRow || has_key "email" firstRow)
              = true).
  { destruct H as [-> | ->]; simpl; [reflexivity | apply orb_true_r]. }
  cbv zeta. now rewrite E.
Qed.

Lemma uploadContacts_accepted (firstRow : Row) (rest : list Row) (w : World) :
  hasName firstRow = true -> hasEmail firstRow = true ->
  keys_below (uuids w) (contacts w) ->
  let created :=
    fresh_contacts (uuids w) (contactsToInsert (firstRow :: rest)) in
  let valid := length (filter c_isValid (map validated created)) in
  uploadContacts (Sheet (firstRow :: rest)) w =
  (UploadOk (firstn 10 (map validated created)) (length (firstRow :: rest))
     valid (length (firstRow :: rest) - valid) (map c_id created),
   mkWorld (contacts w ++ entries c_id created) (campaigns w)
     (emailResults w) (aiMessages w) (uuids w + length (firstRow :: rest))
     (outbox w)).
Proof.
  intros Hn He Hw created valid. unfold hasName, hasEmail in Hn, He.
  unfold uploadContacts, try_catch. cbv zeta.
  rewrite Hn, He. cbn [negb orb].
  erewrite bind_run_ret by (apply createManyContacts_run; exact Hw).
  unfold validateContacts, bind, ret. fold validated. fold created.
  assert (Hl : length (map validated created) = length (firstRow :: rest)).
  { unfold created.
    now rewrite length_map, fresh_contacts_length, contactsToInsert_length. }
  assert (Hi : map c_id (map validated created) = map c_id created).
  { rewrite map_map. reflexivity. }
  rewrite Hl, Hi, contactsToInsert_length. reflexivity.
Qed.

(** C3, as stated, fails: a sheet with a name column and no e-mail column
    is refused with the schema error although a name column is present, and
    so is a sheet whose headers are NAME and EMAIL. *)
Lemma schema_error_despite_a_present_column :
  fst (uploadContacts (Sheet [[(str "Name", VText (str "Ann"))]]) empty_world)
  = SchemaError
  /\ spec_SchemaError [[(str "Name", VText (str "Ann"))]] = false
  /\ fst (uploadContacts
            (Sheet [[(str "NAME", VText (str "Ann"));
                     (str "EMAIL", VText (str "ann@x.org"))]])
            empty_world)
     = SchemaError
  /\ spec_SchemaError [[(str "NAME", VText (str "Ann"));
                        (str "EMAIL", VText (str "ann@x.org"))]]
     = false.
Proof. vm_compute. repeat split. Qed.

(** C3 (amended): the import fails with the format error exactly when there
    is no data row; it fails with the schema error exactly when there is a
    first row and that row lacks a key spelled [Name] or [name], or lacks a
    key spelled [Email] or [email]; both failures leave the store as it
    was.  In every other case the import succeeds and creates one contact
    per row, in the order of the rows. *)
Theorem import_outcome (rows : list Row) (w : World) :
  store_wf w ->
  (fst (uploadContacts (Sheet rows) w) = FormatError <-> rows = [])
  /\ (fst (uploadContacts (Sheet rows) w) = SchemaError <->
      exists firstRow rest,
        rows = firstRow :: rest
        /\ (hasName firstRow = false \/ hasEmail firstRow = false))
  /\ (fst (uploadContacts (Sheet rows) w) = FormatError
      \/ fst (uploadContacts (Sheet rows) w) = SchemaError ->
      snd (uploadContacts (Sheet rows) w) = w)
  /\ (forall firstRow rest,
        rows = firstRow :: rest ->
        hasName firstRow = true -> hasEmail firstRow = true ->
        exists created valid invalid w',
          uploadContacts (Sheet rows) w
          = (UploadOk (firstn 10 (map validated created)) (length rows)
               valid invalid (map c_id created), w')
          /\ length created = length rows
          /\ valid + invalid = length rows
          /\ map c_name created = map ic_name (contactsToInsert rows)
          /\ map c_email created = map ic_email (contactsToInsert rows)
          /\ contacts w' = contacts w ++ entries c_id created).
Proof.
  intros [Hc _].
  destruct rows as [|firstRow rest].
  - rewrite uploadContacts_empty. cbn [fst snd].
    split; [split; reflexivity|].
    split; [split|].
    + intros H. vm_compute in H. discriminate H.
    + intros (f & r & H & _). discriminate H.
    + split; [reflexivity|]. intros f r H. discriminate H.
  - destruct (hasName firstRow) eqn:Hn; [destruct (hasEmail firstRow) eqn:He|].
    + pose proof (@uploadContacts_accepted firstRow rest w Hn He Hc) as Hrun.
      cbv zeta in Hrun. rewrite Hrun. cbn [fst snd].
      split; [split; intros H; discriminate H|].
      split; [split|].
      * intros H. discriminate H.
      * intros (f & r & H & [G | G]); inversion H; subst; congruence.
      * split; [intros [H | H]; discriminate H|].
        intros f r H _ _. inversion H; subst f r; clear H.
        eexists _, _, _, _. split; [reflexivity|].
        rewrite fresh_contacts_length, contactsToInsert_length.
        destruct (fresh_contacts_names (uuids w)
                    (contactsToInsert (firstRow :: rest))) as [Hnames Hemails].
        repeat split; auto.
        set (n := length (filter _ _)).
        assert (Hle : n <= length (firstRow :: rest)).
        { unfold n. etransitivity; [apply filter_length_le|].
          now rewrite length_map, fresh_contacts_length,
            contactsToInsert_length. }
        lia.
    + rewrite uploadContacts_missing by now right. cbn [fst snd].
      split; [split; intros H; [vm_compute in H|]; discriminate H|].
      split; [split; auto|].
      * intros _. exists firstRow, rest. auto.
      * split; auto.
        intros f r H G1 G2. inversion H; subst. congruence.
    + rewrite uploadContacts_missing by now left. cbn [fst snd].
      split; [split; intros H; [vm_compute in H|]; discriminate H|].
      split; [split; auto|].
      * intros _. exists firstRow, rest. auto.
      * split; auto.
        intros f r H G1 G2. inversion H; subst. congruence.
Qed.

(** ** The campaign dispatcher *)

Lemma sendOne_run (api : Provider) (campaign : Campaign) (id : Id)
    (c : Contact) (counts : nat * nat) (w : World) :
  keys_below (uuids w) (emailResults w) ->
  let o := api (length (outbox w)) (emailRequest campaign c) in
  sendOne api campaign id c counts w =
  (Ret (bump o counts),
   mkWorld (contacts w) (campaigns w)
     (emailResults w
      ++ [(uuids w,
           mkEmailResult (uuids w) id (c_id c) (c_email c) (status_of o)
             (error_of o))])
     (aiMessages w) (S (uuids w))
     (outbox w ++ [emailRequest campaign c])).
Proof.
  intros Hw o. unfold sendOne, try_, sendTransacEmail, bind at 1.
  fold o. destruct o as [|e] eqn:Eo; cbn [status_of error_of bump].
  - unfold bind, createEmailResult, bind, randomUUID, modify, ret. simpl.
    now rewrite map_set_fresh by exact Hw.
  - unfold bind, createEmailResult, bind, randomUUID, modify, ret. simpl.
    now rewrite map_set_fresh by exact Hw.
Qed.

Lemma count_sent_cons (r : EmailResult) (rs : list EmailResult) :
  count_sent (r :: rs) = (if is_sent r then 1 else 0) + count_sent rs.
Proof. unfold count_sent; simpl; destruct (is_sent r); reflexivity. Qed.

Lemma count_failed_cons (r : EmailResult) (rs : list EmailResult) :
  count_failed (r :: rs) = (if is_failed r then 1 else 0) + count_failed rs.
Proof. unfold count_failed; simpl; destruct (is_failed r); reflexivity. Qed.

Lemma sendLoop_run (api : Provider) (campaign : Campaign) (id : Id)
    (cs : list Contact) :
  forall (counts : nat * nat) (w : World),
    keys_below (uuids w) (emailResults w) ->
    let results :=
      dispatch_results api campaign id (length (outbox w)) (uuids w) cs in
    sendLoop api campaign id cs counts w =
    (Ret (fst counts + count_sent results, snd counts + count_failed results),
     mkWorld (contacts w) (campaigns w)
       (emailResults w ++ entries er_id results)
       (aiMessages w) (uuids w + length cs)
       (outbox w ++ map (emailRequest campaign) cs)).
Proof.
  induction cs as [|c rest IH]; intros counts w Hw; cbv zeta.
  - destruct w, counts; simpl. unfold ret, entries; simpl.
    now rewrite !app_nil_r, !Nat.add_0_r.
  - cbn [sendLoop dispatch_results].
    erewrite bind_run_ret by (apply sendOne_run; exact Hw).
    rewrite IH.
    2:{ cbn [uuids emailResults].
        unfold keys_below, map_keys in *. rewrite map_app, Forall_app. split.
        - eapply Forall_impl; [|exact Hw]. simpl; intros; lia.
        - repeat constructor. }
    cbn [contacts campaigns emailResults aiMessages uuids outbox].
    rewrite length_app. cbn [length]. rewrite Nat.add_1_r.
    rewrite count_sent_cons, count_failed_cons.
    unfold is_sent, is_failed. cbn [er_status].
    f_equal.
    + f_equal.
      destruct (api (length (outbox w)) (emailRequest campaign c));
        destruct counts; simpl; f_equal; lia.
    + f_equal.
      * unfold entries. cbn [map er_id]. now rewrite <- app_assoc.
      * simpl. lia.
      * cbn [map]. now rewrite <- app_assoc.
Qed.

Lemma dispatch_results_length api campaign id k n cs :
  length (dispatch_results api campaign id k n cs) = length cs.
Proof. revert k n; induction cs; intros; simpl; auto. Qed.

Lemma dispatch_results_contacts api campaign id k n cs :
  map er_contactId (dispatch_results api campaign id k n cs) = map c_id cs
  /\ map er_email (dispatch_results api campaign id k n cs) = map c_email cs
  /\ Forall (fun r => er_campaignId r = id)
       (dispatch_results api campaign id k n cs).
Proof.
  revert k n; induction cs as [|c r IH]; intros k n; simpl.
  - repeat split; constructor.
  - destruct (IH (S k) (S n)) as (-> & -> & H). repeat split.
    constructor; auto.
Qed.

Lemma dispatch_results_tally api campaign id k n cs :
  count_sent (dispatch_results api campaign id k n cs)
  + count_failed (dispatch_results api campaign id k n cs) = length cs.
Proof.
  revert k n; induction cs as [|c r IH]; intros k n; [reflexivity|].
  cbn [dispatch_results length].
  rewrite count_sent_cons, count_failed_cons. specialize (IH (S k) (S n)).
  unfold is_sent, is_failed; cbn [er_status].
  destruct (status_of _); simpl; lia.
Qed.

Lemma dispatch_results_nth api campaign id k n cs i c :
  nth_error cs i = Some c ->
  nth_error (dispatch_results api campaign id k n cs) i =
  Some (mkEmailResult (n + i) id (c_id c) (c_email c)
          (status_of (api (k + i) (emailRequest campaign c)))
          (error_of (api (k + i) (emailRequest campaign c)))).
Proof.
  revert k n i; induction cs as [|c0 r IH]; intros k n i H.
  - destruct i; discriminate H.
  - destruct i as [|i]; simpl in *.
    + inversion H; subst. now rewrite !Nat.add_0_r.
    + rewrite (IH (S k) (S n) i H).
      now replace (S n + i) with (n + S i) by lia;
        replace (S k + i) with (k + S i) by lia.
Qed.

(** The whole route, when the campaign exists and the provider is set. *)
Lemma postCampaignSend_run (api : Provider) (id : Id) (w : World)
    (campaign : Campaign) :
  keys_below (uuids w) (emailResults w) ->
  map_get id (campaigns w) = Some campaign ->
  let valid := validContactsOf id w in
  let results :=
    dispatch_results api campaign id (length (outbox w)) (uuids w) valid in
  postCampaignSend (Some api) id w =
  (SendOk (count_sent results) (count_failed results) (length valid),
   mkWorld (contacts w)
     (map_set id
        (mkCampaign (cp_id campaign) (cp_subject campaign)
           (cp_message campaign) (cp_totalContacts campaign)
           (count_sent results) (count_failed results) Completed)
        (map_set id
           (apply_campaign_updates campaign
              (mkCampaignUpdates (Some Sending) None None))
           (campaigns w)))
     (emailResults w ++ entries er_id results)
     (aiMessages w) (uuids w + length valid)
     (outbox w ++ map (emailRequest campaign) valid)).
Proof.
  intros Hw Hc valid results.
  unfold postCampaignSend, try_catch, bind at 1, getCampaign.
  rewrite Hc.
  unfold updateCampaign at 1, bind at 1, bind at 1, get_world.
  rewrite Hc. unfold bind at 1, modify, ret at 1.
  unfold bind at 1, getContactsByCampaign.
  cbn [contacts set_campaigns]. fold (attached id w). fold valid.
  unfold bind at 1. rewrite sendLoop_run by exact Hw.
  cbn [uuids outbox set_campaigns emailResults contacts campaigns aiMessages].
  fold results. cbn [fst snd Nat.add].
  unfold updateCampaign, bind, get_world, modify, ret.
  cbn [campaigns]. rewrite map_get_set_same.
  reflexivity.
Qed.

(** C5: a dispatch that reaches the loop (the campaign exists, the provider
    is set) over a campaign with N attached valid contacts records exactly N
    results, one per valid contact in the order of the store, each sent or
    failed as the provider answered for that contact alone; the counters it
    returns count these results and add up to N. *)
Theorem dispatch_records_every_valid_contact (api : Provider) (id : Id)
    (w : World) (campaign : Campaign) :
  store_wf w ->
  map_get id (campaigns w) = Some campaign ->
  exists sentCount failedCount w' created,
    postCampaignSend (Some api) id w
    = (SendOk sentCount failedCount (length (validContactsOf id w)), w')
    /\ sentCount + failedCount = length (validContactsOf id w)
    /\ emailResults w' = emailResults w ++ entries er_id created
    /\ length created = length (validContactsOf id w)
    /\ map er_contactId created = map c_id (validContactsOf id w)
    /\ map er_email created = map c_email (validContactsOf id w)
    /\ Forall (fun r => er_campaignId r = id) created
    /\ sentCount = count_sent created
    /\ failedCount = count_failed created
    /\ (forall i c,
          nth_error (validContactsOf id w) i = Some c ->
          exists r,
            nth_error created i = Some r
            /\ er_contactId r = c_id c
            /\ er_status r
               = status_of (api (length (outbox w) + i)
                              (emailRequest campaign c))).
Proof.
  intros (_ & _ & He & _) Hc.
  pose proof (@postCampaignSend_run api id w campaign He Hc) as Hrun.
  cbv zeta in Hrun.
  set (created := dispatch_results api campaign id (length (outbox w))
                    (uuids w) (validContactsOf id w)) in *.
  destruct (dispatch_results_contacts api campaign id (length (outbox w))
              (uuids w) (validContactsOf id w)) as (H1 & H2 & H3).
  eexists _, _, _, created. split; [exact Hrun|].
  cbn [emailResults].
  repeat split; auto.
  - apply dispatch_results_tally.
  - apply dispatch_results_length.
  - intros i c Hi. eexists. split.
    + unfold created. apply dispatch_results_nth. exact Hi.
    + split; reflexivity.
Qed.

Lemma count_sent_all_rejected api campaign id k n cs :
  (forall j r, status_of (api j r) = Failed) ->
  count_sent (dispatch_results api campaign id k n cs) = 0
  /\ count_failed (dispatch_results api campaign id k n cs) = length cs.
Proof.
  intros Hall. revert k n; induction cs as [|c r IH]; intros k n; [easy|].
  cbn [dispatch_results length].
  rewrite count_sent_cons, count_failed_cons.
  destruct (IH (S k) (S n)) as [-> ->].
  unfold is_sent, is_failed; cbn [er_status]. rewrite Hall. easy.
Qed.

(** C6: after a dispatch that reaches the loop, the stored campaign is
    completed and its counters are the tally of the loop, whatever the
    individual sends came to; when every send failed the campaign is
    completed all the same, with no send counted and every valid contact
    counted as failed. *)
Theorem dispatch_completes_the_campaign (api : Provider) (id : Id)
    (w : World) (campaign : Campaign) :
  store_wf w ->
  map_get id (campaigns w) = Some campaign ->
  exists sentCount failedCount total w',
    postCampaignSend (Some api) id w
    = (SendOk sentCount failedCount total, w')
    /\ map_get id (campaigns w')
       = Some (completed campaign sentCount failedCount)
    /\ sentCount
       = count_sent (map_values (skipn (length (emailResults w))
                                   (emailResults w')))
    /\ failedCount
       = count_failed (map_values (skipn (length (emailResults w))
                                     (emailResults w')))
    /\ sentCount + failedCount = total
    /\ ((forall j r, status_of (api j r) = Failed) ->
        sentCount = 0 /\ failedCount = length (validContactsOf id w)).
Proof.
  intros (_ & _ & He & _) Hc.
  pose proof (@postCampaignSend_run api id w campaign He Hc) as Hrun.
  cbv zeta in Hrun.
  eexists _, _, _, _. split; [exact Hrun|].
  cbn [campaigns emailResults]. split; [now rewrite map_get_set_same|].
  rewrite skipn_app, Nat.sub_diag, skipn_all. cbn [app skipn].
  unfold map_values, entries. rewrite map_map. cbn [snd]. rewrite map_id.
  split; [reflexivity|]. split; [reflexivity|].
  split; [apply dispatch_results_tally|].
  intros Hall. now apply count_sent_all_rejected.
Qed.

(** ** What the routes keep *)

Lemma store_wf_bump (w : World) (n : nat) :
  uuids w <= n -> store_wf w -> store_wf (set_uuids n w).
Proof.
  intros Hn (Hc & Hp & He & Ha). unfold store_wf, set_uuids; simpl.
  repeat split; eauto using keys_below_mono.
Qed.

Lemma wf_createContact ic : preserves store_wf (createContact ic).
Proof.
  intros w (Hc & Hp & He & Ha). rewrite createContact_run.
  unfold store_wf; simpl.
  repeat split; eauto using keys_below_mono, keys_below_set.
Qed.

Lemma wf_updateContact id u : preserves store_wf (updateContact id u).
Proof.
  intros w (Hc & Hp & He & Ha).
  unfold updateContact, bind, get_world, modify, ret, throw.
  destruct (map_get id (contacts w)) eqn:E; simpl.
  - unfold store_wf; simpl.
    repeat split; eauto using keys_below_set, map_get_below.
  - repeat split; assumption.
Qed.

Lemma wf_createManyContacts ics : preserves store_wf (createManyContacts ics).
Proof.
  induction ics as [|ic r IH]; simpl.
  - apply preserves_ret.
  - apply preserves_bind; [apply wf_createContact|intros c].
    apply preserves_bind; [exact IH|intros cs]. apply preserves_ret.
Qed.

Lemma wf_createCampaign ic : preserves store_wf (createCampaign ic).
Proof.
  intros w (Hc & Hp & He & Ha).
  unfold createCampaign, bind, randomUUID, modify, ret; simpl.
  unfold store_wf; simpl.
  repeat split; eauto using keys_below_mono, keys_below_set.
Qed.

Lemma wf_updateCampaign id u : preserves store_wf (updateCampaign id u).
Proof.
  intros w (Hc & Hp & He & Ha).
  unfold updateCampaign, bind, get_world, modify, ret, throw.
  destruct (map_get id (campaigns w)) eqn:E; simpl.
  - unfold store_wf; simpl.
    repeat split; eauto using keys_below_set, map_get_below.
  - repeat split; assumption.
Qed.

Lemma wf_createEmailResult ir : preserves store_wf (createEmailResult ir).
Proof.
  intros w (Hc & Hp & He & Ha).
  unfold createEmailResult, bind, randomUUID, modify, ret; simpl.
  unfold store_wf; simpl.
  repeat split; eauto using keys_below_mono, keys_below_set.
Qed.

Lemma wf_createAiMessage im : preserves store_wf (createAiMessage im).
Proof.
  intros w (Hc & Hp & He & Ha).
  unfold createAiMessage, bind, randomUUID, modify, ret; simpl.
  unfold store_wf; simpl.
  repeat split; eauto using keys_below_mono, keys_below_set.
Qed.

Lemma wf_sendTransacEmail api rq : preserves store_wf (sendTransacEmail api rq).
Proof.
  intros w Hw. unfold sendTransacEmail.
  destruct (api _ _); simpl; exact Hw.
Qed.

Lemma wf_attachContacts ids cid : preserves store_wf (attachContacts ids cid).
Proof.
  induction ids as [|i r IH]; simpl.
  - apply preserves_ret.
  - apply preserves_bind; [apply wf_updateContact|intros _; exact IH].
Qed.

Lemma wf_sendLoop api campaign id cs :
  forall counts, preserves store_wf (sendLoop api campaign id cs counts).
Proof.
  induction cs as [|c r IH]; intros counts; simpl.
  - apply preserves_ret.
  - apply preserves_bind; [|intros a; apply IH].
    unfold sendOne. apply preserves_try.
    + apply preserves_bind; [apply wf_sendTransacEmail|intros _].
      apply preserves_bind; [apply wf_createEmailResult|intros _].
      apply preserves_ret.
    + intros e. apply preserves_bind; [apply wf_createEmailResult|intros _].
      apply preserves_ret.
Qed.

Lemma wf_uploadContacts file w :
  store_wf w -> store_wf (snd (uploadContacts file w)).
Proof.
  unfold uploadContacts. apply preserves_try_catch.
  destruct file as [|e|[|firstRow rest]];
    try apply preserves_ret; try apply preserves_throw.
  cbv zeta. destruct (negb _ || negb _); [apply preserves_ret|].
  apply preserves_bind; [apply wf_createManyContacts|intros cs].
  apply preserves_bind; [apply preserves_ret|intros vs]. apply preserves_ret.
Qed.

Lemma wf_postCampaign subject message ids w :
  store_wf w -> store_wf (snd (postCampaign subject message ids w)).
Proof.
  unfold postCampaign. apply preserves_try_catch.
  apply preserves_bind; [apply wf_createCampaign|intros c].
  apply preserves_bind; [apply wf_attachContacts|intros _].
  apply preserves_ret.
Qed.

Lemma wf_postCampaignSend brevo id w :
  store_wf w -> store_wf (snd (postCampaignSend brevo id w)).
Proof.
  unfold postCampaignSend. apply preserves_try_catch.
  apply preserves_bind; [apply preserves_get|intros [c|]];
    [|apply preserves_ret].
  apply preserves_bind; [apply wf_updateCampaign|intros _].
  apply preserves_bind; [apply preserves_get|intros cs].
  destruct brevo as [api|]; [|apply preserves_ret].
  apply preserves_bind; [apply wf_sendLoop|intros counts].
  apply preserves_bind; [apply wf_updateCampaign|intros _].
  apply preserves_ret.
Qed.

Lemma wf_getCampaignResults id w :
  store_wf w -> store_wf (snd (getCampaignResults id w)).
Proof.
  unfold getCampaignResults. apply preserves_try_catch.
  apply preserves_bind; [apply preserves_get|intros c].
  apply preserves_bind; [apply preserves_get|intros rs].
  destruct c; apply preserves_ret.
Qed.

Lemma wf_postAiMessage key mt idea response w :
  store_wf w -> store_wf (snd (postAiMessage key mt idea response w)).
Proof.
  unfold postAiMessage. apply preserves_try_catch.
  destruct (negb key); [apply preserves_ret|].
  destruct response; try apply preserves_throw.
  cbv zeta.
  apply preserves_bind; [apply wf_createAiMessage|intros m].
  apply preserves_ret.
Qed.

Lemma wf_serve cfg r w : store_wf w -> store_wf (serve cfg r w).
Proof.
  destruct r; simpl;
    auto using wf_uploadContacts, wf_postCampaign, wf_postCampaignSend,
      wf_getCampaignResults, wf_postAiMessage.
Qed.

(** *** Validity flags in the store *)

Lemma invalid_createContact ic :
  default (ic_isValid ic) false = false ->
  preserves all_invalid (createContact ic).
Proof.
  intros Hic w Hw. rewrite createContact_run. unfold all_invalid; simpl.
  apply map_values_set_Forall; [exact Hic|exact Hw].
Qed.

Lemma invalid_createManyContacts rows :
  preserves all_invalid (createManyContacts (contactsToInsert rows)).
Proof.
  induction rows as [|row r IH]; simpl.
  - apply preserves_ret.
  - apply preserves_bind; [now apply invalid_createContact|intros c].
    apply preserves_bind; [exact IH|intros cs]. apply preserves_ret.
Qed.

Lemma invalid_updateContact id cid :
  preserves all_invalid
    (updateContact id (mkContactUpdates (Some (Some cid)) None)).
Proof.
  intros w Hw.
  unfold updateContact, bind, get_world, modify, ret, throw.
  destruct (map_get id (contacts w)) as [c|] eqn:E; simpl; [|exact Hw].
  unfold all_invalid; simpl. apply map_values_set_Forall; [|exact Hw].
  unfold all_invalid in Hw. rewrite Forall_forall in Hw.
  change (c_isValid c = false).
  apply Hw. eapply map_get_In; eassumption.
Qed.

Lemma invalid_attachContacts ids cid :
  preserves all_invalid (attachContacts ids cid).
Proof.
  induction ids as [|i r IH]; simpl.
  - apply preserves_ret.
  - apply preserves_bind; [apply invalid_updateContact|intros _; exact IH].
Qed.

(** A computation that does not write to the contacts keeps any property
    of them. *)
Lemma invalid_createCampaign ic : preserves all_invalid (createCampaign ic).
Proof. intros w Hw. exact Hw. Qed.

Lemma invalid_updateCampaign id u : preserves all_invalid (updateCampaign id u).
Proof.
  intros w Hw. unfold updateCampaign, bind, get_world, modify, ret, throw.
  destruct (map_get id (campaigns w)); exact Hw.
Qed.

Lemma invalid_createEmailResult ir :
  preserves all_invalid (createEmailResult ir).
Proof. intros w Hw. exact Hw. Qed.

Lemma invalid_createAiMessage im : preserves all_invalid (createAiMessage im).
Proof. intros w Hw. exact Hw. Qed.

Lemma invalid_sendTransacEmail api rq :
  preserves all_invalid (sendTransacEmail api rq).
Proof.
  intros w Hw. unfold sendTransacEmail. destruct (api _ _); exact Hw.
Qed.

Lemma invalid_sendLoop api campaign id cs :
  forall counts, preserves all_invalid (sendLoop api campaign id cs counts).
Proof.
  induction cs as [|c r IH]; intros counts; simpl.
  - apply preserves_ret.
  - apply preserves_bind; [|intros a; apply IH].
    unfold sendOne. apply preserves_try.
    + apply preserves_bind; [apply invalid_sendTransacEmail|intros _].
      apply preserves_bind; [apply invalid_createEmailResult|intros _].
      apply preserves_ret.
    + intros e.
      apply preserves_bind; [apply invalid_createEmailResult|intros _].
      apply preserves_ret.
Qed.

Lemma invalid_uploadContacts file w :
  all_invalid w -> all_invalid (snd (uploadContacts file w)).
Proof.
  unfold uploadContacts. apply preserves_try_catch.
  destruct file as [|e|[|firstRow rest]];
    try apply preserves_ret; try apply preserves_throw.
  cbv zeta. destruct (negb _ || negb _); [apply preserves_ret|].
  apply preserves_bind; [apply invalid_createManyContacts|intros cs].
  apply preserves_bind; [apply preserves_ret|intros vs]. apply preserves_ret.
Qed.

Lemma invalid_postCampaign subject message ids w :
  all_invalid w -> all_invalid (snd (postCampaign subject message ids w)).
Proof.
  unfold postCampaign. apply preserves_try_catch.
  apply preserves_bind; [apply invalid_createCampaign|intros c].
  apply preserves_bind; [apply invalid_attachContacts|intros _].
  apply preserves_ret.
Qed.

Lemma invalid_postCampaignSend brevo id w :
  all_invalid w -> all_invalid (snd (postCampaignSend brevo id w)).
Proof.
  unfold postCampaignSend. apply preserves_try_catch.
  apply preserves_bind; [apply preserves_get|intros [c|]];
    [|apply preserves_ret].
  apply preserves_bind; [apply invalid_updateCampaign|intros _].
  apply preserves_bind; [apply preserves_get|intros cs].
  destruct brevo as [api|]; [|apply preserves_ret].
  apply preserves_bind; [apply invalid_sendLoop|intros counts].
  apply preserves_bind; [apply invalid_updateCampaign|intros _].
  apply preserves_ret.
Qed.

Lemma invalid_postAiMessage key mt idea response w :
  all_invalid w -> all_invalid (snd (postAiMessage key mt idea response w)).
Proof.
  unfold postAiMessage. apply preserves_try_catch.
  destruct (negb key); [apply preserves_ret|].
  destruct response; try apply preserves_throw.
  cbv zeta.
  apply preserves_bind; [apply invalid_createAiMessage|intros m].
  apply preserves_ret.
Qed.

Lemma invalid_getCampaignResults id w :
  all_invalid w -> all_invalid (snd (getCampaignResults id w)).
Proof.
  unfold getCampaignResults. apply preserves_try_catch.
  apply preserves_bind; [apply preserves_get|intros c].
  apply preserves_bind; [apply preserves_get|intros rs].
  destruct c; apply preserves_ret.
Qed.

(** No route ever stores a true validity flag. *)
Lemma invalid_serve cfg r w : all_invalid w -> all_invalid (serve cfg r w).
Proof.
  destruct r; simpl;
    auto using invalid_uploadContacts, invalid_postCampaign,
      invalid_postCampaignSend, invalid_getCampaignResults,
      invalid_postAiMessage.
Qed.

(** From the empty store of a new process, whatever requests are served,
    no contact of the store carries a true validity flag. *)
Lemma invalid_serveAll cfg rs :
  forall w, all_invalid w -> all_invalid (serveAll cfg rs w).
Proof.
  induction rs as [|r rs IH]; intros w Hw; simpl; [exact Hw|].
  apply IH. now apply invalid_serve.
Qed.

Lemma wf_serveAll cfg rs :
  forall w, store_wf w -> store_wf (serveAll cfg rs w).
Proof.
  induction rs as [|r rs IH]; intros w Hw; simpl; [exact Hw|].
  apply IH. now apply wf_serve.
Qed.

Lemma all_invalid_no_valid_contacts id w :
  all_invalid w -> validContactsOf id w = [].
Proof.
  unfold all_invalid, validContactsOf, attached.
  induction (map_values (contacts w)) as [|c cs IH]; intros H; [reflexivity|].
  inversion H; subst. simpl.
  destruct (same_campaign id (c_campaignId c)); simpl; auto.
  now rewrite H2, IH.
Qed.

Lemma valid_count_of_emails (cs : list Contact) :
  length (filter c_isValid (map validated cs))
  = length (filter (full_match emailRegex)
              (map (fun c => to_text (c_email c)) cs)).
Proof.
  induction cs as [|c r IH]; [reflexivity|]. simpl.
  destruct (full_match emailRegex (to_text (c_email c))); simpl;
    now rewrite IH.
Qed.

Lemma contactsToInsert_emails (rows : list Row) :
  map (fun ic => to_text (ic_email ic)) (contactsToInsert rows)
  = map email_of_row rows.
Proof. unfold contactsToInsert. now rewrite map_map. Qed.

Lemma campaigns_updateContact id u X :
  preserves (fun w => campaigns w = X) (updateContact id u).
Proof.
  intros w Hw. unfold updateContact, bind, get_world, modify, ret, throw.
  destruct (map_get id (contacts w)); exact Hw.
Qed.

Lemma campaigns_attachContacts ids cid X :
  preserves (fun w => campaigns w = X) (attachContacts ids cid).
Proof.
  induction ids as [|i r IH]; simpl.
  - apply preserves_ret.
  - apply preserves_bind; [apply campaigns_updateContact|intros _; exact IH].
Qed.

Lemma postCampaign_stores (subject message : jsstring) (ids : list Id)
    (w w' : World) (campaign : Campaign) :
  postCampaign subject message ids w = (CampaignOk campaign, w') ->
  map_get (cp_id campaign) (campaigns w') = Some campaign.
Proof.
  unfold postCampaign, try_catch, bind at 1.
  unfold createCampaign at 1, bind at 1, randomUUID, bind at 1, modify, ret at 1.
  cbn [default length]. unfold ret at 1.
  set (c := mkCampaign _ _ _ _ _ _ _).
  set (w1 := set_campaigns _ _).
  pose proof (@campaigns_attachContacts ids (cp_id c) (campaigns w1) w1 eq_refl)
    as Hk.
  unfold bind. destruct (attachContacts ids (cp_id c) w1) as [[[]|e] w2];
    simpl in *; intros H; inversion H; subst.
  rewrite Hk. unfold w1; simpl. apply map_get_set_same.
Qed.

(** C9: validation returns copies and writes nothing, so the contacts an
    upload stored all carry a false validity flag whatever count of valid
    addresses the upload reported; a campaign made of these contacts has no
    valid contact, and its dispatch, with the provider set, hands no request
    to the provider, records no result and reports zero recipients. *)
Theorem validity_is_reported_but_not_stored (rows : list Row) (w : World)
    (subject message : jsstring) (api : Provider) :
  store_wf w ->
  all_invalid w ->
  (forall cs w0, validateContacts cs w0 = (Ret (map validated cs), w0))
  /\ forall preview total valid invalid contactIds w1,
       uploadContacts (Sheet rows) w
       = (UploadOk preview total valid invalid contactIds, w1) ->
       valid = length (filter (full_match emailRegex) (map email_of_row rows))
       /\ all_invalid w1
       /\ forall campaign w2,
            postCampaign subject message contactIds w1
            = (CampaignOk campaign, w2) ->
            validContactsOf (cp_id campaign) w2 = []
            /\ exists w3,
                 postCampaignSend (Some api) (cp_id campaign) w2
                 = (SendOk 0 0 0, w3)
                 /\ outbox w3 = outbox w2
                 /\ emailResults w3 = emailResults w2.
Proof.
  intros Hwf Hinv. split; [reflexivity|].
  intros preview total valid invalid ids w1 Hup.
  assert (Hinv1 : all_invalid w1).
  { pose proof (@invalid_uploadContacts (Sheet rows) w Hinv) as H.
    now rewrite Hup in H. }
  assert (Hwf1 : store_wf w1).
  { pose proof (@wf_uploadContacts (Sheet rows) w Hwf) as H.
    now rewrite Hup in H. }
  split; [|split; [exact Hinv1|]].
  - destruct rows as [|firstRow rest].
    + rewrite uploadContacts_empty in Hup. discriminate Hup.
    + destruct (hasName firstRow) eqn:Hn;
        [destruct (hasEmail firstRow) eqn:He|].
      * destruct Hwf as (Hc & _).
        pose proof (@uploadContacts_accepted firstRow rest w Hn He Hc) as Hrun.
        cbv zeta in Hrun.
        set (v := length (filter c_isValid _)) in Hrun.
        assert (Hv : v = length (filter (full_match emailRegex)
                                   (map email_of_row (firstRow :: rest)))).
        { unfold v. rewrite valid_count_of_emails.
          rewrite <- (map_map c_email to_text).
          destruct (fresh_contacts_names (uuids w)
                      (contactsToInsert (firstRow :: rest))) as [_ ->].
          rewrite map_map. now rewrite contactsToInsert_emails. }
        clearbody v. rewrite Hrun in Hup. inversion Hup; subst. reflexivity.
      * rewrite uploadContacts_missing in Hup by now right. discriminate Hup.
      * rewrite uploadContacts_missing in Hup by now left. discriminate Hup.
  - intros campaign w2 Hpc.
    assert (Hinv2 : all_invalid w2).
    { pose proof (@invalid_postCampaign subject message ids w1 Hinv1) as H.
      now rewrite Hpc in H. }
    assert (Hwf2 : store_wf w2).
    { pose proof (@wf_postCampaign subject message ids w1 Hwf1) as H.
      now rewrite Hpc in H. }
    pose proof (postCampaign_stores _ _ _ _ Hpc) as Hget.
    pose proof (all_invalid_no_valid_contacts (cp_id campaign) Hinv2) as Hnone.
    split; [exact Hnone|].
    destruct Hwf2 as (_ & _ & He2 & _).
    pose proof (@postCampaignSend_run api (cp_id campaign) w2 campaign He2 Hget)
      as Hrun.
    cbv zeta in Hrun. rewrite Hnone in Hrun. cbn in Hrun.
    eexists. split; [exact Hrun|]. simpl.
    split; apply app_nil_r.
Qed.

(** *** A campaign left in status sending *)

Section Stranded.

Variables (id : Id) (c : Campaign).
Hypothesis c_sending : cp_status c = Sending.

Let P := holds_campaign id c.

Lemma held_createContact ic : preserves P (createContact ic).
Proof.
  intros w (Hk & Hg). rewrite createContact_run. split; simpl.
  - eapply keys_below_mono; [|exact Hk]. lia.
  - exact Hg.
Qed.

Lemma held_createManyContacts ics : preserves P (createManyContacts ics).
Proof.
  induction ics as [|ic r IH]; simpl.
  - apply preserves_ret.
  - apply preserves_bind; [apply held_createContact|intros x].
    apply preserves_bind; [exact IH|intros cs]. apply preserves_ret.
Qed.

Lemma held_updateContact i u : preserves P (updateContact i u).
Proof.
  intros w Hw. unfold updateContact, bind, get_world, modify, ret, throw.
  destruct (map_get i (contacts w)); exact Hw.
Qed.

Lemma held_attachContacts ids cid : preserves P (attachContacts ids cid).
Proof.
  induction ids as [|i r IH]; simpl.
  - apply preserves_ret.
  - apply preserves_bind; [apply held_updateContact|intros _; exact IH].
Qed.

Lemma held_createCampaign ic : preserves P (createCampaign ic).
Proof.
  intros w (Hk & Hg).
  unfold createCampaign, bind, randomUUID, modify, ret; simpl.
  pose proof (map_get_below _ Hk Hg) as Hlt.
  split; simpl.
  - apply keys_below_set; [lia|].
    eapply keys_below_mono; [|exact Hk]. lia.
  - rewrite map_get_set_other by lia. exact Hg.
Qed.

Lemma held_updateCampaign_sending i :
  preserves P (updateCampaign i (mkCampaignUpdates (Some Sending) None None)).
Proof.
  intros w (Hk & Hg).
  unfold updateCampaign, bind, get_world, modify, ret, throw.
  destruct (map_get i (campaigns w)) as [c'|] eqn:E; simpl; [|now split].
  split; simpl.
  - apply keys_below_set; [|exact Hk]. eapply map_get_below; eassumption.
  - destruct (Nat.eq_dec id i) as [->|Hne].
    + rewrite map_get_set_same. rewrite Hg in E. inversion E; subst c'.
      unfold apply_campaign_updates; simpl. rewrite <- c_sending.
      now destruct c.
    + now rewrite map_get_set_other.
Qed.

Lemma held_createAiMessage im : preserves P (createAiMessage im).
Proof.
  intros w (Hk & Hg).
  unfold createAiMessage, bind, randomUUID, modify, ret; simpl.
  split; simpl; [|exact Hg].
  eapply keys_below_mono; [|exact Hk]. lia.
Qed.

Lemma held_serve (cfg : Config) (r : Request) (w : World) :
  brevoApi cfg = None -> P w -> P (serve cfg r w).
Proof.
  intros Hcfg. destruct r as [file|subject message ids|i|i|mt idea response];
    simpl.
  - unfold uploadContacts. apply preserves_try_catch.
    destruct file as [|e|[|firstRow rest]];
      try apply preserves_ret; try apply preserves_throw.
    cbv zeta. destruct (negb _ || negb _); [apply preserves_ret|].
    apply preserves_bind; [apply held_createManyContacts|intros cs].
    apply preserves_bind; [apply preserves_ret|intros vs].
    apply preserves_ret.
  - unfold postCampaign. apply preserves_try_catch.
    apply preserves_bind; [apply held_createCampaign|intros x].
    apply preserves_bind; [apply held_attachContacts|intros _].
    apply preserves_ret.
  - rewrite Hcfg. unfold postCampaignSend. apply preserves_try_catch.
    apply preserves_bind; [apply preserves_get|intros [x|]];
      [|apply preserves_ret].
    apply preserves_bind; [apply held_updateCampaign_sending|intros _].
    apply preserves_bind; [apply preserves_get|intros cs].
    apply preserves_ret.
  - unfold getCampaignResults. apply preserves_try_catch.
    apply preserves_bind; [apply preserves_get|intros x].
    apply preserves_bind; [apply preserves_get|intros rs].
    destruct x; apply preserves_ret.
  - unfold postAiMessage. apply preserves_try_catch.
    destruct (negb _); [apply preserves_ret|].
    destruct response; try apply preserves_throw.
    cbv zeta.
    apply preserves_bind; [apply held_createAiMessage|intros m].
    apply preserves_ret.
Qed.

Lemma held_serveAll (cfg : Config) (rs : list Request) :
  brevoApi cfg = None -> forall w, P w -> P (serveAll cfg rs w).
Proof.
  intros Hcfg. induction rs as [|r rs IH]; intros w Hw; simpl; [exact Hw|].
  apply IH. now apply held_serve.
Qed.

End Stranded.

(** C10: with the e-mail credential absent, a dispatch of an existing
    campaign answers 503 after it has set the stored status to sending:
    the counters, the contacts and the results are as before, nothing was
    handed to the provider, and whatever requests follow while the
    credential stays absent, the campaign is still stored in status sending
    with the same counters. *)
Theorem refused_dispatch_leaves_campaign_sending (id : Id) (w : World)
    (campaign : Campaign) :
  store_wf w ->
  map_get id (campaigns w) = Some campaign ->
  exists w1,
    postCampaignSend None id w = (ServiceUnavailableError, w1)
    /\ map_get id (campaigns w1) = Some (stranded campaign)
    /\ contacts w1 = contacts w
    /\ emailResults w1 = emailResults w
    /\ outbox w1 = outbox w
    /\ forall cfg rs,
         brevoApi cfg = None ->
         map_get id (campaigns (serveAll cfg rs w1))
         = Some (stranded campaign).
Proof.
  intros (_ & Hp & _ & _) Hc.
  assert (Hrun : postCampaignSend None id w =
                 (ServiceUnavailableError,
                  set_campaigns (map_set id (stranded campaign) (campaigns w)) w)).
  { unfold postCampaignSend, try_catch, bind at 1, getCampaign. rewrite Hc.
    unfold updateCampaign, bind, get_world, modify, ret. rewrite Hc.
    reflexivity. }
  eexists. split; [exact Hrun|]. simpl.
  assert (Hget : map_get id (map_set id (stranded campaign) (campaigns w))
                 = Some (stranded campaign)) by apply map_get_set_same.
  repeat split; auto.
  intros cfg rs Hcfg.
  apply (@held_serveAll id (stranded campaign) eq_refl cfg rs Hcfg).
  split; simpl; [|exact Hget].
  apply keys_below_set; [|exact Hp]. eapply map_get_below; eassumption.
Qed.

(** ** Personalization *)

Lemma contains_cons (p : jsstring) (c : code_unit) (s : jsstring) :
  contains p s = true -> contains p (c :: s) = true.
Proof. intros H. cbn [contains]. rewrite H. apply orb_true_r. Qed.

Lemma contains_app_r (p x y : jsstring) :
  contains p y = true -> contains p (x ++ y) = true.
Proof.
  intros H. induction x as [|c x IH]; [exact H|].
  cbn [app]. now apply contains_cons.
Qed.

Lemma contains_app_l (p x y : jsstring) :
  contains p x = true -> contains p (x ++ y) = true.
Proof.
  induction x as [|c x IH].
  - destruct p as [|a p]; [intros _; now destruct y|discriminate].
  - cbn [app contains]. intros H. apply orb_true_iff in H.
    destruct H as [H|H].
    + apply starts_with_app in H. destruct H as [t Ht].
      assert (E : starts_with p ((c :: x) ++ y) = true).
      { apply starts_with_app. exists (t ++ y). rewrite Ht.
        now rewrite app_assoc. }
      cbn [app] in E. now rewrite E.
    + rewrite (IH H). apply orb_true_r.
Qed.

(** A text at the head of [e ++ x] is at the head of [e], or [e] is a
    beginning of it. *)
Lemma starts_with_split (q e x : jsstring) :
  starts_with q (e ++ x) = true ->
  starts_with q e = true \/ starts_with e q = true.
Proof.
  revert e. induction q as [|a q IH]; intros e H; [now left|].
  destruct e as [|b e]; [now right|].
  cbn [app] in H. rewrite starts_with_cons in H |- *.
  apply andb_true_iff in H. destruct H as [H1 H2].
  rewrite starts_with_cons, H1. cbn [andb].
  apply N.eqb_eq in H1. subst b. rewrite N.eqb_refl. cbn [andb].
  now apply IH.
Qed.

Lemma prefix_in (e q : jsstring) :
  starts_with e q = true -> In e (prefixes q).
Proof.
  intros H. apply starts_with_app in H. destruct H as [t ->].
  unfold prefixes. apply in_map_iff. exists (length e). split.
  - rewrite firstn_app, Nat.sub_diag, firstn_all. cbn [firstn].
    apply app_nil_r.
  - apply in_seq. rewrite length_app. lia.
Qed.

Lemma ends_with_app (p x : jsstring) : ends_with p (x ++ p) = true.
Proof.
  unfold ends_with. rewrite rev_app_distr. apply starts_with_app.
  now exists (rev x).
Qed.

Lemma ends_with_split (p e : jsstring) :
  ends_with p e = true -> exists x, e = x ++ p.
Proof.
  unfold ends_with. intros H. apply starts_with_app in H.
  destruct H as [t Ht]. exists (rev t).
  rewrite <- (rev_involutive e), Ht, rev_app_distr, rev_involutive.
  reflexivity.
Qed.

(** The expansion of a replacement string that does not refer to the match
    is the same at every match. *)
Lemma getSubstitution_written_below (n : nat) :
  forall matched before after r,
    length r <= n ->
    refers_to_match r = false ->
    Replace.getSubstitution matched before after r = written r.
Proof.
  unfold written.
  induction n as [|n IH]; intros m b a r Hn Hr.
  - destruct r; [reflexivity|cbn in Hn; lia].
  - destruct r as [|c t]; [reflexivity|].
    cbn [length] in Hn.
    cbn [Replace.getSubstitution refers_to_match] in *.
    destruct (N.eqb c 36).
    + destruct t as [|d t']; [reflexivity|].
      cbn [length] in Hn.
      destruct (N.eqb d 36).
      * f_equal. apply IH; [lia|exact Hr].
      * destruct (N.eqb d 38); [discriminate Hr|].
        destruct (N.eqb d 96); [discriminate Hr|].
        destruct (N.eqb d 39); [discriminate Hr|].
        cbn [orb] in Hr. f_equal.
        apply (IH m b a (d :: t')); [cbn [length]; lia|exact Hr].
    + f_equal. apply IH; [lia|exact Hr].
Qed.

Lemma getSubstitution_written (matched before after r : jsstring) :
  refers_to_match r = false ->
  Replace.getSubstitution matched before after r = written r.
Proof. apply (@getSubstitution_written_below (length r)). lia. Qed.

(** The expansion of a replacement string that refers to the match
    contains the placeholder when the placeholder is matched, precedes the
    match and follows it. *)
Lemma getSubstitution_refers_below (n : nat) :
  forall matched before after r,
    length r <= n ->
    refers_to_match r = true ->
    contains placeholder matched = true ->
    contains placeholder before = true ->
    contains placeholder after = true ->
    contains placeholder (Replace.getSubstitution matched before after r)
    = true.
Proof.
  induction n as [|n IH]; intros m b a r Hn Hr Hm Hb Ha.
  - destruct r; [discriminate Hr|cbn in Hn; lia].
  - destruct r as [|c t]; [discriminate Hr|].
    cbn [length] in Hn.
    cbn [Replace.getSubstitution refers_to_match] in *.
    destruct (N.eqb c 36).
    + destruct t as [|d t']; [discriminate Hr|].
      cbn [length] in Hn.
      destruct (N.eqb d 36).
      * apply contains_cons. apply IH; auto. lia.
      * destruct (N.eqb d 38); [now apply contains_app_l|].
        destruct (N.eqb d 96); [now apply contains_app_l|].
        destruct (N.eqb d 39); [now apply contains_app_l|].
        cbn [orb] in Hr. apply contains_cons.
        apply (IH m b a (d :: t')); auto. cbn [length]; lia.
    + apply contains_cons. apply IH; auto. lia.
Qed.

Lemma replace_at_match (name before : jsstring) (c : code_unit) (t : jsstring) :
  starts_with placeholder (c :: t) = true ->
  Replace.replaceAll_from placeholder name before 0 (c :: t)
  = Replace.getSubstitution placeholder before (skipn 6 (c :: t)) name
    ++ Replace.replaceAll_from placeholder name (before ++ [c]) 5 t.
Proof. intros H. cbn [Replace.replaceAll_from]. now rewrite H. Qed.

Lemma replace_at_other (name before : jsstring) (c : code_unit) (t : jsstring) :
  starts_with placeholder (c :: t) = false ->
  Replace.replaceAll_from placeholder name before 0 (c :: t)
  = c :: Replace.replaceAll_from placeholder name (before ++ [c]) 0 t.
Proof. intros H. cbn [Replace.replaceAll_from]. now rewrite H. Qed.

Lemma replace_skip (name before : jsstring) (k : nat) (c : code_unit)
    (t : jsstring) :
  Replace.replaceAll_from placeholder name before (S k) (c :: t)
  = Replace.replaceAll_from placeholder name (before ++ [c]) k t.
Proof. reflexivity. Qed.

(** A name that refers to the match brings the placeholder back at the
    second placeholder of three. *)
Lemma referring_name_brings_it_back (name : jsstring) :
  refers_to_match name = true ->
  contains placeholder (personalize thrice name) = true.
Proof.
  intros H. unfold personalize, Replace.replaceAll, thrice.
  change (placeholder ++ placeholder ++ placeholder)
    with (123%N :: skipn 1 placeholder ++ placeholder ++ placeholder).
  rewrite replace_at_match by reflexivity.
  apply contains_app_r.
  cbn [skipn placeholder app].
  rewrite !replace_skip.
  rewrite replace_at_match by reflexivity.
  apply contains_app_l.
  apply (@getSubstitution_refers_below (length name)); auto;
    reflexivity.
Qed.

Section Personalize.

Variable name : jsstring.
Hypothesis literal : refers_to_match name = false.

Lemma before_irrelevant (s : jsstring) :
  forall before before' skip,
    Replace.replaceAll_from placeholder name before skip s
    = Replace.replaceAll_from placeholder name before' skip s.
Proof.
  induction s as [|c t IH]; intros b b' k; [reflexivity|].
  cbn [Replace.replaceAll_from]. destruct k as [|k]; [|apply IH].
  destruct (starts_with placeholder (c :: t)).
  - rewrite !getSubstitution_written by exact literal. f_equal. apply IH.
  - f_equal. apply IH.
Qed.

Lemma skip_then_replace (s : jsstring) :
  forall before before' skip,
    Replace.replaceAll_from placeholder name before skip s
    = Replace.replaceAll_from placeholder name before' 0 (skipn skip s).
Proof.
  induction s as [|c t IH]; intros b b' k.
  - now rewrite skipn_nil.
  - destruct k as [|k]; [apply before_irrelevant|].
    cbn [Replace.replaceAll_from skipn]. apply IH.
Qed.

(** Personalization, read from left to right: a placeholder at the head is
    replaced by what the name stands for and the rest goes on after it; any
    other character is kept. *)
Lemma personalize_at_placeholder (template : jsstring) :
  starts_with placeholder template = true ->
  personalize template name
  = written name ++ personalize (skipn 6 template) name.
Proof.
  destruct template as [|c t]; [discriminate|]. intros H.
  unfold personalize, Replace.replaceAll.
  rewrite replace_at_match by exact H.
  rewrite getSubstitution_written by exact literal. f_equal.
  change (skipn 6 (c :: t)) with (skipn 5 t).
  apply skip_then_replace.
Qed.

Lemma personalize_elsewhere (c : code_unit) (t : jsstring) :
  starts_with placeholder (c :: t) = false ->
  personalize (c :: t) name = c :: personalize t name.
Proof.
  intros H. unfold personalize, Replace.replaceAll.
  rewrite replace_at_other by exact H. f_equal.
  apply before_irrelevant.
Qed.

Lemma personalize_nil : personalize [] name = [].
Proof. reflexivity. Qed.

End Personalize.

Lemma piece_in (e s : jsstring) : contains e s = true -> In e (pieces s).
Proof.
  induction s as [|c t IH]; cbn [contains pieces]; intros H.
  - rewrite orb_false_r in H. destruct e; [now left|discriminate H].
  - apply in_or_app. apply orb_true_iff in H. destruct H as [H|H].
    + left. now apply prefix_in.
    + right. now apply IH.
Qed.

Lemma text_safe_parts (e : jsstring) :
  text_safe e = true ->
  contains placeholder e = false
  /\ contains e (str "name") = false
  /\ (forall o, In o openings -> ends_with o e = false)
  /\ (forall q, In q closings -> starts_with q e = false).
Proof.
  unfold text_safe. rewrite !andb_true_iff, !negb_true_iff, !forallb_forall.
  intros [[[H1 H2] H3] H4]. repeat split; auto.
  - intros o Ho. apply negb_true_iff. now apply H3.
  - intros q Hq. apply negb_true_iff. now apply H4.
Qed.

Ltac each_of H :=
  cbv in H;
  repeat match type of H with
         | _ \/ _ => destruct H as [H|H]
         end.

(** After a safe text, no end of the placeholder can follow an opening
    brace that stands before the text. *)
Lemma safe_text_blocks (e x q : jsstring) :
  text_safe e = true -> In q closings -> starts_with q (e ++ x) = false.
Proof.
  intros Hs Hq.
  destruct (starts_with q (e ++ x)) eqn:H; [exfalso|reflexivity].
  apply starts_with_split in H. destruct H as [H|H].
  - destruct (text_safe_parts e Hs) as (_ & _ & _ & H4).
    rewrite (H4 q Hq) in H. discriminate H.
  - apply prefix_in in H. unfold closings in Hq. cbn [In] in Hq.
    destruct Hq as [<-|[<-|[<-|[<-|[<-|[]]]]]];
      each_of H; try contradiction; subst e;
      vm_compute in Hs; discriminate Hs.
Qed.

(** No placeholder begins inside a safe text. *)
Lemma contains_after_safe (e x : jsstring) :
  text_safe e = true ->
  contains placeholder (e ++ x) = contains placeholder x.
Proof.
  intros Hs. destruct (text_safe_parts e Hs) as (H1 & _ & H3 & _).
  assert (G : forall s pre,
             e = pre ++ s ->
             contains placeholder (s ++ x) = contains placeholder x).
  { induction s as [|c t IH]; intros pre He; [reflexivity|].
    cbn [app contains].
    rewrite (IH (pre ++ [c])) by (now rewrite <- app_assoc).
    destruct (starts_with placeholder (c :: t ++ x)) eqn:H; [exfalso|reflexivity].
    change (c :: t ++ x) with ((c :: t) ++ x) in H.
    apply starts_with_split in H. destruct H as [H|H].
    - assert (Hc : contains placeholder e = true).
      { rewrite He. apply contains_app_r. cbn [contains]. now rewrite H. }
      rewrite H1 in Hc. discriminate Hc.
    - apply prefix_in in H. each_of H; try contradiction;
        try discriminate H;
        match type of H with
        | ?o = _ =>
            assert (He' : e = pre ++ o)
              by (rewrite He; f_equal; symmetry; exact H);
            first
              [ assert (Hc : contains placeholder e = true)
                  by (rewrite He'; apply contains_app_r; reflexivity);
                rewrite H1 in Hc; discriminate Hc
              | assert (Ho : ends_with o e = true)
                  by (rewrite He'; apply ends_with_app);
                rewrite (H3 o) in Ho;
                [discriminate Ho|unfold openings; cbn [In]; tauto] ]
        end. }
  exact (G e [] eq_refl).
Qed.

Section Safe.

Variable name : jsstring.
Hypothesis literal : refers_to_match name = false.
Hypothesis safe : text_safe (written name) = true.

Lemma replace_name_at_match (before : jsstring) (c : code_unit) (t : jsstring) :
  starts_with placeholder (c :: t) = true ->
  Replace.replaceAll_from placeholder name before 0 (c :: t)
  = written name ++ Replace.replaceAll_from placeholder name (before ++ [c]) 5 t.
Proof.
  intros H. rewrite replace_at_match by exact H.
  now rewrite getSubstitution_written by exact literal.
Qed.

(** An end of the placeholder at the head of the output was already at the
    head of the template. *)
Lemma closing_comes_from_template (s : jsstring) :
  forall before q,
    In q closings ->
    starts_with q (Replace.replaceAll_from placeholder name before 0 s) = true ->
    starts_with q s = true.
Proof.
  induction s as [|c t IH]; intros before q Hq H.
  - unfold closings in Hq. cbn [In] in Hq.
    destruct Hq as [<-|[<-|[<-|[<-|[<-|[]]]]]]; discriminate H.
  - destruct (starts_with placeholder (c :: t)) eqn:E.
    + rewrite replace_name_at_match in H by exact E.
      rewrite safe_text_blocks in H by assumption. discriminate H.
    + rewrite replace_at_other in H by exact E.
      unfold closings in Hq. cbn [In] in Hq.
      destruct Hq as [<-|[<-|[<-|[<-|[<-|[]]]]]];
        rewrite starts_with_cons in H |- *;
        apply andb_true_iff in H; destruct H as [H1 H2]; rewrite H1;
        cbn [andb]; try reflexivity;
        (eapply IH; [|exact H2]); unfold closings; cbn [In]; tauto.
Qed.

Lemma replaceAll_from_clean (s : jsstring) :
  forall before skip,
    contains placeholder
      (Replace.replaceAll_from placeholder name before skip s) = false.
Proof.
  induction s as [|c t IH]; intros before skip; [reflexivity|].
  destruct skip as [|k].
  - destruct (starts_with placeholder (c :: t)) eqn:E.
    + rewrite replace_name_at_match by exact E.
      rewrite contains_after_safe by exact safe. apply IH.
    + rewrite replace_at_other by exact E.
      cbn [contains]. rewrite IH, orb_false_r.
      destruct (starts_with placeholder
                  (c :: Replace.replaceAll_from placeholder name
                          (before ++ [c]) 0 t)) eqn:G; [|reflexivity].
      unfold placeholder at 1 in G. rewrite starts_with_cons in G.
      apply andb_true_iff in G. destruct G as [G1 G2].
      apply closing_comes_from_template in G2;
        [|unfold closings; cbn [In]; tauto].
      unfold placeholder at 1 in E. rewrite starts_with_cons in E.
      rewrite G1, G2 in E. discriminate E.
  - rewrite replace_skip. apply IH.
Qed.

End Safe.

Lemma safe_name_is_clean (name template : jsstring) :
  name_safe name = true ->
  contains placeholder (personalize template name) = false.
Proof.
  unfold name_safe. rewrite andb_true_iff, negb_true_iff. intros [R S].
  now apply replaceAll_from_clean.
Qed.

Ltac run_personalize name R :=
  repeat first
    [ rewrite (@personalize_at_placeholder name R) by reflexivity;
      cbn [skipn]
    | rewrite (@personalize_elsewhere name R) by reflexivity
    | rewrite (personalize_nil name) ].

Ltac in_template s name R :=
  let t := eval vm_compute in (str s) in
  exists t; run_personalize name R.

(** A text that is not safe comes back as the placeholder inside a
    template made for it. *)
Lemma unsafe_text_brings_it_back (name : jsstring) :
  refers_to_match name = false ->
  text_safe (written name) = false ->
  exists template, contains placeholder (personalize template name) = true.
Proof.
  intros R H. unfold text_safe in H.
  apply andb_false_iff in H. destruct H as [H|H];
    [apply andb_false_iff in H; destruct H as [H|H];
     [apply andb_false_iff in H; destruct H as [H|H]|]|].
  - (* the text contains the placeholder *)
    apply negb_false_iff in H. in_template "{name}"%string name R.
    now apply contains_app_l.
  - (* the text is a piece of the word *)
    apply negb_false_iff in H. apply piece_in in H. each_of H;
      try contradiction;
      match type of H with
      | ?o = _ =>
          assert (He : written name = o) by (symmetry; exact H); clear H
      end.
    all: first
      [ in_template "{{name}name}"%string name R; rewrite He; reflexivity
      | in_template "{{name}ame}"%string name R; rewrite He; reflexivity
      | in_template "{{name}me}"%string name R; rewrite He; reflexivity
      | in_template "{{name}e}"%string name R; rewrite He; reflexivity
      | in_template "{{name}}"%string name R; rewrite He; reflexivity
      | in_template "{n{name}me}"%string name R; rewrite He; reflexivity
      | in_template "{n{name}e}"%string name R; rewrite He; reflexivity
      | in_template "{n{name}}"%string name R; rewrite He; reflexivity
      | in_template "{na{name}e}"%string name R; rewrite He; reflexivity
      | in_template "{na{name}}"%string name R; rewrite He; reflexivity
      | in_template "{nam{name}}"%string name R; rewrite He; reflexivity ].
  - (* the text ends with a beginning of the placeholder *)
    unfold openings in H. cbn [forallb] in H.
    repeat (apply andb_false_iff in H; destruct H as [H|H]);
      try discriminate H;
      apply negb_false_iff in H; apply ends_with_split in H;
      destruct H as [x He].
    + in_template "{name}name}"%string name R. rewrite He.
      rewrite <- app_assoc. apply contains_app_r. reflexivity.
    + in_template "{name}ame}"%string name R. rewrite He.
      rewrite <- app_assoc. apply contains_app_r. reflexivity.
    + in_template "{name}me}"%string name R. rewrite He.
      rewrite <- app_assoc. apply contains_app_r. reflexivity.
    + in_template "{name}e}"%string name R. rewrite He.
      rewrite <- app_assoc. apply contains_app_r. reflexivity.
    + in_template "{name}}"%string name R. rewrite He.
      rewrite <- app_assoc. apply contains_app_r. reflexivity.
  - (* the text begins with an end of the placeholder *)
    unfold closings in H. cbn [forallb] in H.
    repeat (apply andb_false_iff in H; destruct H as [H|H]);
      try discriminate H;
      apply negb_false_iff in H; apply starts_with_app in H;
      destruct H as [x He].
    + in_template "{{name}"%string name R. rewrite He. reflexivity.
    + in_template "{n{name}"%string name R. rewrite He. reflexivity.
    + in_template "{na{name}"%string name R. rewrite He. reflexivity.
    + in_template "{nam{name}"%string name R. rewrite He. reflexivity.
    + in_template "{name{name}"%string name R. rewrite He. reflexivity.
Qed.

Lemma unsafe_name_brings_it_back (name : jsstring) :
  name_safe name = false ->
  exists template, contains placeholder (personalize template name) = true.
Proof.
  unfold name_safe. intros H.
  destruct (refers_to_match name) eqn:R.
  - exists thrice. now apply referring_name_brings_it_back.
  - now apply unsafe_text_brings_it_back.
Qed.

(** C7, as stated, fails: for a recipient whose name is the text of the
    placeholder, for a recipient named [$&], and for a recipient without a
    name inside a template that surrounds the placeholder with its own
    pieces, the personalized text still contains the placeholder. *)
Lemma placeholder_survives_personalization :
  contains placeholder (str "Dear {name},") = true
  /\ contains placeholder (personalize (str "Dear {name},") (str "{name}")) = true
  /\ contains placeholder (personalize (str "Dear {name},") (str "$&")) = true
  /\ contains placeholder (str "{na{name}me}") = true
  /\ personalize (str "{na{name}me}") [] = placeholder.
Proof. vm_compute. repeat split. Qed.

(** C7 (amended): the subject and the message the dispatcher sends are the
    templates with every placeholder replaced, from left to right, by what
    the recipient's name stands for as a replacement string.  They contain
    no placeholder, whatever the templates are, exactly when the name is
    safe: read as a replacement string it has none of the patterns [$&],
    [$`] and [$'] (a [$$] stands for one [$], any other [$] for itself),
    and the text it stands for does not contain the placeholder, is not a
    piece of the word [name] (the empty text is one), does not end with a
    beginning of the placeholder and does not begin with an end of it.  For
    every other name some template keeps a placeholder. *)
Theorem personalized_texts_have_no_placeholder (campaign : Campaign)
    (contact : Contact) :
  rq_subject (emailRequest campaign contact)
  = personalize (cp_subject campaign) (to_text (c_name contact))
  /\ rq_textContent (emailRequest campaign contact)
     = personalize (cp_message campaign) (to_text (c_name contact))
  /\ (name_safe (to_text (c_name contact)) = true ->
      contains placeholder (rq_subject (emailRequest campaign contact)) = false
      /\ contains placeholder (rq_textContent (emailRequest campaign contact))
         = false)
  /\ forall name,
       (name_safe name = true
        <-> forall template,
              contains placeholder (personalize template name) = false)
       /\ (name_safe name = false
           <-> exists template,
                 contains placeholder (personalize template name) = true)
       /\ (refers_to_match name = false ->
           (forall template,
              starts_with placeholder template = true ->
              personalize template name
              = written name ++ personalize (skipn 6 template) name)
           /\ (forall c t,
                 starts_with placeholder (c :: t) = false ->
                 personalize (c :: t) name = c :: personalize t name)).
Proof.
  cbn [emailRequest rq_subject rq_textContent].
  split; [reflexivity|]. split; [reflexivity|].
  split; [intros H; split; now apply safe_name_is_clean|].
  intros name. split; [|split].
  - split; [intros H template; now apply safe_name_is_clean|].
    intros H. destruct (name_safe name) eqn:E; [reflexivity|].
    destruct (unsafe_name_brings_it_back name E) as [template Ht].
    rewrite H in Ht. discriminate Ht.
  - split; [apply unsafe_name_brings_it_back|].
    intros [template Ht]. destruct (name_safe name) eqn:E; [|reflexivity].
    rewrite safe_name_is_clean in Ht by exact E. discriminate Ht.
  - intros R. split.
    + intros template. now apply personalize_at_placeholder.
    + intros c t. now apply personalize_elsewhere.
Qed.

(** ** The image-job tracker *)

Lemma terminal_not_created (s : jsstring) :
  terminal s = true -> jseq s CREATED = false.
Proof.
  unfold terminal. intros H. apply orb_true_iff in H.
  destruct H as [H | H]; apply jseq_true in H; subst; reflexivity.
Qed.

Lemma terminal_not_initializing (s : jsstring) :
  terminal s = true -> jseq s INITIALIZING = false.
Proof.
  unfold terminal. intros H. apply orb_true_iff in H.
  destruct H as [H | H]; apply jseq_true in H; subst; reflexivity.
Qed.

(** A poll enters the initialization step only when it finds the task in
    status CREATED. *)
Lemma initialization_only_when_created (p : Providers) (task : ImageTask) :
  jseq (status task) CREATED = false ->
  filter is_initialization (snd (pollTask p task)) = [].
Proof.
  intros H. unfold pollTask. rewrite H.
  destruct (freepikTaskId task) as [[|c h]|]; try reflexivity.
  destruct (checkStatus p task). reflexivity.
Qed.

(** A failure of the initialization step is stored and returned at once,
    and the provider's status is not asked for. *)
Lemma initialization_failure_is_stored (p : Providers) (task : ImageTask) :
  jseq (status task) CREATED = true ->
  initialization_fails p = true ->
  exists message task',
    fst (pollTask p task) = (task', failed_response (ErrText message))
    /\ status task' = FAILED
    /\ error task' = Some (ErrText message)
    /\ freepikTaskId task' = freepikTaskId task
    /\ initializations (snd (pollTask p task)) = 1.
Proof.
  intros Hc Hf. unfold pollTask, initialize, initialization_fails in *.
  rewrite Hc.
  destruct (enhance p) as [e|st stt bd em ra|content]; cbn.
  - eexists _, _. repeat split.
  - eexists _, _. repeat split.
  - destruct (submit p) as [e|st stt bd em ra|imageData]; cbn.
    + eexists _, _. repeat split.
    + eexists _, _. repeat split.
    + destruct (sub_task_id imageData) as [[|c h]|]; cbn in Hf |- *;
        try discriminate Hf; eexists _, _; repeat split.
Qed.

(** A task that failed without a provider handle is never polled further:
    every later poll leaves it as it is and makes no provider call. *)
Lemma polls_without_handle (ps : list Providers) (task : ImageTask) :
  jseq (status task) CREATED = false ->
  truthy (freepikTaskId task) = false ->
  pollMany ps task = (task, map (fun _ => current_response task) ps, []).
Proof.
  intros Hs Hh. induction ps as [|p ps IH]; [reflexivity|].
  cbn [pollMany map].
  assert (Hp : pollTask p task = (task, current_response task, [])).
  { unfold pollTask. rewrite Hs.
    destruct (freepikTaskId task) as [[|c h]|]; try reflexivity.
    discriminate Hh. }
  rewrite Hp, IH. reflexivity.
Qed.

(** C1, as stated, fails: a finished job with a provider handle is taken to
    the provider again, and when the provider answers [IN_PROGRESS] the
    stored status leaves the terminal states and the stored record
    changes. *)
Lemma finished_job_regresses :
  terminal (status finishedTask) = true
  /\ status (fst (fst (pollTask inProgress finishedTask))) = str "IN_PROGRESS"
  /\ terminal (status (fst (fst (pollTask inProgress finishedTask)))) = false
  /\ cache_get (str "task_1")
       (snd (fst (getImageStatus configured inProgress (str "task_1")
                    [(str "task_1", finishedTask)])))
     <> Some finishedTask.
Proof.
  vm_compute. repeat split. intros H. discriminate H.
Qed.

Lemma cache_get_set_same (taskId : jsstring) (t : ImageTask) (cache : TaskCache) :
  cache_get taskId (cache_set taskId t cache) = Some t.
Proof.
  induction cache as [|[k t'] cache IH]; simpl.
  - now rewrite jseq_refl.
  - destruct (jseq taskId k) eqn:E; simpl.
    + now rewrite jseq_refl.
    + now rewrite E.
Qed.

Lemma cache_set_same (taskId : jsstring) (t : ImageTask) (cache : TaskCache) :
  cache_get taskId cache = Some t -> cache_set taskId t cache = cache.
Proof.
  induction cache as [|[k t'] cache IH]; simpl; [discriminate|].
  destruct (jseq taskId k) eqn:E.
  - apply jseq_true in E. subst k. intros H. inversion H. reflexivity.
  - intros H. now rewrite IH.
Qed.

(** With both credentials set, a poll of a task of the cache is a poll of
    that task, written back under its identifier. *)
Lemma getImageStatus_polls (env : Env) (p : Providers) (taskId : jsstring)
    (cache : TaskCache) (task : ImageTask) :
  FREEPIK_API_KEY env = true ->
  OPENROUTER_API_KEY env = true ->
  taskId <> [] ->
  cache_get taskId cache = Some task ->
  getImageStatus env p taskId cache
  = (snd (fst (pollTask p task)),
     cache_set taskId (fst (fst (pollTask p task))) cache,
     snd (pollTask p task)).
Proof.
  intros Hf Ho Hid Hget. unfold getImageStatus. rewrite Hf, Ho, Hget. simpl.
  destruct taskId as [|ch rest]; [congruence|].
  now destruct (pollTask p task) as [[t r] cs].
Qed.

(** C1 (amended): a poll of a job whose stored status is terminal never
    enters the initialization step.  When the job has no provider handle,
    the poll makes no provider call, leaves the stored record as it is and
    returns the stored status, image and error, however often it is
    repeated.  When the job has a handle, the poll asks the provider for the
    status of that handle once: an answer that is not OK (a rate limit or an
    error) leaves the stored record as it is, and an OK answer sets the
    stored status to what the provider reports. *)
Theorem poll_of_terminal_job (env : Env) (p : Providers) (taskId : jsstring)
    (cache : TaskCache) (task : ImageTask) :
  FREEPIK_API_KEY env = true ->
  OPENROUTER_API_KEY env = true ->
  taskId <> [] ->
  cache_get taskId cache = Some task ->
  terminal (status task) = true ->
  exists response cache' calls,
    getImageStatus env p taskId cache = (response, cache', calls)
    /\ filter is_initialization calls = []
    /\ (truthy (freepikTaskId task) = false ->
        cache' = cache /\ response = current_response task /\ calls = []
        /\ forall ps,
             pollMany ps task
             = (task, map (fun _ => current_response task) ps, []))
    /\ (forall c h,
          freepikTaskId task = Some (c :: h) ->
          calls = [CallStatus (c :: h)]
          /\ match check p with
             | HttpOk statusData =>
                 option_map status (cache_get taskId cache')
                 = Some (reported_status statusData)
             | _ => cache' = cache
             end).
Proof.
  intros Hf Ho Hid Hget Ht. pose proof (terminal_not_created _ Ht) as Hc.
  eexists _, _, _.
  split; [apply getImageStatus_polls with (task := task); assumption|].
  split; [now apply initialization_only_when_created|].
  split.
  - intros Hh.
    pose proof (@polls_without_handle [p] task Hc Hh) as H1.
    cbn [pollMany map] in H1.
    destruct (pollTask p task) as [[t r] cs]. rewrite app_nil_r in H1.
    inversion H1; subst. cbn [fst snd].
    repeat split; [now apply cache_set_same|].
    intros ps. now apply polls_without_handle.
  - intros c h Hh. unfold pollTask. rewrite Hc, Hh.
    unfold checkStatus, reported_status.
    destruct (check p) as [e|st stt bd em ra|statusData]; cbn.
    + split; [reflexivity|now apply cache_set_same].
    + destruct (N.eqb st 429); (split; [reflexivity|now apply cache_set_same]).
    + rewrite cache_get_set_same. cbn.
      destruct (jseq (or_else (sd_status statusData) []) COMPLETED).
      * destruct (sd_generated statusData); split; reflexivity.
      * destruct (jseq (or_else (sd_status statusData) []) FAILED);
          split; reflexivity.
Qed.

(** C4 (the code departs from the claim): a job is submitted and polled
    twice while the image provider reports the new job in status [CREATED].
    The first poll initializes the job and then stores the provider's
    status, [CREATED], over its own; the second poll finds [CREATED] and
    runs the initialization again: the prompt is enhanced twice and the job
    is handed to the image provider twice. *)
Theorem initialization_runs_twice :
  cache_get (str "task_1") submittedCache
  = Some (mkImageTask (str "a poster") None None CREATED None None)
  /\ snd (getImageStatus configured accepting (str "task_1") submittedCache)
     = [CallEnhance (str "a poster"); CallSubmit (str "a detailed poster");
        CallStatus (str "h1")]
  /\ option_map status
       (cache_get (str "task_1")
          (snd (fst (getImageStatus configured accepting (str "task_1")
                       submittedCache))))
     = Some CREATED
  /\ snd (getImageStatus configured accepting (str "task_1")
            (snd (fst (getImageStatus configured accepting (str "task_1")
                         submittedCache))))
     = [CallEnhance (str "a poster"); CallSubmit (str "a detailed poster");
        CallStatus (str "h1")]
  /\ initializations
       (snd (pollMany [accepting; accepting]
               (mkImageTask (str "a poster") None None CREATED None None)))
     = 2.
Proof. vm_compute. repeat split. Qed.

(** ** The properties at concrete inputs *)

Lemma sampleWorld_wf : store_wf sampleWorld.
Proof.
  unfold store_wf, keys_below; simpl.
  repeat split; repeat (constructor; try lia).
Qed.

Lemma empty_world_wf : store_wf empty_world.
Proof. unfold store_wf, keys_below; simpl. repeat split; constructor. Qed.

Lemma empty_world_invalid : all_invalid empty_world.
Proof. constructor. Qed.

Lemma poll_of_terminal_job_witness :
  terminal (status finishedTask) = true
  /\ exists response cache',
       getImageStatus configured inProgress (str "task_1")
         [(str "task_1", finishedTask)]
       = (response, cache', [CallStatus (str "h1")])
       /\ option_map status (cache_get (str "task_1") cache')
          = Some (str "IN_PROGRESS").
Proof.
  split; [reflexivity|].
  destruct (@poll_of_terminal_job configured inProgress (str "task_1")
              [(str "task_1", finishedTask)] finishedTask eq_refl eq_refl
              ltac:(discriminate) eq_refl eq_refl)
    as (response & cache' & calls & Hrun & _ & _ & H3).
  destruct (H3 104%N (str "1") eq_refl) as (Hcalls & Hstatus).
  exists response, cache'. rewrite Hcalls in Hrun. split; [exact Hrun|].
  exact Hstatus.
Defined.

Lemma import_outcome_witness :
  store_wf empty_world
  /\ (fst (uploadContacts (Sheet sampleRows) empty_world) = FormatError
      <-> sampleRows = [])
  /\ exists created valid invalid w',
       uploadContacts (Sheet sampleRows) empty_world
       = (UploadOk (firstn 10 (map validated created)) (length sampleRows)
            valid invalid (map c_id created), w')
       /\ length created = length sampleRows.
Proof.
  split; [exact empty_world_wf|].
  destruct (@import_outcome sampleRows empty_world empty_world_wf)
    as (H1 & _ & _ & H4).
  split; [exact H1|].
  destruct (H4 _ _ eq_refl eq_refl eq_refl)
    as (created & valid & invalid & w' & Hrun & Hlen & _).
  exists created, valid, invalid, w'. split; assumption.
Defined.

Lemma dispatch_records_every_valid_contact_witness :
  store_wf sampleWorld
  /\ map_get 0 (campaigns sampleWorld) = Some sampleCampaign
  /\ exists sentCount failedCount w' created,
       postCampaignSend (Some sampleApi) 0 sampleWorld
       = (SendOk sentCount failedCount 2, w')
       /\ sentCount + failedCount = 2
       /\ length created = 2
       /\ map er_contactId created = [1; 2].
Proof.
  split; [exact sampleWorld_wf|]. split; [reflexivity|].
  destruct (@dispatch_records_every_valid_contact sampleApi 0 sampleWorld
              sampleCampaign sampleWorld_wf eq_refl)
    as (s & f & w' & created & H1 & H2 & _ & H4 & H5 & _).
  exists s, f, w', created. repeat split; assumption.
Defined.

Lemma dispatch_completes_the_campaign_witness :
  store_wf sampleWorld
  /\ map_get 0 (campaigns sampleWorld) = Some sampleCampaign
  /\ exists sentCount failedCount total w',
       postCampaignSend (Some (rejecting NonError)) 0 sampleWorld
       = (SendOk sentCount failedCount total, w')
       /\ map_get 0 (campaigns w')
          = Some (completed sampleCampaign sentCount failedCount)
       /\ sentCount = 0 /\ failedCount = 2.
Proof.
  split; [exact sampleWorld_wf|]. split; [reflexivity|].
  destruct (@dispatch_completes_the_campaign (rejecting NonError) 0 sampleWorld
              sampleCampaign sampleWorld_wf eq_refl)
    as (s & f & t & w' & H1 & H2 & H3).
  exists s, f, t, w'. split; [exact H1|]. split; [exact H2|].
  apply H3. reflexivity.
Defined.

Lemma personalized_texts_have_no_placeholder_witness :
  name_safe (to_text (c_name ann)) = true
  /\ contains placeholder (rq_subject (emailRequest sampleCampaign ann)) = false
  /\ contains placeholder (rq_textContent (emailRequest sampleCampaign ann))
     = false
  /\ name_safe (str "Ca$h") = true
  /\ forall template,
       contains placeholder (personalize template (str "Ca$h")) = false.
Proof.
  assert (Ha : name_safe (to_text (c_name ann)) = true)
    by (vm_compute; reflexivity).
  assert (Hc : name_safe (str "Ca$h") = true) by (vm_compute; reflexivity).
  destruct (@personalized_texts_have_no_placeholder sampleCampaign ann)
    as (_ & _ & H & Hall).
  destruct (H Ha) as (H1 & H2).
  destruct (Hall (str "Ca$h")) as ((Hsafe & _) & _).
  repeat split; try assumption. exact (Hsafe Hc).
Defined.

Lemma validity_is_reported_but_not_stored_witness :
  store_wf empty_world
  /\ all_invalid empty_world
  /\ exists preview ids w1,
       uploadContacts (Sheet sampleRows) empty_world
       = (UploadOk preview 3 2 1 ids, w1)
       /\ 2 = length (filter (full_match emailRegex)
                        (map email_of_row sampleRows))
       /\ all_invalid w1.
Proof.
  split; [exact empty_world_wf|]. split; [exact empty_world_invalid|].
  destruct (uploadContacts (Sheet sampleRows) empty_world)
    as [[preview total valid invalid ids|code err] w1] eqn:E.
  - pose proof E as E'. vm_compute in E'. inversion E'; subst.
    eexists _, _, _. split; [reflexivity|].
    destruct (@validity_is_reported_but_not_stored sampleRows empty_world
                [] [] sampleApi empty_world_wf empty_world_invalid)
      as (_ & H).
    destruct (H _ _ _ _ _ _ E) as (Hv & Hi & _).
    split; assumption.
  - exfalso. vm_compute in E. discriminate E.
Defined.

Lemma refused_dispatch_leaves_campaign_sending_witness :
  store_wf sampleWorld
  /\ map_get 0 (campaigns sampleWorld) = Some sampleCampaign
  /\ exists w1,
       postCampaignSend None 0 sampleWorld = (ServiceUnavailableError, w1)
       /\ map_get 0 (campaigns w1) = Some (stranded sampleCampaign)
       /\ map_get 0
            (campaigns
               (serveAll (mkConfig None true)
                  [SendCampaign 0; CampaignResults 0; SendCampaign 0] w1))
          = Some (stranded sampleCampaign).
Proof.
  split; [exact sampleWorld_wf|]. split; [reflexivity|].
  destruct (@refused_dispatch_leaves_campaign_sending 0 sampleWorld
              sampleCampaign sampleWorld_wf eq_refl)
    as (w1 & H1 & H2 & _ & _ & _ & H6).
  exists w1. split; [exact H1|]. split; [exact H2|].
  apply H6. reflexivity.
Defined.

(* ================================================================== *)
(** * Further properties of the code *)

Import LegacyImage Client Auth Props2.

(** ** Regular expressions and the strings they stand for *)

Lemma nullable_matches (r : regex) : nullable r = true <-> matches r [].
Proof.
  induction r as [| |p|a IHa b IHb|a IHa b IHb|a IHa]; simpl.
  - split; [discriminate|]. intros H. inversion H.
  - split; [constructor|reflexivity].
  - split; [discriminate|]. intros H. inversion H.
  - rewrite andb_true_iff, IHa, IHb. split.
    + intros [Ha Hb]. change (@nil code_unit) with (@nil code_unit ++ []).
      now constructor.
    + intros H. inversion H as [| |a' b' s t Hs Ht Heq| | | |]; subst.
      destruct s; [|discriminate]. destruct t; [|discriminate]. now split.
  - rewrite orb_true_iff, IHa, IHb. split.
    + intros [H | H]; [now apply MAltL | now apply MAltR].
    + intros H. inversion H; subst; tauto.
  - split; [constructor|reflexivity].
Qed.

Lemma matches_Cat_inv (a b : regex) (w : jsstring) :
  matches (Cat a b) w ->
  exists u v, w = u ++ v /\ matches a u /\ matches b v.
Proof. intros H. inversion H; subst. eauto. Qed.

Lemma matches_cat (a b : regex) (s : jsstring) :
  matches (cat a b) s <-> matches (Cat a b) s.
Proof.
  split.
  - destruct a; simpl; try (intros H; inversion H; fail);
      destruct b; simpl; try (intros H; inversion H; fail); auto;
      intros H; change s with ([] ++ s); constructor; auto; constructor.
  - intros H. inversion H as [| |a' b' u v Hu Hv| | | |]; subst.
    destruct a; simpl; try (inversion Hu; fail);
      destruct b; simpl; try (inversion Hv; fail); auto;
      inversion Hu; subst; simpl; auto.
Qed.

Lemma matches_alt (a b : regex) (s : jsstring) :
  matches (alt a b) s <-> matches (Alt a b) s.
Proof.
  split.
  - destruct a; simpl; try (intros H; now apply MAltR);
      destruct b; simpl; auto; intros H; now apply MAltL.
  - intros H. inversion H; subst.
    + destruct a; simpl; try (match goal with G : matches Empty _ |- _ =>
                                inversion G end);
        destruct b; simpl; auto; now apply MAltL.
    + destruct a; simpl; auto;
        destruct b; simpl; try (match goal with G : matches Empty _ |- _ =>
                                  inversion G end); now apply MAltR.
Qed.

Lemma matches_star_cons (a : regex) (c : code_unit) (s : jsstring) :
  matches (Star a) (c :: s) ->
  exists s1 s2, s = s1 ++ s2 /\ matches a (c :: s1) /\ matches (Star a) s2.
Proof.
  intros H. remember (Star a) as r eqn:Er. remember (c :: s) as w eqn:Ew.
  revert s Ew.
  induction H as [| | | | | |a' u v Hu _ Hv IHv]; intros rest Ew;
    try discriminate.
  inversion Er; subst a'.
  destruct u as [|x u].
  - simpl in Ew. apply IHv; auto.
  - simpl in Ew. inversion Ew; subst. exists u, v. auto.
Qed.

Lemma matches_deriv (r : regex) :
  forall c s, matches (deriv c r) s <-> matches r (c :: s).
Proof.
  induction r as [| |p|a IHa b IHb|a IHa b IHb|a IHa]; intros c s; simpl.
  - split; intros H; inversion H.
  - split; intros H; inversion H.
  - destruct (p c) eqn:E; split; intros H; inversion H; subst.
    + now constructor.
    + constructor.
    + congruence.
  - assert (Hcat : matches (cat (deriv c a) b) s <->
                   exists u v, s = u ++ v /\ matches a (c :: u) /\ matches b v).
    { rewrite matches_cat. split.
      - intros H. inversion H; subst. eexists _, _. split; [reflexivity|].
        split; [now apply IHa|assumption].
      - intros (u & v & -> & Hu & Hv). constructor; [now apply IHa|assumption]. }
    assert (Hsplit : matches (Cat a b) (c :: s) <->
                     (exists u v, s = u ++ v /\ matches a (c :: u) /\ matches b v)
                     \/ (matches a [] /\ matches b (c :: s))).
    { split.
      - intros H. apply matches_Cat_inv in H.
        destruct H as (u & v & Heq & Hu & Hv).
        destruct u as [|x u].
        + right. simpl in Heq. subst v. auto.
        + left. simpl in Heq. inversion Heq; subst. eauto.
      - intros [(u & v & -> & Hu & Hv) | [Hu Hv]].
        + change (c :: u ++ v) with ((c :: u) ++ v). now constructor.
        + change (c :: s) with ([] ++ c :: s). now constructor. }
    rewrite Hsplit.
    destruct (nullable a) eqn:En.
    + rewrite matches_alt. split.
      * intros H. inversion H; subst; [left; now apply Hcat|].
        right. split; [now apply nullable_matches|now apply IHb].
      * intros [H | [_ H]]; [apply MAltL; now apply Hcat|].
        apply MAltR. now apply IHb.
    + rewrite Hcat. split; [auto|]. intros [H | [H _]]; [exact H|].
      apply nullable_matches in H. congruence.
  - rewrite matches_alt. split.
    + intros H. inversion H; subst; [apply MAltL; now apply IHa|].
      apply MAltR; now apply IHb.
    + intros H. inversion H; subst; [apply MAltL; now apply IHa|].
      apply MAltR; now apply IHb.
  - rewrite matches_cat. split.
    + intros H. inversion H; subst.
      change (c :: s0 ++ t) with ((c :: s0) ++ t).
      constructor; [now apply IHa|assumption].
    + intros H. apply matches_star_cons in H.
      destruct H as (u & v & -> & Hu & Hv).
      constructor; [now apply IHa|assumption].
Qed.

(** [full_match] decides membership. *)
Lemma full_match_matches (s : jsstring) :
  forall r, full_match r s = true <-> matches r s.
Proof.
  induction s as [|c t IH]; intros r; simpl.
  - apply nullable_matches.
  - rewrite IH. apply matches_deriv.
Qed.

Lemma matches_star_class (p : code_unit -> bool) (s : jsstring) :
  matches (Star (Cls p)) s <-> forallb p s = true.
Proof.
  split.
  - intros H. remember (Star (Cls p)) as r eqn:Er.
    induction H as [| | | | | |a u v Hu _ Hv IHv]; try discriminate;
      [reflexivity|].
    inversion Er; subst a. inversion Hu; subst. simpl.
    rewrite IHv by reflexivity. now rewrite andb_true_r.
  - induction s as [|c t IH]; simpl; [constructor|].
    intros H. apply andb_true_iff in H. destruct H as [Hc Ht].
    change (c :: t) with ([c] ++ t). constructor; [now constructor|auto].
Qed.

Lemma matches_plus_class (p : code_unit -> bool) (s : jsstring) :
  matches (plus (Cls p)) s <-> s <> [] /\ forallb p s = true.
Proof.
  unfold plus. split.
  - intros H. apply matches_Cat_inv in H.
    destruct H as (u & v & -> & Hu & Hv).
    inversion Hu; subst. apply matches_star_class in Hv. simpl.
    split; [discriminate|]. now rewrite Hv, andb_true_r.
  - intros [Hne H]. destruct s as [|c t]; [congruence|]. simpl in H.
    apply andb_true_iff in H. destruct H as [Hc Ht].
    change (c :: t) with ([c] ++ t).
    constructor; [now constructor|now apply matches_star_class].
Qed.

Lemma matches_chr (c : code_unit) (s : jsstring) :
  matches (chr c) s <-> s = [c].
Proof.
  unfold chr. split.
  - intros H. inversion H; subst. f_equal.
    symmetry. now apply N.eqb_eq.
  - intros ->. constructor. apply N.eqb_refl.
Qed.

Lemma email_matches_shape (email : jsstring) :
  full_match emailRegex email = true <-> address_shape email.
Proof.
  rewrite full_match_matches.
  unfold emailRegex, address_shape. cbv zeta. fold part_char. unfold part.
  split.
  - intros H.
    apply matches_Cat_inv in H. destruct H as (loc & r1 & -> & Hloc & H).
    apply matches_Cat_inv in H. destruct H as (at_ & r2 & -> & Hat & H).
    apply matches_Cat_inv in H. destruct H as (dom & r3 & -> & Hdom & H).
    apply matches_Cat_inv in H. destruct H as (dot_ & tld & -> & Hdot & Htld).
    apply matches_chr in Hat, Hdot. subst.
    apply matches_plus_class in Hloc, Hdom, Htld.
    exists loc, dom, tld. simpl. auto.
  - intros (loc & dom & tld & -> & Hloc & Hdom & Htld).
    apply matches_plus_class in Hloc, Hdom, Htld.
    constructor; [exact Hloc|].
    change (64%N :: dom ++ 46%N :: tld) with ([64%N] ++ dom ++ [46%N] ++ tld).
    constructor; [now apply matches_chr|].
    constructor; [exact Hdom|].
    constructor; [now apply matches_chr|exact Htld].
Qed.

(** X1: [validateContacts] returns one copy per contact, in order, with
    the identifier, name, address and campaign of the contact, and flags it
    valid exactly when the text of its address is a part, an [@], a part, a
    dot and a part, where a part is a non-empty run of characters that are
    neither white space nor [@]; the store is left as it is. *)
Theorem validation_flags_address_shape (cs : list Contact) (w : World) :
  exists vs,
    validateContacts cs w = (Ret vs, w)
    /\ length vs = length cs
    /\ forall i c,
         nth_error cs i = Some c ->
         exists v,
           nth_error vs i = Some v
           /\ c_id v = c_id c /\ c_name v = c_name c
           /\ c_email v = c_email c /\ c_campaignId v = c_campaignId c
           /\ (c_isValid v = true <-> address_shape (to_text (c_email c))).
Proof.
  eexists. split; [reflexivity|]. split; [apply length_map|].
  intros i c Hi. eexists. split; [apply map_nth_error; exact Hi|].
  cbn [c_id c_name c_email c_campaignId c_isValid].
  repeat split; try reflexivity; apply email_matches_shape.
Qed.


(** ** Stored contacts *)






(** ** Creating a campaign *)

Lemma attach_idempotent (cid : Id) (c : Contact) :
  attach cid (attach cid c) = attach cid c.
Proof. reflexivity. Qed.

Lemma map_set_keys_present {V} (m : JsMap V) (k : Id) (v v0 : V) :
  map_get k m = Some v0 -> map_keys (map_set k v m) = map_keys m.
Proof.
  unfold map_keys. induction m as [|[k0 x] m IH]; simpl; [discriminate|].
  destruct (Nat.eqb k k0) eqn:E; simpl; intros H.
  - apply Nat.eqb_eq in E. now subst.
  - now rewrite IH.
Qed.

Lemma updateContact_attach (id cid : Id) (w : World) (c : Contact) :
  map_get id (contacts w) = Some c ->
  updateContact id (mkContactUpdates (Some (Some cid)) None) w
  = (Ret (attach cid c),
     set_contacts (map_set id (attach cid c) (contacts w)) w).
Proof.
  intros H. unfold updateContact, bind, get_world, modify, ret. now rewrite H.
Qed.

Lemma updateContact_missing (id : Id) (u : ContactUpdates) (w : World) :
  map_get id (contacts w) = None ->
  updateContact id u w = (Throw (not_found "Contact" id), w).
Proof.
  intros H. unfold updateContact, bind, get_world, throw. now rewrite H.
Qed.

Lemma attached_to_nil (cid : Id) (w : World) : attached_to cid [] w w.
Proof. unfold attached_to. repeat split. Qed.

Lemma attached_to_step (cid g : Id) (gs : list Id) (w w' : World) (c : Contact) :
  map_get g (contacts w) = Some c ->
  attached_to cid gs (set_contacts (map_set g (attach cid c) (contacts w)) w) w' ->
  attached_to cid (g :: gs) w w'.
Proof.
  intros Hg (H1 & H2 & H3 & H4 & H5 & H6 & H7). cbn in *.
  unfold attached_to. repeat split; auto.
  - rewrite H6. eapply map_set_keys_present; eassumption.
  - intros k. rewrite H7. unfold listed. cbn [existsb].
    destruct (Nat.eqb_spec k g) as [->|Hne]; cbn [orb].
    + rewrite map_get_set_same, Hg. cbn.
      now destruct (existsb (Nat.eqb g) gs).
    + now rewrite map_get_set_other by exact Hne.
Qed.

(** The contacts that are in the store are attached one after the other;
    the loop goes on with what follows them. *)
Lemma attachContacts_prefix (cid : Id) (good : list Id) :
  forall w,
    Forall (present w) good ->
    exists w1,
      attached_to cid good w w1
      /\ forall more,
           attachContacts (good ++ more) cid w = attachContacts more cid w1.
Proof.
  induction good as [|g gs IH]; intros w Hp.
  - exists w. split; [apply attached_to_nil|reflexivity].
  - inversion Hp as [|g' gs' Hg Hgs]; subst.
    unfold present in Hg.
    destruct (map_get g (contacts w)) as [c|] eqn:E; [|congruence].
    set (w0 := set_contacts (map_set g (attach cid c) (contacts w)) w).
    destruct (IH w0) as (w1 & Hatt & Hrun).
    { eapply Forall_impl; [|exact Hgs]. unfold present, w0. cbn.
      intros k Hk. destruct (Nat.eq_dec k g) as [->|Hne].
      - rewrite map_get_set_same. discriminate.
      - now rewrite map_get_set_other. }
    exists w1. split; [eapply attached_to_step; eassumption|].
    intros more. cbn [app attachContacts].
    erewrite bind_run_ret by (apply updateContact_attach; exact E).
    apply Hrun.
Qed.

Lemma createCampaign_run (ic : InsertCampaign) (w : World) :
  createCampaign ic w
  = (Ret (mkCampaign (uuids w) (icp_subject ic) (icp_message ic)
            (default (icp_totalContacts ic) 0) (default (icp_sentCount ic) 0)
            (default (icp_failedCount ic) 0) (default (icp_status ic) Pending)),
     mkWorld (contacts w)
       (map_set (uuids w)
          (mkCampaign (uuids w) (icp_subject ic) (icp_message ic)
             (default (icp_totalContacts ic) 0) (default (icp_sentCount ic) 0)
             (default (icp_failedCount ic) 0) (default (icp_status ic) Pending))
          (campaigns w))
       (emailResults w) (aiMessages w) (S (uuids w)) (outbox w)).
Proof. reflexivity. Qed.

(** X3: when every listed contact is in the store, creating a campaign
    answers with the new campaign (pending, counters at zero, as many
    contacts as identifiers listed), stores it after the campaigns that were
    there, and attaches the listed contacts to it; the other contacts, the
    order of the contacts and the rest of the store are as before. *)
Theorem campaign_creation_attaches_contacts (subject message : jsstring)
    (contactIds : list Id) (w : World) :
  store_wf w ->
  Forall (present w) contactIds ->
  exists w',
    postCampaign subject message contactIds w
    = (CampaignOk (new_campaign (uuids w) subject message contactIds), w')
    /\ campaigns w'
       = campaigns w
         ++ [(uuids w, new_campaign (uuids w) subject message contactIds)]
    /\ uuids w' = S (uuids w)
    /\ emailResults w' = emailResults w
    /\ outbox w' = outbox w
    /\ map_keys (contacts w') = map_keys (contacts w)
    /\ forall k,
         map_get k (contacts w')
         = if listed k contactIds
           then option_map (attach (uuids w)) (map_get k (contacts w))
           else map_get k (contacts w).
Proof.
  intros (_ & Hp & _) Hall.
  unfold postCampaign, try_catch.
  erewrite bind_run_ret by apply createCampaign_run.
  cbn [default cp_id]. fold (new_campaign (uuids w) subject message contactIds).
  rewrite map_set_fresh by exact Hp.
  unfold bind at 1.
  match goal with |- context [attachContacts _ _ ?w0] => set (w1 := w0) end.
  destruct (@attachContacts_prefix (uuids w) contactIds w1) as (w2 & Hatt & Hrun).
  { exact Hall. }
  specialize (Hrun []). rewrite app_nil_r in Hrun.
  rewrite Hrun. cbn.
  destruct Hatt as (H1 & H2 & H3 & H4 & H5 & H6 & H7). cbn in *.
  exists w2. repeat split; auto.
Qed.

(** X4: creating a campaign is not undone when a listed contact is
    missing: the answer is the error 500, but the campaign is stored all
    the same, and the contacts listed before the missing one are attached
    to it. *)
Theorem campaign_creation_is_not_atomic (subject message : jsstring)
    (good : list Id) (missing : Id) (rest : list Id) (w : World) :
  store_wf w ->
  Forall (present w) good ->
  map_get missing (contacts w) = None ->
  exists w',
    postCampaign subject message (good ++ missing :: rest) w
    = (CampaignError 500 (str "Failed to create campaign"), w')
    /\ map_get (uuids w) (campaigns w')
       = Some (new_campaign (uuids w) subject message (good ++ missing :: rest))
    /\ forall k,
         map_get k (contacts w')
         = if listed k good
           then option_map (attach (uuids w)) (map_get k (contacts w))
           else map_get k (contacts w).
Proof.
  intros (_ & Hp & _) Hall Hmiss.
  unfold postCampaign, try_catch.
  erewrite bind_run_ret by apply createCampaign_run.
  cbn [default cp_id].
  fold (new_campaign (uuids w) subject message (good ++ missing :: rest)).
  unfold bind at 1.
  match goal with |- context [attachContacts _ _ ?w0] => set (w1 := w0) end.
  destruct (@attachContacts_prefix (uuids w) good w1) as (w2 & Hatt & Hrun).
  { exact Hall. }
  specialize (Hrun (missing :: rest)).
  destruct Hatt as (H1 & H2 & H3 & H4 & H5 & H6 & H7). cbn in H1, H7.
  assert (Hm2 : map_get missing (contacts w2) = None).
  { rewrite H7, Hmiss. now destruct (listed missing good). }
  rewrite Hrun. cbn [attachContacts].
  erewrite bind_run_throw by (apply updateContact_missing; exact Hm2).
  exists w2. split; [reflexivity|]. split; [|exact H7].
  rewrite H1. apply map_get_set_same.
Qed.

(** ** More on the dispatcher *)

Lemma postCampaignSend_unknown (brevo : option Provider) (id : Id) (w : World) :
  map_get id (campaigns w) = None ->
  postCampaignSend brevo id w = (NotFoundError, w).
Proof.
  intros E. unfold postCampaignSend, try_catch, bind, getCampaign.
  now rewrite E.
Qed.

Lemma postCampaignSend_refused (id : Id) (w : World) (campaign : Campaign) :
  map_get id (campaigns w) = Some campaign ->
  postCampaignSend None id w
  = (ServiceUnavailableError,
     set_campaigns (map_set id (stranded campaign) (campaigns w)) w).
Proof.
  intros Hc. unfold postCampaignSend, try_catch, bind at 1, getCampaign.
  rewrite Hc. unfold updateCampaign, bind, get_world, modify, ret.
  now rewrite Hc.
Qed.

(** X5: on a well-formed store the dispatch route never answers 500: it
    answers 404 for an unknown campaign and leaves the store as it is, 503
    for a known campaign when the provider is not set, and the tally
    otherwise. *)
Theorem dispatch_answers (brevo : option Provider) (id : Id) (w : World) :
  store_wf w ->
  match map_get id (campaigns w), brevo with
  | None, _ => postCampaignSend brevo id w = (NotFoundError, w)
  | Some _, None => fst (postCampaignSend brevo id w) = ServiceUnavailableError
  | Some _, Some _ =>
      exists sentCount failedCount,
        fst (postCampaignSend brevo id w)
        = SendOk sentCount failedCount (length (validContactsOf id w))
  end.
Proof.
  intros (_ & _ & He & _). destruct (map_get id (campaigns w)) as [c|] eqn:E.
  - destruct brevo as [api|].
    + pose proof (@postCampaignSend_run api id w c He E) as Hrun.
      cbv zeta in Hrun. eexists _, _. now rewrite Hrun.
    + now rewrite postCampaignSend_refused with (campaign := c) by exact E.
  - now apply postCampaignSend_unknown.
Qed.

Lemma In_filter_valid (id : Id) (w : World) (c : Contact) :
  In c (validContactsOf id w) ->
  In c (map_values (contacts w))
  /\ c_isValid c = true /\ c_campaignId c = Some id.
Proof.
  unfold validContactsOf, attached. rewrite !filter_In.
  intros [[Hin Hs] Hv]. repeat split; auto.
  unfold same_campaign in Hs. destruct (c_campaignId c) as [i|]; [|discriminate].
  apply Nat.eqb_eq in Hs. now subst.
Qed.

(** X6: a dispatch hands the provider, after the requests handed over
    before, exactly the requests of the valid contacts of the campaign, one
    per contact and in the order of the store: the request at a position
    goes to the address and the name of the contact at that position, with
    the subject and the message of the campaign personalized with the name
    of that very contact.  The valid contacts of the campaign are the
    stored contacts of this campaign whose validity flag is true, so nobody
    else is written to; the contacts are left as they are. *)
Theorem dispatch_writes_to_valid_contacts_only (api : Provider) (id : Id)
    (w : World) (campaign : Campaign) :
  store_wf w ->
  map_get id (campaigns w) = Some campaign ->
  outbox (snd (postCampaignSend (Some api) id w))
  = outbox w ++ map (emailRequest campaign) (validContactsOf id w)
  /\ contacts (snd (postCampaignSend (Some api) id w)) = contacts w
  /\ (forall i c,
        nth_error (validContactsOf id w) i = Some c ->
        exists rq,
          nth_error (outbox (snd (postCampaignSend (Some api) id w)))
            (length (outbox w) + i)
          = Some rq
          /\ rq_toEmail rq = c_email c
          /\ rq_toName rq = c_name c
          /\ rq_subject rq
             = personalize (cp_subject campaign) (to_text (c_name c))
          /\ rq_textContent rq
             = personalize (cp_message campaign) (to_text (c_name c))
          /\ rq_htmlContent rq = htmlContent (rq_textContent rq))
  /\ length (outbox (snd (postCampaignSend (Some api) id w)))
     = length (outbox w) + length (validContactsOf id w)
  /\ forall c,
       In c (validContactsOf id w)
       <-> In c (map_values (contacts w))
           /\ c_isValid c = true /\ c_campaignId c = Some id.
Proof.
  intros (_ & _ & He & _) Hc.
  pose proof (@postCampaignSend_run api id w campaign He Hc) as Hrun.
  cbv zeta in Hrun. rewrite Hrun. cbn [snd outbox contacts].
  split; [reflexivity|]. split; [reflexivity|]. split; [|split].
  - intros i c Hi. exists (emailRequest campaign c). split.
    + rewrite nth_error_app2 by lia.
      replace (length (outbox w) + i - length (outbox w)) with i by lia.
      now apply map_nth_error.
    + cbn [emailRequest rq_toEmail rq_toName rq_subject rq_textContent
             rq_htmlContent]. repeat split.
  - now rewrite length_app, length_map.
  - intros c. split; [apply In_filter_valid|].
    intros (Hin & Hv & Hcamp). unfold validContactsOf, attached.
    rewrite !filter_In. repeat split; auto.
    unfold same_campaign. rewrite Hcamp. apply Nat.eqb_refl.
Qed.

Lemma results_of_app (id : Id) (m : JsMap EmailResult) (rs : list EmailResult) :
  Forall (fun r => er_campaignId r = id) rs ->
  filter (fun result => Nat.eqb (er_campaignId result) id)
    (map_values (m ++ entries er_id rs))
  = filter (fun result => Nat.eqb (er_campaignId result) id) (map_values m)
    ++ rs.
Proof.
  intros H. unfold map_values, entries. rewrite map_app, filter_app, map_map.
  cbn [snd]. rewrite map_id. f_equal.
  induction H as [|r rs Hr _ IH]; [reflexivity|]. simpl.
  rewrite Hr, Nat.eqb_refl. now f_equal.
Qed.

Lemma filter_failed_count (rs : list EmailResult) :
  length (filter is_failed rs) = count_failed rs.
Proof. reflexivity. Qed.

(** X7: the results route, asked after a dispatch, shows the campaign
    as completed with the counters the dispatch returned, and lists the
    results the campaign had before followed by one new result per valid
    contact; the new results among its failed ones are as many as the
    dispatch counted as failed.  The results route changes nothing. *)
Theorem results_after_dispatch (api : Provider) (id : Id) (w : World)
    (campaign : Campaign) :
  store_wf w ->
  map_get id (campaigns w) = Some campaign ->
  exists sentCount failedCount total w' created,
    postCampaignSend (Some api) id w = (SendOk sentCount failedCount total, w')
    /\ getCampaignResults id w'
       = (ResultsOk (completed campaign sentCount failedCount)
            (results_of id w ++ created) (cp_totalContacts campaign)
            sentCount failedCount
            (filter is_failed (results_of id w) ++ filter is_failed created),
          w')
    /\ length created = total
    /\ length (filter is_failed created) = failedCount
    /\ map er_contactId created = map c_id (validContactsOf id w).
Proof.
  intros (_ & _ & He & _) Hc.
  pose proof (@postCampaignSend_run api id w campaign He Hc) as Hrun.
  cbv zeta in Hrun.
  set (created := dispatch_results api campaign id (length (outbox w))
                    (uuids w) (validContactsOf id w)) in *.
  destruct (dispatch_results_contacts api campaign id (length (outbox w))
              (uuids w) (validContactsOf id w)) as (H1 & H2 & H3).
  fold created in H1, H2, H3.
  eexists _, _, _, _, created. split; [exact Hrun|].
  split; [|split; [apply dispatch_results_length|split; [reflexivity|exact H1]]].
  unfold getCampaignResults, try_catch, bind, getCampaign,
    getEmailResultsByCampaign, ret.
  cbn [campaigns emailResults]. rewrite map_get_set_same.
  rewrite results_of_app by exact H3. fold (results_of id w).
  rewrite filter_app. reflexivity.
Qed.

(** X8: a second dispatch of the same campaign is not held back: it
    hands the provider the requests for the same contacts again and adds
    one more result per valid contact, and the stored counters are those of
    the second dispatch alone. *)
Theorem second_dispatch_sends_again (api api' : Provider) (id : Id)
    (w : World) (campaign : Campaign) :
  store_wf w ->
  map_get id (campaigns w) = Some campaign ->
  exists s1 f1 s2 f2 w1 w2 created1 created2,
    postCampaignSend (Some api) id w
    = (SendOk s1 f1 (length (validContactsOf id w)), w1)
    /\ postCampaignSend (Some api') id w1
       = (SendOk s2 f2 (length (validContactsOf id w)), w2)
    /\ emailResults w2
       = emailResults w ++ entries er_id created1 ++ entries er_id created2
    /\ map er_contactId created1 = map c_id (validContactsOf id w)
    /\ map er_contactId created2 = map c_id (validContactsOf id w)
    /\ outbox w2
       = outbox w ++ map (emailRequest campaign) (validContactsOf id w)
         ++ map (emailRequest campaign) (validContactsOf id w)
    /\ map_get id (campaigns w2) = Some (completed campaign s2 f2)
    /\ s2 = count_sent created2 /\ f2 = count_failed created2.
Proof.
  intros Hwf Hc. pose proof Hwf as (_ & _ & He & _).
  pose proof (@postCampaignSend_run api id w campaign He Hc) as Hrun.
  cbv zeta in Hrun.
  set (created1 := dispatch_results api campaign id (length (outbox w))
                     (uuids w) (validContactsOf id w)) in *.
  match type of Hrun with _ = (_, ?x) => set (w1 := x) in * end.
  assert (Hwf1 : store_wf w1).
  { pose proof (@wf_postCampaignSend (Some api) id w Hwf) as H.
    now rewrite Hrun in H. }
  assert (Hc1 : map_get id (campaigns w1)
                = Some (completed campaign (count_sent created1)
                          (count_failed created1))).
  { unfold w1. cbn [campaigns]. apply map_get_set_same. }
  assert (Hv : validContactsOf id w1 = validContactsOf id w) by reflexivity.
  destruct Hwf1 as (_ & _ & He1 & _).
  pose proof (@postCampaignSend_run api' id w1 _ He1 Hc1) as Hrun2.
  cbv zeta in Hrun2. rewrite Hv in Hrun2.
  set (created2 := dispatch_results api' _ id (length (outbox w1))
                     (uuids w1) (validContactsOf id w)) in *.
  destruct (dispatch_results_contacts api campaign id (length (outbox w))
              (uuids w) (validContactsOf id w)) as (H1 & _).
  destruct (dispatch_results_contacts api'
              (completed campaign (count_sent created1) (count_failed created1))
              id (length (outbox w1)) (uuids w1) (validContactsOf id w))
    as (H2 & _).
  eexists _, _, _, _, w1, _, created1, created2.
  split; [exact Hrun|]. split; [exact Hrun2|].
  cbn [emailResults outbox campaigns].
  split; [unfold w1; cbn [emailResults]; now rewrite <- app_assoc|].
  split; [exact H1|]. split; [exact H2|].
  split; [unfold w1; cbn [outbox]; now rewrite <- app_assoc|].
  split; [now rewrite map_get_set_same|].
  split; reflexivity.
Qed.

(** ** A process that starts with an empty store *)

Lemma silent_createContact ic : preserves silent (createContact ic).
Proof. intros w H. exact H. Qed.

Lemma silent_createManyContacts ics : preserves silent (createManyContacts ics).
Proof.
  induction ics as [|ic r IH]; simpl.
  - apply preserves_ret.
  - apply preserves_bind; [apply silent_createContact|intros c].
    apply preserves_bind; [exact IH|intros cs]. apply preserves_ret.
Qed.

Lemma silent_updateContact id u : preserves silent (updateContact id u).
Proof.
  intros w H. unfold updateContact, bind, get_world, modify, ret, throw.
  destruct (map_get id (contacts w)); exact H.
Qed.

Lemma silent_attachContacts ids cid : preserves silent (attachContacts ids cid).
Proof.
  induction ids as [|i r IH]; simpl.
  - apply preserves_ret.
  - apply preserves_bind; [apply silent_updateContact|intros _; exact IH].
Qed.

Lemma silent_createCampaign ic : preserves silent (createCampaign ic).
Proof. intros w H. exact H. Qed.

Lemma silent_createAiMessage im : preserves silent (createAiMessage im).
Proof. intros w H. exact H. Qed.

(** While no contact is flagged valid, a dispatch hands nothing to the
    provider and records nothing. *)
Lemma dispatch_without_valid_contacts (brevo : option Provider) (id : Id)
    (w : World) :
  all_invalid w ->
  exists response w',
    postCampaignSend brevo id w = (response, w')
    /\ outbox w' = outbox w /\ emailResults w' = emailResults w.
Proof.
  intros Hinv.
  destruct (map_get id (campaigns w)) as [c|] eqn:E.
  - unfold postCampaignSend, try_catch, bind at 1, getCampaign. rewrite E.
    unfold updateCampaign at 1, bind at 1, bind at 1, get_world.
    rewrite E. unfold bind at 1, modify, ret at 1.
    unfold bind at 1, getContactsByCampaign.
    cbn [contacts set_campaigns]. fold (attached id w).
    fold (validContactsOf id w).
    rewrite (all_invalid_no_valid_contacts id Hinv).
    destruct brevo as [api|]; [|eexists _, _; repeat split].
    cbn [sendLoop]. unfold bind at 1, ret at 1.
    unfold updateCampaign, bind, get_world, modify, ret.
    cbn [campaigns set_campaigns]. rewrite map_get_set_same.
    eexists _, _. repeat split.
  - unfold postCampaignSend, try_catch, bind, getCampaign. rewrite E.
    eexists _, _. repeat split.
Qed.

Lemma silent_serve (cfg : Config) (r : Request) (w : World) :
  all_invalid w -> silent w -> silent (serve cfg r w).
Proof.
  intros Hinv. destruct r as [file|subject message ids|i|i|mt idea response];
    simpl.
  - unfold uploadContacts. apply preserves_try_catch.
    destruct file as [|e|[|firstRow rest]];
      try apply preserves_ret; try apply preserves_throw.
    cbv zeta. destruct (negb _ || negb _); [apply preserves_ret|].
    apply preserves_bind; [apply silent_createManyContacts|intros cs].
    apply preserves_bind; [apply preserves_ret|intros vs].
    apply preserves_ret.
  - unfold postCampaign. apply preserves_try_catch.
    apply preserves_bind; [apply silent_createCampaign|intros x].
    apply preserves_bind; [apply silent_attachContacts|intros _].
    apply preserves_ret.
  - intros [Ho He].
    destruct (@dispatch_without_valid_contacts (brevoApi cfg) i w Hinv)
      as (r & w' & Hrun & Ho' & He').
    rewrite Hrun. split; cbn [snd]; congruence.
  - unfold getCampaignResults. apply preserves_try_catch.
    apply preserves_bind; [apply preserves_get|intros x].
    apply preserves_bind; [apply preserves_get|intros rs].
    destruct x; apply preserves_ret.
  - unfold postAiMessage. apply preserves_try_catch.
    destruct (negb _); [apply preserves_ret|].
    destruct response; try apply preserves_throw.
    cbv zeta.
    apply preserves_bind; [apply silent_createAiMessage|intros m].
    apply preserves_ret.
Qed.

(** X9: in a process that starts with an empty store, whatever requests
    are served and whatever the configuration is, no contact is ever stored
    with a true validity flag, no request is ever handed to the e-mail
    provider and no result is ever recorded: every dispatch answers with
    zero recipients. *)
Theorem no_email_is_ever_sent (cfg : Config) (rs : list Request) :
  all_invalid (serveAll cfg rs empty_world)
  /\ outbox (serveAll cfg rs empty_world) = []
  /\ emailResults (serveAll cfg rs empty_world) = []
  /\ forall api id,
       map_get id (campaigns (serveAll cfg rs empty_world)) <> None ->
       fst (postCampaignSend (Some api) id (serveAll cfg rs empty_world))
       = SendOk 0 0 0.
Proof.
  assert (H : forall w, store_wf w -> all_invalid w -> silent w ->
                        store_wf (serveAll cfg rs w)
                        /\ all_invalid (serveAll cfg rs w)
                        /\ silent (serveAll cfg rs w)).
  { induction rs as [|r rs IH]; intros w Hwf Hinv Hs; simpl; [auto|].
    apply IH; [now apply wf_serve|now apply invalid_serve|
               now apply silent_serve]. }
  destruct (H empty_world empty_world_wf empty_world_invalid)
    as (Hwf & Hinv & Ho & He); [split; reflexivity|].
  repeat split; auto.
  intros api id Hid.
  destruct (map_get id (campaigns (serveAll cfg rs empty_world)))
    as [c|] eqn:E; [|congruence].
  destruct Hwf as (_ & _ & Hk & _).
  pose proof (@postCampaignSend_run api id _ c Hk E) as Hrun.
  cbv zeta in Hrun.
  rewrite (all_invalid_no_valid_contacts id Hinv) in Hrun.
  now rewrite Hrun.
Qed.

(** ** More on personalization *)

Lemma replaceAll_from_absent (pattern name : jsstring) (s : jsstring) :
  forall before,
    contains pattern s = false ->
    Replace.replaceAll_from pattern name before 0 s = s.
Proof.
  induction s as [|c t IH]; intros before H; [reflexivity|].
  cbn [contains] in H. apply orb_false_iff in H. destruct H as [H1 H2].
  cbn [Replace.replaceAll_from]. rewrite H1. f_equal. now apply IH.
Qed.

(** X10: a subject or a message without the placeholder is sent as it
    is, whatever the name of the recipient is. *)
Theorem text_without_placeholder_is_kept (campaign : Campaign)
    (contact : Contact) :
  (contains placeholder (cp_subject campaign) = false ->
   rq_subject (emailRequest campaign contact) = cp_subject campaign)
  /\ (contains placeholder (cp_message campaign) = false ->
      rq_textContent (emailRequest campaign contact) = cp_message campaign).
Proof.
  cbn [emailRequest rq_subject rq_textContent].
  unfold personalize, Replace.replaceAll.
  split; intros H; now apply replaceAll_from_absent.
Qed.

(** ** Counting words *)

Lemma nonempty_word (c : code_unit) (s : jsstring) :
  (0 <? len (c :: s))%Z = true.
Proof. reflexivity. Qed.

Lemma split_from_count (s : jsstring) :
  forall piece in_gap,
    (in_gap = true -> piece = []) ->
    length (filter (fun word => (0 <? len word)%Z) (split_from piece in_gap s))
    = (match piece with [] => 0 | _ :: _ => 1 end)
      + word_starts (match piece with [] => false | _ :: _ => true end) s.
Proof.
  induction s as [|c t IH]; intros piece in_gap Hg.
  - cbn [split_from filter word_starts].
    destruct piece; [reflexivity|]. now rewrite nonempty_word.
  - cbn [split_from word_starts]. destruct (is_space c) eqn:Ec.
    + destruct in_gap.
      * rewrite (Hg eq_refl). now rewrite IH by reflexivity.
      * cbn [filter]. destruct piece as [|p ps].
        -- change ((0 <? len [])%Z) with false. cbv iota.
           now rewrite IH by reflexivity.
        -- rewrite nonempty_word. cbn [length].
           now rewrite IH by reflexivity.
    + rewrite IH by discriminate.
      destruct piece; cbn [app]; reflexivity.
Qed.

Lemma wordCountOf_word_starts (s : jsstring) :
  wordCountOf s = word_starts false s.
Proof.
  unfold wordCountOf, split_whitespace.
  rewrite split_from_count by discriminate. reflexivity.
Qed.

Lemma word_starts_app (a : jsstring) :
  forall in_word sp b,
    is_space sp = true ->
    word_starts in_word (a ++ sp :: b)
    = word_starts in_word a + word_starts false b.
Proof.
  induction a as [|c t IH]; intros in_word sp b Hsp; simpl.
  - now rewrite Hsp.
  - destruct (is_space c); rewrite IH by exact Hsp; lia.
Qed.

Lemma word_starts_bound (s : jsstring) :
  forall in_word, word_starts in_word s <= length s.
Proof.
  induction s as [|c t IH]; intros in_word; simpl; [lia|].
  destruct (is_space c).
  - specialize (IH false). lia.
  - specialize (IH true). destruct in_word; lia.
Qed.

Lemma word_starts_zero (s : jsstring) :
  word_starts false s = 0 <-> forallb is_space s = true.
Proof.
  induction s as [|c t IH]; simpl; [tauto|].
  destruct (is_space c); simpl; [exact IH|].
  split; [lia|discriminate].
Qed.

(** X11: the word count of a text is the number of its maximal runs of
    characters that are not white space: the counts of two texts joined by
    a white-space character add up, a text has no word exactly when it is
    white space throughout, and there are never more words than
    characters. *)
Theorem word_count_counts_runs (s : jsstring) :
  wordCountOf s = word_starts false s
  /\ (forall a sp b,
        is_space sp = true ->
        wordCountOf (a ++ sp :: b) = wordCountOf a + wordCountOf b)
  /\ (wordCountOf s = 0 <-> forallb is_space s = true)
  /\ wordCountOf s <= length s.
Proof.
  split; [apply wordCountOf_word_starts|]. split; [|split].
  - intros a sp b Hsp. rewrite !wordCountOf_word_starts.
    now apply word_starts_app.
  - rewrite wordCountOf_word_starts. apply word_starts_zero.
  - rewrite wordCountOf_word_starts. apply word_starts_bound.
Qed.

(** ** The text probes *)

Lemma prefix_match_app (s b : jsstring) :
  forall r, prefix_match r s = true -> prefix_match r (s ++ b) = true.
Proof.
  induction s as [|c t IH]; intros r H.
  - cbn [prefix_match] in H. rewrite orb_false_r in H.
    destruct b; cbn [app prefix_match]; now rewrite H.
  - cbn [app prefix_match] in *. apply orb_true_iff in H.
    destruct H as [H | H]; [now rewrite H|].
    rewrite (IH _ H). apply orb_true_r.
Qed.

Lemma test_app_r (r : regex) (s b : jsstring) :
  test r s = true -> test r (s ++ b) = true.
Proof.
  induction s as [|c t IH]; intros H.
  - cbn [test] in H. rewrite orb_false_r in H.
    pose proof (prefix_match_app [] b r H) as G. cbn [app] in *.
    destruct b; cbn [test]; now rewrite G.
  - cbn [app test] in *. apply orb_true_iff in H.
    destruct H as [H | H].
    + pose proof (prefix_match_app (c :: t) b r H) as G. cbn [app] in G.
      now rewrite G.
    + rewrite (IH H). apply orb_true_r.
Qed.

Lemma test_app_l (r : regex) (a s : jsstring) :
  test r s = true -> test r (a ++ s) = true.
Proof.
  intros H. induction a as [|c t IH]; [exact H|].
  cbn [app test]. rewrite IH. apply orb_true_r.
Qed.

Lemma prefix_match_matches (s : jsstring) :
  forall r,
    prefix_match r s = true <-> exists m b, s = m ++ b /\ matches r m.
Proof.
  induction s as [|c t IH]; intros r; cbn [prefix_match].
  - rewrite orb_false_r, nullable_matches. split.
    + intros H. now exists [], [].
    + intros (m & b & Hs & H). symmetry in Hs.
      apply app_eq_nil in Hs. destruct Hs as [-> _]. exact H.
  - rewrite orb_true_iff, nullable_matches, IH. split.
    + intros [H|(m & b & -> & H)].
      * now exists [], (c :: t).
      * exists (c :: m), b. split; [reflexivity|]. now apply matches_deriv.
    + intros (m & b & Hs & H). destruct m as [|c' m].
      * now left.
      * right. cbn [app] in Hs. inversion Hs; subst.
        exists m, b. split; [reflexivity|]. now apply matches_deriv.
Qed.

Lemma test_matches (r : regex) (s : jsstring) :
  test r s = true <-> exists a m b, s = a ++ m ++ b /\ matches r m.
Proof.
  induction s as [|c t IH]; cbn [test].
  - rewrite orb_false_r, prefix_match_matches. split.
    + intros (m & b & Hs & H). now exists [], m, b.
    + intros (a & m & b & Hs & H). symmetry in Hs.
      apply app_eq_nil in Hs. destruct Hs as [-> Hs].
      now exists m, b.
  - rewrite orb_true_iff, prefix_match_matches, IH. split.
    + intros [(m & b & Hs & H)|(a & m & b & -> & H)].
      * now exists [], m, b.
      * now exists (c :: a), m, b.
    + intros (a & m & b & Hs & H). destruct a as [|c' a].
      * left. now exists m, b.
      * right. cbn [app] in Hs. inversion Hs; subst. now exists a, m, b.
Qed.

Lemma app_last_cases (s t m : jsstring) (x : code_unit) :
  s ++ t = m ++ [x] ->
  (t = [] /\ s = m ++ [x]) \/ exists t', t = t' ++ [x].
Proof.
  induction t as [|y t0 _] using rev_ind; intros H.
  - left. rewrite app_nil_r in H. auto.
  - right. rewrite app_assoc in H. apply app_inj_tail in H.
    destruct H as [_ ->]. now exists t0.
Qed.

(** A string of a regular expression that ends with [x] shows in
    [may_end_with]. *)
Lemma matches_last (r : regex) (w : jsstring) :
  matches r w ->
  forall m x, w = m ++ [x] -> may_end_with x r = true.
Proof.
  induction 1 as [|p c Hc|a b s t Hs IHs Ht IHt|a b s Hs IHs|a b s Hs IHs
                  |a|a s t Hs IHs Ht IHt]; intros m x Hw; cbn [may_end_with].
  - destruct m; discriminate Hw.
  - destruct m as [|y m]; [|destruct m; discriminate Hw].
    cbn in Hw. now inversion Hw; subst.
  - destruct (app_last_cases _ _ _ _ Hw) as [[-> ->]|(t' & ->)].
    + apply nullable_matches in Ht. rewrite Ht, (IHs m x eq_refl).
      apply orb_true_r.
    + now rewrite (IHt t' x eq_refl).
  - now rewrite (IHs m x Hw).
  - rewrite (IHs m x Hw). apply orb_true_r.
  - destruct m; discriminate Hw.
  - destruct (app_last_cases _ _ _ _ Hw) as [[-> ->]|(t' & ->)].
    + exact (IHs m x eq_refl).
    + exact (IHt t' x eq_refl).
Qed.

Lemma matches_tested (r : regex) (a m b : jsstring) :
  matches r m -> test r (a ++ m ++ b) = true.
Proof. intros H. apply test_matches. now exists a, m, b. Qed.

(** A match in a text followed by characters that no string of the
    regular expression ends with lies in the text itself. *)
Lemma test_before_tail (r : regex) (t d : jsstring) :
  (forall x, In x d -> may_end_with x r = false) ->
  test r (t ++ d) = true -> test r t = true.
Proof.
  intros Hd H. apply test_matches in H.
  destruct H as (a & m & b & Hs & Hm).
  destruct m as [|x m' _] using rev_ind.
  - apply (@matches_tested r [] [] t) in Hm. exact Hm.
  - pose proof (matches_last Hm m' x eq_refl) as Hx.
    set (u := a ++ m' ++ [x]).
    assert (Hs' : t ++ d = u ++ b)
      by (unfold u; now rewrite Hs, <- !app_assoc).
    assert (Hlen : length u <= length t).
    { destruct (Nat.le_gt_cases (length u) (length t))
        as [Hle|Hgt]; [exact Hle|exfalso].
      assert (Hn : nth_error (t ++ d) (length (a ++ m')) = Some x).
      { rewrite Hs, (app_assoc a (m' ++ [x])), (app_assoc a m'),
          <- (app_assoc (a ++ m')).
        rewrite nth_error_app2 by lia. now rewrite Nat.sub_diag. }
      unfold u in Hgt. rewrite !length_app in Hgt. cbn [length] in Hgt.
      rewrite nth_error_app2 in Hn by (rewrite length_app; lia).
      apply nth_error_In in Hn. rewrite (Hd x Hn) in Hx. discriminate Hx. }
    assert (Hf : firstn (length u) t = u).
    { transitivity (firstn (length u) (t ++ d)).
      - rewrite firstn_app.
        replace (length u - length t) with 0 by lia.
        cbn [firstn]. now rewrite app_nil_r.
      - rewrite Hs', firstn_app, firstn_all, Nat.sub_diag.
        cbn [firstn]. apply app_nil_r. }
    rewrite <- (firstn_skipn (length u) t), Hf. unfold u.
    rewrite <- !app_assoc. rewrite (app_assoc m').
    now apply matches_tested.
Qed.

(** What the limit block leaves: the completion itself, or a beginning of
    it followed by the ellipsis. *)
Lemma enforceLimit_cases (messageType generatedMessage : jsstring) :
  ((len generatedMessage <= limitOf messageType)%Z
   /\ enforceLimit messageType generatedMessage = generatedMessage)
  \/ ((len generatedMessage > limitOf messageType)%Z
      /\ exists t rest,
           generatedMessage = t ++ rest
           /\ enforceLimit messageType generatedMessage = t ++ ellipsis).
Proof.
  destruct (Z.le_gt_cases (len generatedMessage) (limitOf messageType))
    as [Hle|Hgt].
  - left. split; [exact Hle|]. unfold enforceLimit.
    destruct (Z.gtb_spec (len generatedMessage) (limitOf messageType));
      [lia|reflexivity].
  - right. split; [lia|].
    rewrite enforceLimit_overlong by lia.
    eexists _, _. split; [|reflexivity].
    symmetry. apply firstn_skipn.
Qed.

Lemma probe_of_stored_text (r : regex) (messageType generatedMessage : jsstring) :
  may_end_with 46%N r = false ->
  test r (enforceLimit messageType generatedMessage) = true ->
  test r generatedMessage = true.
Proof.
  intros Hr H.
  destruct (enforceLimit_cases messageType generatedMessage)
    as [[_ E]|[_ (t & rest & Hg & E)]]; rewrite E in H; [exact H|].
  rewrite Hg. apply test_app_r. apply test_before_tail with (d := ellipsis).
  - intros x Hx. unfold ellipsis in Hx. cbn [In] in Hx.
    destruct Hx as [<-|[<-|[<-|[]]]]; exact Hr.
  - exact H.
Qed.

(** X12: the four text probes of a report are those of the stored text,
    and the limit block never makes one of them true: a probe that the
    report shows as true holds of the completion itself, and it is then
    shown as true in the report of every longer completion that is not cut
    (a completion of any message type that contains this one and is within
    its own limit).  When the completion is within the limit the probes of
    the report are exactly those of the completion. *)
Theorem reported_probes_hold_of_the_completion (messageType idea : jsstring)
    (content : option jsstring) (w : World) :
  exists aiMessage compliance w',
    postAiMessage true messageType idea (HttpOk content) w
    = (AiOk aiMessage compliance, w')
    /\ am_generatedMessage aiMessage
       = enforceLimit messageType (or_else content [])
    /\ (hasOptOut compliance = true ->
        test optOutRegex (or_else content []) = true)
    /\ (hasBusinessName compliance = true ->
        test businessNameRegex (or_else content []) = true)
    /\ (hasCTA compliance = true -> test ctaRegex (or_else content []) = true)
    /\ (hasLocation compliance = true ->
        test locationRegex (or_else content []) = true)
    /\ ((len (or_else content []) <= limitOf messageType)%Z ->
        compliance = complianceOf messageType (or_else content []))
    /\ forall messageType' idea' before after w0,
         (len (before ++ or_else content [] ++ after)
          <= limitOf messageType')%Z ->
         exists aiMessage' compliance' w0',
           postAiMessage true messageType' idea'
             (HttpOk (Some (before ++ or_else content [] ++ after))) w0
           = (AiOk aiMessage' compliance', w0')
           /\ (hasOptOut compliance = true -> hasOptOut compliance' = true)
           /\ (hasBusinessName compliance = true ->
               hasBusinessName compliance' = true)
           /\ (hasCTA compliance = true -> hasCTA compliance' = true)
           /\ (hasLocation compliance = true ->
               hasLocation compliance' = true).
Proof.
  assert (Run : forall mt i c w1,
            exists aiMessage w1',
              postAiMessage true mt i (HttpOk c) w1
              = (AiOk aiMessage (complianceOf mt (enforceLimit mt (or_else c []))),
                 w1')
              /\ am_generatedMessage aiMessage = enforceLimit mt (or_else c [])).
  { intros mt i c w1. unfold postAiMessage, try_catch. cbn [negb].
    unfold bind, createAiMessage, bind, randomUUID, modify, ret.
    cbn. eexists _, _. split; reflexivity. }
  destruct (Run messageType idea content w) as (aiMessage & w' & Hrun & Htext).
  exists aiMessage,
    (complianceOf messageType (enforceLimit messageType (or_else content []))),
    w'.
  split; [exact Hrun|]. split; [exact Htext|].
  unfold complianceOf at 1 2 3 4.
  cbn [hasOptOut hasBusinessName hasCTA hasLocation].
  assert (P1 : hasOptOut (complianceOf messageType
                            (enforceLimit messageType (or_else content [])))
               = true -> test optOutRegex (or_else content []) = true)
    by (apply probe_of_stored_text; reflexivity).
  assert (P2 : hasBusinessName
                 (complianceOf messageType
                    (enforceLimit messageType (or_else content [])))
               = true -> test businessNameRegex (or_else content []) = true)
    by (apply probe_of_stored_text; reflexivity).
  assert (P3 : hasCTA (complianceOf messageType
                         (enforceLimit messageType (or_else content [])))
               = true -> test ctaRegex (or_else content []) = true)
    by (apply probe_of_stored_text; reflexivity).
  assert (P4 : hasLocation
                 (complianceOf messageType
                    (enforceLimit messageType (or_else content [])))
               = true -> test locationRegex (or_else content []) = true)
    by (apply probe_of_stored_text; reflexivity).
  split; [exact P1|]. split; [exact P2|]. split; [exact P3|].
  split; [exact P4|]. split.
  - intros Hle.
    destruct (enforceLimit_cases messageType (or_else content []))
      as [[_ E]|[Hgt _]]; [now rewrite E|lia].
  - intros mt' i' before after w0 Hle.
    destruct (Run mt' i' (Some (before ++ or_else content [] ++ after)) w0)
      as (aiMessage' & w0' & Hrun' & _).
    eexists aiMessage', _, w0'. split; [exact Hrun'|].
    assert (E : enforceLimit mt'
                  (or_else (Some (before ++ or_else content [] ++ after)) [])
                = before ++ or_else content [] ++ after).
    { assert (O : or_else (Some (before ++ or_else content [] ++ after)) []
                  = before ++ or_else content [] ++ after)
        by (destruct (before ++ or_else content [] ++ after); reflexivity).
      rewrite O.
      destruct (enforceLimit_cases mt' (before ++ or_else content [] ++ after))
        as [[_ E]|[Hgt _]]; [exact E|lia]. }
    rewrite E. unfold complianceOf at 1 3 5 7.
    cbn [hasOptOut hasBusinessName hasCTA hasLocation].
    repeat split; intros H; apply test_app_l, test_app_r; auto.
Qed.

(** ** More on the image-job tracker *)

Lemma cache_get_set_other (k taskId : jsstring) (t : ImageTask)
    (cache : TaskCache) :
  k <> taskId -> cache_get k (cache_set taskId t cache) = cache_get k cache.
Proof.
  intros Hk. induction cache as [|[k0 t0] cache IH]; simpl.
  - apply jseq_false in Hk. now rewrite Hk.
  - destruct (jseq taskId k0) eqn:E; simpl.
    + apply jseq_true in E. subst k0.
      apply jseq_false in Hk. now rewrite Hk.
    + now rewrite IH.
Qed.

Lemma cache_set_keys (taskId : jsstring) (t t0 : ImageTask) (cache : TaskCache) :
  cache_get taskId cache = Some t0 ->
  map fst (cache_set taskId t cache) = map fst cache.
Proof.
  induction cache as [|[k0 t1] cache IH]; simpl; [discriminate|].
  destruct (jseq taskId k0) eqn:E; simpl; intros H.
  - apply jseq_true in E. now subst.
  - now rewrite IH.
Qed.

(** X13: an image job is accepted exactly when both credentials are set
    and the description is not blank.  An accepted job is stored under the
    generated identifier in status CREATED with the description as its
    prompt, without a provider handle, and the other jobs are as before; a
    refused request leaves the cache as it is. *)
Theorem job_submission (env : Env) (imageDescription : option jsstring)
    (generatedTaskId : jsstring) (cache : TaskCache) :
  (code (fst (startImage env imageDescription generatedTaskId cache)) = 200%N
   <-> FREEPIK_API_KEY env = true /\ OPENROUTER_API_KEY env = true
       /\ exists d, imageDescription = Some d /\ blank d = false)
  /\ (forall d,
        FREEPIK_API_KEY env = true -> OPENROUTER_API_KEY env = true ->
        imageDescription = Some d -> blank d = false ->
        b_taskId (body (fst (startImage env imageDescription generatedTaskId
                               cache)))
        = Some generatedTaskId
        /\ cache_get generatedTaskId
             (snd (startImage env imageDescription generatedTaskId cache))
           = Some (mkImageTask d None None CREATED None None)
        /\ forall k,
             k <> generatedTaskId ->
             cache_get k
               (snd (startImage env imageDescription generatedTaskId cache))
             = cache_get k cache)
  /\ (code (fst (startImage env imageDescription generatedTaskId cache))
      <> 200%N ->
      snd (startImage env imageDescription generatedTaskId cache) = cache).
Proof.
  unfold startImage.
  destruct (FREEPIK_API_KEY env), (OPENROUTER_API_KEY env); cbn [negb];
    try (split; [split; [intros H; discriminate H|intros (H1 & H2 & _);
                         discriminate]
                |split; [intros d H1 H2; discriminate|reflexivity]]).
  destruct imageDescription as [[|c d]|].
  - split; [split; [intros H; discriminate H|]|split].
    + intros (_ & _ & d & Hd & Hb). inversion Hd; subst. discriminate Hb.
    + intros d _ _ Hd Hb. inversion Hd; subst. discriminate Hb.
    + reflexivity.
  - destruct (blank (c :: d)) eqn:Eb.
    + split; [split; [intros H; discriminate H|]|split].
      * intros (_ & _ & d' & Hd & Hb). inversion Hd; subst. congruence.
      * intros d' _ _ Hd Hb. inversion Hd; subst. congruence.
      * reflexivity.
    + split; [split; [intros _|reflexivity]|split].
      * repeat split. exists (c :: d). auto.
      * intros d' _ _ Hd _. inversion Hd; subst. cbn [fst snd body b_taskId].
        split; [reflexivity|]. split; [apply cache_get_set_same|].
        intros k Hk. now apply cache_get_set_other.
      * intros H. cbn in H. congruence.
  - split; [split; [intros H; discriminate H|]|split].
    + intros (_ & _ & d & Hd & _). discriminate Hd.
    + intros d _ _ Hd. discriminate Hd.
    + reflexivity.
Qed.

(** X14: a poll touches one job at most: the identifiers of the cache
    and their order are as before and every other job is unchanged.  A poll
    for an identifier that is not in the cache answers 404 (503 when a
    credential is missing), makes no provider call and leaves the cache as
    it is. *)
Theorem poll_touches_one_job (env : Env) (p : Providers) (taskId : jsstring)
    (cache : TaskCache) :
  map fst (snd (fst (getImageStatus env p taskId cache))) = map fst cache
  /\ (forall k,
        k <> taskId ->
        cache_get k (snd (fst (getImageStatus env p taskId cache)))
        = cache_get k cache)
  /\ (cache_get taskId cache = None ->
      snd (fst (getImageStatus env p taskId cache)) = cache
      /\ snd (getImageStatus env p taskId cache) = []
      /\ (FREEPIK_API_KEY env = true -> OPENROUTER_API_KEY env = true ->
          taskId <> [] ->
          code (fst (fst (getImageStatus env p taskId cache))) = 404%N)).
Proof.
  unfold getImageStatus.
  destruct (FREEPIK_API_KEY env), (OPENROUTER_API_KEY env); cbn [negb];
    try (repeat split; auto; intros; congruence).
  destruct taskId as [|ch tid]; [repeat split; auto; intros; congruence|].
  destruct (cache_get (ch :: tid) cache) as [task|] eqn:E.
  - destruct (pollTask p task) as [[t r] cs]. cbn [fst snd].
    split; [eapply cache_set_keys; eassumption|].
    split; [intros k Hk; now apply cache_get_set_other|].
    intros H. discriminate H.
  - cbn [fst snd]. repeat split; auto.
Qed.

Lemma pollTask_with_handle (p : Providers) (task : ImageTask)
    (c : code_unit) (h : jsstring) :
  jseq (status task) CREATED = false ->
  freepikTaskId task = Some (c :: h) ->
  pollTask p task
  = (fst (checkStatus p task), snd (checkStatus p task), [CallStatus (c :: h)]).
Proof.
  intros Hs Hh. unfold pollTask. rewrite Hs, Hh.
  now destruct (checkStatus p task).
Qed.

(** X15: when the image provider does not answer OK to the status
    request of a job (that has a handle and is past its initialization),
    the stored job is left as it is.  A 429 of the provider is passed on as
    a 429 with status RATE_LIMITED and the delay of the provider's
    Retry-After header, 30 when there is none; anything else is answered
    with 500 and status ERROR. *)
Theorem provider_trouble_leaves_the_job (p : Providers) (task : ImageTask)
    (c : code_unit) (h : jsstring) :
  jseq (status task) CREATED = false ->
  freepikTaskId task = Some (c :: h) ->
  match check p with
  | HttpOk _ => True
  | HttpNotOk st _ _ _ retryAfter =>
      fst (fst (pollTask p task)) = task
      /\ b_status (body (snd (fst (pollTask p task))))
         = Some (if N.eqb st 429 then str "RATE_LIMITED" else str "ERROR")
      /\ code (snd (fst (pollTask p task)))
         = (if N.eqb st 429 then 429 else 500)%N
      /\ (st = 429%N ->
          b_retryAfter (body (snd (fst (pollTask p task))))
          = Some (or_else retryAfter (str "30")))
  | FetchThrew _ =>
      fst (fst (pollTask p task)) = task
      /\ code (snd (fst (pollTask p task))) = 500%N
      /\ b_status (body (snd (fst (pollTask p task)))) = Some (str "ERROR")
  end.
Proof.
  intros Hs Hh. rewrite (pollTask_with_handle p task Hs Hh). cbn [fst snd].
  unfold checkStatus.
  destruct (check p) as [e|st stt bd em ra|sd]; [| |exact I].
  - repeat split.
  - destruct (N.eqb_spec st 429) as [->|Hne]; repeat split.
    intros H. congruence.
Qed.

Lemma extractError_not_empty (statusData : StatusData) :
  extractError statusData <> ErrText [].
Proof.
  unfold extractError.
  destruct (sd_error statusData) as [[[|c s]|[[|c s]|]]|]; try discriminate;
    destruct (sd_dataMessage statusData) as [[|c1 s1]|];
    try discriminate;
    destruct (sd_message statusData) as [[|c2 s2]|]; discriminate.
Qed.

(** X16: when the provider answers OK to the status request of such a
    job: a completed job with assets is stored as COMPLETED with the first
    asset as its image, and the answer carries that image and the enhanced
    prompt (the original one when there is none); a completed job without
    assets and a failed job are stored as FAILED with an error that is
    never an empty text, the fixed text [Image generation failed] when the
    provider gives no message at all; any other status is stored as the
    provider words it and answered without an image. *)
Theorem provider_answer_is_stored (p : Providers) (task : ImageTask)
    (c : code_unit) (h : jsstring) (statusData : StatusData) :
  jseq (status task) CREATED = false ->
  freepikTaskId task = Some (c :: h) ->
  check p = HttpOk statusData ->
  exists task' response,
    pollTask p task = (task', response, [CallStatus (c :: h)])
    /\ code response = 200%N
    /\ status task' = reported_status statusData
    /\ b_status (body response) = Some (status task')
    /\ originalPrompt task' = originalPrompt task
    /\ freepikTaskId task' = freepikTaskId task
    /\ (status task' = COMPLETED ->
        exists url rest,
          sd_generated statusData = url :: rest
          /\ imageUrl task' = Some url
          /\ b_imageUrl (body response) = Some url
          /\ b_enhancedPrompt (body response)
             = Some (or_else (enhancedPrompt task) (originalPrompt task)))
    /\ (status task' = FAILED ->
        exists e,
          error task' = Some e /\ b_error (body response) = Some e
          /\ e <> ErrText []
          /\ (jseq (or_else (sd_status statusData) []) FAILED = true ->
              sd_error statusData = None ->
              sd_dataMessage statusData = None ->
              sd_message statusData = None ->
              e = ErrText (str "Image generation failed")))
    /\ (status task' <> COMPLETED -> status task' <> FAILED ->
        task' = set_status (status task') task
        /\ b_imageUrl (body response) = None).
Proof.
  intros Hs Hh Hc. rewrite (pollTask_with_handle p task Hs Hh).
  unfold checkStatus, reported_status. rewrite Hc.
  destruct (jseq (or_else (sd_status statusData) []) COMPLETED) eqn:E1.
  - destruct (sd_generated statusData) as [|url rest] eqn:Eg;
      eexists _, _; (split; [reflexivity|]); cbn;
      (repeat split; try congruence);
      try (intros HX; vm_compute in HX; discriminate HX); intros _.
    + eexists. repeat split; try discriminate.
      intros HF. apply jseq_true in E1, HF. rewrite E1 in HF.
      discriminate HF.
    + exists url, rest. auto.
  - destruct (jseq (or_else (sd_status statusData) []) FAILED) eqn:E2.
    + eexists _, _. split; [reflexivity|]. cbn.
      repeat split; try congruence;
        try (intros HX; vm_compute in HX; discriminate HX).
      intros _. eexists. repeat split.
      * apply extractError_not_empty.
      * intros _ H1 H2 H3. unfold extractError. now rewrite H1, H2, H3.
    + eexists _, _. split; [reflexivity|]. cbn.
      assert (Hn1 : or_else (sd_status statusData) PROCESSING <> COMPLETED).
      { intros H. destruct (sd_status statusData) as [[|x y]|]; cbn in *;
          try discriminate. rewrite H in E1. discriminate E1. }
      assert (Hn2 : or_else (sd_status statusData) PROCESSING <> FAILED).
      { intros H. destruct (sd_status statusData) as [[|x y]|]; cbn in *;
          try discriminate. rewrite H in E2. discriminate E2. }
      repeat split; try congruence; intros; congruence.
Qed.

(** A poll enters the initialization exactly when the stored status is
    CREATED. *)
Lemma next_poll_initializes (p : Providers) (task : ImageTask) :
  filter is_initialization (snd (pollTask p task)) = []
  <-> jseq (status task) CREATED = false.
Proof.
  split; [|apply initialization_only_when_created].
  destruct (jseq (status task) CREATED) eqn:E; [|reflexivity].
  unfold pollTask, initialize. rewrite E.
  destruct (enhance p) as [e|st stt bd em ra|content];
    try (cbn; discriminate).
  destruct (submit p) as [e|st stt bd em ra|imageData];
    try (cbn; discriminate).
  destruct (sub_task_id imageData) as [[|c h]|]; try (cbn; discriminate).
  cbn [freepikTaskId set_status set_freepikTaskId].
  destruct (checkStatus p _). cbn. discriminate.
Qed.

Lemma reported_created (statusData : StatusData) :
  jseq (reported_status statusData) CREATED = true
  <-> sd_status statusData = Some CREATED.
Proof.
  unfold reported_status.
  destruct (sd_status statusData) as [[|x y]|]; cbn [or_else].
  - split; [intros H; vm_compute in H|intros H]; discriminate H.
  - destruct (jseq (x :: y) COMPLETED) eqn:E1.
    + apply jseq_true in E1. rewrite E1.
      split; [|intros H; discriminate H].
      destruct (sd_generated statusData); intros H; vm_compute in H;
        discriminate H.
    + destruct (jseq (x :: y) FAILED) eqn:E2.
      * apply jseq_true in E2. rewrite E2.
        split; intros H; [vm_compute in H|]; discriminate H.
      * rewrite jseq_true. split; [intros ->; reflexivity|].
        intros H. now inversion H.
  - split; [intros H; vm_compute in H|intros H]; discriminate H.
Qed.

(** X17: the first poll of a submitted job, when the prompt enhancement
    and the submission succeed: the prompt is enhanced from the
    description, the enhanced prompt (the description itself when the
    completion is empty) is what is submitted, and the status of the handle
    the provider returned is asked for, in this order; the job keeps its
    description and stores the enhanced prompt and the handle.  When the
    status request fails, the job is left in status COMPLETED when the
    submission reported completion and PENDING otherwise, and the answer is
    not a 200; when it succeeds, the status stored is the one the provider
    reports.  The next poll of the job enters the initialization again
    exactly when the status stored is CREATED, which is the case exactly
    when the status request succeeded and the provider worded the status of
    the job as CREATED. *)
Theorem first_poll_initializes (p : Providers) (task : ImageTask)
    (content : option jsstring) (imageData : SubmitData)
    (c : code_unit) (h : jsstring) :
  jseq (status task) CREATED = true ->
  enhance p = HttpOk content ->
  submit p = HttpOk imageData ->
  sub_task_id imageData = Some (c :: h) ->
  exists task' response,
    pollTask p task
    = (task', response,
       [CallEnhance (originalPrompt task);
        CallSubmit (or_else content (originalPrompt task));
        CallStatus (c :: h)])
    /\ originalPrompt task' = originalPrompt task
    /\ enhancedPrompt task'
       = Some (or_else content (originalPrompt task))
    /\ freepikTaskId task' = Some (c :: h)
    /\ match check p with
       | HttpOk statusData =>
           status task' = reported_status statusData
           /\ (jseq (status task') CREATED = true
               <-> sd_status statusData = Some CREATED)
       | _ =>
           status task'
           = (if jseq (or_else (sub_status imageData) []) COMPLETED
              then COMPLETED else PENDING)
           /\ jseq (status task') CREATED = false
           /\ code response <> 200%N
       end
    /\ forall p',
         filter is_initialization (snd (pollTask p' task')) = []
         <-> jseq (status task') CREATED = false.
Proof.
  intros Hs He Hsub Hid.
  assert (G : exists task' response,
    pollTask p task
    = (task', response,
       [CallEnhance (originalPrompt task);
        CallSubmit (or_else content (originalPrompt task));
        CallStatus (c :: h)])
    /\ originalPrompt task' = originalPrompt task
    /\ enhancedPrompt task'
       = Some (or_else content (originalPrompt task))
    /\ freepikTaskId task' = Some (c :: h)
    /\ match check p with
       | HttpOk statusData => status task' = reported_status statusData
       | _ =>
           status task'
           = (if jseq (or_else (sub_status imageData) []) COMPLETED
              then COMPLETED else PENDING)
           /\ jseq (status task') CREATED = false
           /\ code response <> 200%N
       end).
  { unfold pollTask, initialize.
    rewrite Hs, He, Hsub, Hid. cbn [freepikTaskId set_status set_freepikTaskId
      set_enhancedPrompt originalPrompt app].
    unfold checkStatus, reported_status.
    destruct (check p) as [e|st stt bd em ra|sd].
    - eexists _, _. split; [reflexivity|]. cbn.
      repeat split; try discriminate.
      destruct (jseq _ COMPLETED); reflexivity.
    - destruct (N.eqb st 429); eexists _, _; (split; [reflexivity|]); cbn;
        repeat split; try discriminate;
        destruct (jseq _ COMPLETED); reflexivity.
    - destruct (jseq (or_else (sd_status sd) []) COMPLETED).
      + destruct (sd_generated sd); eexists _, _;
          (split; [reflexivity|]); cbn; repeat split.
      + destruct (jseq (or_else (sd_status sd) []) FAILED);
          eexists _, _; (split; [reflexivity|]); cbn; repeat split. }
  destruct G as (task' & response & Hrun & H1 & H2 & H3 & H4).
  exists task', response.
  split; [exact Hrun|]. split; [exact H1|]. split; [exact H2|].
  split; [exact H3|]. split; [|intros p'; apply next_poll_initializes].
  destruct (check p) as [e|st stt bd em ra|sd]; try exact H4.
  split; [exact H4|]. rewrite H4. apply reported_created.
Qed.

(** ** The route that waits for the image *)

Lemma pollLoop_requests (statuses : nat -> HttpResult StatusData)
    (remaining attempts : nat) :
  snd (pollLoop statuses attempts remaining) <= attempts + remaining.
Proof.
  revert attempts. induction remaining as [|r IH]; intros attempts; simpl.
  - lia.
  - destruct (statuses attempts) as [e|st stt bd em ra|sd]; simpl; try lia.
    destruct (jseq _ COMPLETED).
    + destruct (sd_generated sd); simpl; lia.
    + destruct (jseq _ FAILED); simpl; [lia|].
      specialize (IH (S attempts)). lia.
Qed.

Lemma pollLoop_running (statuses : nat -> HttpResult StatusData)
    (k attempts remaining : nat) :
  (forall j, attempts <= j < attempts + k ->
             still_running (statuses j) = true) ->
  pollLoop statuses attempts (k + remaining)
  = pollLoop statuses (attempts + k) remaining.
Proof.
  revert attempts. induction k as [|k IH]; intros attempts Hj.
  - now rewrite Nat.add_0_r.
  - cbn [Nat.add pollLoop].
    assert (H0 : still_running (statuses attempts) = true) by (apply Hj; lia).
    unfold still_running in H0.
    destruct (statuses attempts) as [e|st stt bd em ra|sd];
      try discriminate.
    apply andb_true_iff in H0. destruct H0 as [H1 H2].
    apply negb_true_iff in H1, H2. rewrite H1, H2.
    rewrite IH by (intros j Hlt; apply Hj; lia).
    f_equal. lia.
Qed.

Lemma generate_requests (a : Answers) (imageDescription : jsstring) :
  snd (generate a imageDescription) <= 60.
Proof.
  unfold generate.
  pose proof (pollLoop_requests (statuses a) LegacyImage.maxAttempts 0) as H.
  remember (pollLoop (statuses a) 0 LegacyImage.maxAttempts) as r eqn:Er.
  clear Er. change LegacyImage.maxAttempts with 60 in H.
  destruct (enhancement a); cbn [fst snd]; try lia.
  destruct (submission a) as [e|st stt bd em ra|sub]; cbn [fst snd]; try lia.
  destruct (truthy (data_task_id sub) || truthy (root_task_id sub));
    cbn [fst snd]; try lia.
  destruct r as [[[|c u]|e] n]; cbn [fst snd Nat.add] in *; lia.
Qed.

(** X18: the route that waits for the image sends the image provider at
    most 60 status requests, whatever the providers answer.  When the
    request is accepted, the prompt enhancement and the submission succeed
    and each of the 60 status answers says that the job is still running,
    the route sends exactly 60 status requests and answers 500 with the
    text [Image generation timed out after 2 minutes]. *)
Theorem waiting_route_gives_up (env : Env) (imageDescription : option jsstring)
    (a : Answers) :
  snd (postGenerateImage env imageDescription a) <= 60
  /\ forall d content sub,
       OPENROUTER_API_KEY env = true -> FREEPIK_API_KEY env = true ->
       imageDescription = Some d -> blank d = false ->
       enhancement a = HttpOk content ->
       submission a = HttpOk sub ->
       truthy (data_task_id sub) || truthy (root_task_id sub) = true ->
       (forall k, k < 60 -> still_running (statuses a k) = true) ->
       postGenerateImage env imageDescription a
       = (ImageError 500 (str "Image generation timed out after 2 minutes"),
          60).
Proof.
  split.
  - unfold postGenerateImage.
    destruct (OPENROUTER_API_KEY env), (FREEPIK_API_KEY env); cbn [negb];
      cbn [fst snd]; try lia.
    destruct imageDescription as [[|c d]|]; cbn [fst snd]; try lia.
    destruct (blank (c :: d)); cbn [fst snd]; try lia.
    pose proof (generate_requests a (c :: d)) as H.
    destruct (generate a (c :: d)) as [[r|e] n]; cbn [fst snd] in *; lia.
  - intros d content sub Ho Hf Hd Hb He Hs Ht Hrun.
    unfold postGenerateImage. rewrite Ho, Hf, Hd. cbn [negb].
    destruct d as [|c d]; [discriminate Hb|]. rewrite Hb.
    unfold generate. rewrite He, Hs, Ht.
    pose proof (@pollLoop_running (statuses a) 60 0 0) as Hp.
    cbn [Nat.add] in Hp. unfold LegacyImage.maxAttempts.
    rewrite Hp by (intros j Hj; apply Hrun; lia).
    reflexivity.
Qed.

(** X19: in the same situation, when the first status answer that is not
    "still running" is the one of attempt [k] (below 60) and reports a
    completed job with assets, the route stops after [k + 1] status
    requests and answers with the description, the enhanced prompt (the
    description when the completion is empty) and the first asset; but
    when that first asset is an empty text the answer is the time-out
    error, although no time ran out. *)
Theorem waiting_route_returns_first_asset (env : Env) (d : jsstring)
    (a : Answers) (content : option jsstring) (sub : Submission)
    (k : nat) (statusData : StatusData) (url : jsstring)
    (rest : list jsstring) :
  OPENROUTER_API_KEY env = true -> FREEPIK_API_KEY env = true ->
  blank d = false ->
  enhancement a = HttpOk content ->
  submission a = HttpOk sub ->
  truthy (data_task_id sub) || truthy (root_task_id sub) = true ->
  k < 60 ->
  (forall j, j < k -> still_running (statuses a j) = true) ->
  statuses a k = HttpOk statusData ->
  sd_status statusData = Some COMPLETED ->
  sd_generated statusData = url :: rest ->
  postGenerateImage env (Some d) a
  = (match url with
     | [] => ImageError 500 (str "Image generation timed out after 2 minutes")
     | _ :: _ => ImageOk d (or_else content d) url
     end, S k).
Proof.
  intros Ho Hf Hb He Hs Ht Hk Hrun Hst Hc Hg.
  unfold postGenerateImage. rewrite Ho, Hf. cbn [negb].
  destruct d as [|c d]; [discriminate Hb|]. rewrite Hb.
  unfold generate. rewrite He, Hs, Ht. unfold LegacyImage.maxAttempts.
  replace 60 with (k + S (59 - k)) by lia.
  rewrite (@pollLoop_running (statuses a) k 0 (S (59 - k)))
    by (intros j Hj; apply Hrun; lia).
  cbn [Nat.add pollLoop]. rewrite Hst, Hc. cbn [or_else COMPLETED].
  change (jseq (or_else (Some COMPLETED) []) COMPLETED) with true.
  cbn iota. rewrite Hg. now destruct url.
Qed.

(** ** The client of the image routes *)

Lemma pollFrom_stops (replies : nat -> Reply) (originalPrompt : jsstring)
    (remaining attempts : nat) :
  exists result waits n,
    pollFrom replies originalPrompt attempts remaining = (result, waits, n)
    /\ ((exists k,
           k < remaining
           /\ (forall j, attempts <= j < attempts + k ->
                         keeps_polling (replies j) = true)
           /\ keeps_polling (replies (attempts + k)) = false
           /\ n = S (attempts + k) /\ length waits = k)
        \/ ((forall j, attempts <= j < attempts + remaining ->
                       keeps_polling (replies j) = true)
            /\ n = attempts + remaining /\ length waits = remaining
            /\ result
               = Failure (ErrorObj
                            (str "Image generation timed out. Please try again.")))).
Proof.
  revert attempts. induction remaining as [|r IH]; intros attempts.
  - eexists _, _, _. split; [reflexivity|]. right.
    repeat split; try lia.
  - cbn [pollFrom].
    assert (Hstop : forall x, keeps_polling (replies attempts) = false ->
              exists result waits n,
                (x, @nil Wait, S attempts) = (result, waits, n)
                /\ ((exists k,
                       k < S r
                       /\ (forall j, attempts <= j < attempts + k ->
                             keeps_polling (replies j) = true)
                       /\ keeps_polling (replies (attempts + k)) = false
                       /\ n = S (attempts + k) /\ length waits = k)
                    \/ ((forall j, attempts <= j < attempts + S r ->
                                   keeps_polling (replies j) = true)
                        /\ n = attempts + S r /\ length waits = S r
                        /\ result
                           = Failure (ErrorObj
                               (str "Image generation timed out. Please try again."))))).
    { intros x Hx. eexists _, _, _. split; [reflexivity|]. left.
      exists 0. rewrite Nat.add_0_r. repeat split; auto; try lia. }
    unfold keeps_polling in Hstop at 1.
    destruct (checkImageStatus (replies attempts)) as [statusResult|e] eqn:Ec.
    + destruct (jseq (or_else (b_status statusResult) []) COMPLETED
                && truthy (b_imageUrl statusResult)) eqn:E1.
      { apply Hstop. reflexivity. }
      destruct (jseq (or_else (b_status statusResult) []) FAILED) eqn:E2.
      { apply Hstop. reflexivity. }
      destruct (IH (S attempts)) as (result & waits & n & Hrun & Hcase).
      rewrite Hrun.
      assert (Hk : keeps_polling (replies attempts) = true).
      { unfold keeps_polling. now rewrite Ec, E1, E2. }
      eexists _, _, _. split; [reflexivity|].
      destruct Hcase as [(k & Hlt & Hall & Hlast & Hn & Hw)
                        |(Hall & Hn & Hw & Hres)].
      * left. exists (S k). repeat split; try lia.
        -- intros j Hj. destruct (Nat.eq_dec j attempts) as [->|Hne]; auto.
           apply Hall. lia.
        -- now replace (attempts + S k) with (S attempts + k) by lia.
        -- simpl. now rewrite Hw.
      * right. repeat split; try lia.
        -- intros j Hj. destruct (Nat.eq_dec j attempts) as [->|Hne]; auto.
           apply Hall. lia.
        -- simpl. now rewrite Hw.
        -- exact Hres.
    + apply Hstop. reflexivity.
Qed.

(** X20: the client polls until the first reply that does not tell it to
    go on (a thrown request, a response that is not OK, a completed job
    with an image, a failed job) and then stops at once, having waited once
    before each further request; when all of 40 replies tell it to go on it
    stops after exactly 40 requests with the error [Image generation timed
    out. Please try again.].  It never sends more than 40 requests. *)
Theorem client_polling_stops (replies : nat -> Reply) (originalPrompt : jsstring) :
  exists result waits n,
    pollImageStatus replies originalPrompt = (result, waits, n)
    /\ n <= 40
    /\ ((exists k,
           n = S k /\ length waits = k
           /\ (forall j, j < k -> keeps_polling (replies j) = true)
           /\ keeps_polling (replies k) = false)
        \/ (n = 40 /\ length waits = 40
            /\ (forall j, j < 40 -> keeps_polling (replies j) = true)
            /\ result
               = Failure (ErrorObj
                            (str "Image generation timed out. Please try again.")))).
Proof.
  unfold pollImageStatus, Client.maxAttempts.
  destruct (pollFrom_stops replies originalPrompt 40 0)
    as (result & waits & n & Hrun & Hcase).
  exists result, waits, n. split; [exact Hrun|].
  destruct Hcase as [(k & Hlt & Hall & Hlast & Hn & Hw)
                    |(Hall & Hn & Hw & Hres)]; cbn [Nat.add] in *.
  - split; [lia|]. left. exists k. repeat split; auto.
    intros j Hj. apply Hall. lia.
  - split; [lia|]. right. repeat split; auto.
    intros j Hj. apply Hall. lia.
Qed.

(** X21: what the client makes of the answer of the status route to the
    poll of a job that has a provider handle.  A provider trouble (the
    rate limit included) ends the polling at once with an error, for a rate
    limit the text [Rate limit exceeded. Please try again in a few
    moments.]: the response is not OK, so the client never waits the delay
    the response carries.  A completed job with a non-empty first asset is
    shown with that asset and the enhanced prompt; with an empty first
    asset the client goes on polling.  A failed job, and a completed one
    without assets, end the polling with an error, and any other status
    makes the client go on polling. *)
Theorem client_reads_the_server_answer (p : Providers) (task : ImageTask)
    (c : code_unit) (h : jsstring) (replies : nat -> Reply)
    (originalPrompt0 : jsstring) :
  jseq (status task) CREATED = false ->
  freepikTaskId task = Some (c :: h) ->
  replies 0 = Replied (snd (fst (pollTask p task))) ->
  match check p with
  | FetchThrew _ =>
      exists e, pollImageStatus replies originalPrompt0 = (Failure e, [], 1)
  | HttpNotOk st _ _ _ _ =>
      exists e,
        pollImageStatus replies originalPrompt0 = (Failure e, [], 1)
        /\ (st = 429%N ->
            e = ErrorObj
                  (str "Rate limit exceeded. Please try again in a few moments."))
  | HttpOk statusData =>
      if jseq (or_else (sd_status statusData) []) COMPLETED then
        match sd_generated statusData with
        | (u :: rl) :: _ =>
            pollImageStatus replies originalPrompt0
            = (Shown (u :: rl)
                 (or_else (Some (or_else (enhancedPrompt task)
                                   (originalPrompt task)))
                    originalPrompt0),
               [], 1)
        | [] :: _ => keeps_polling (replies 0) = true
        | [] =>
            pollImageStatus replies originalPrompt0
            = (Failure (ErrorObj
                          (str "Task completed but no images were generated")),
               [], 1)
        end
      else if jseq (or_else (sd_status statusData) []) FAILED then
        exists e, pollImageStatus replies originalPrompt0 = (Failure e, [], 1)
      else keeps_polling (replies 0) = true
  end.
Proof.
  intros Hs Hh Hr. rewrite (pollTask_with_handle p task Hs Hh) in Hr.
  cbn [fst snd] in Hr. unfold checkStatus in Hr.
  unfold pollImageStatus, Client.maxAttempts, keeps_polling.
  cbn [pollFrom]. rewrite Hr. clear Hr.
  destruct (check p) as [e|st stt bd em ra|sd].
  - eexists. reflexivity.
  - destruct (N.eqb_spec st 429) as [->|Hne].
    + eexists. split; reflexivity.
    + eexists. split; [reflexivity|]. intros H. congruence.
  - destruct (jseq (or_else (sd_status sd) []) COMPLETED) eqn:E1.
    + destruct (sd_generated sd) as [|[|u rl] rest]; reflexivity.
    + destruct (jseq (or_else (sd_status sd) []) FAILED) eqn:E2.
      * eexists. reflexivity.
      * cbn. rewrite andb_false_r. cbn [negb andb].
        destruct (sd_status sd) as [[|x y]|]; cbn in *;
          try reflexivity.
        now rewrite E2.
Qed.

(** ** The authorization middleware *)

Lemma substring_after_bearer (t : jsstring) :
  substring (bearer ++ t) 7 (len (bearer ++ t)) = t.
Proof.
  unfold substring. cbv zeta. set (L := len (bearer ++ t)).
  assert (HL : L = (7 + Z.of_nat (length t))%Z).
  { unfold L, len. rewrite length_app. change (length bearer) with 7%nat.
    lia. }
  replace (Z.min (Z.max 7 0) L) with 7%Z by lia.
  replace (Z.min (Z.max L 0) L) with L by lia.
  replace (Z.min 7 L) with 7%Z by lia.
  replace (Z.max 7 L) with L by lia.
  replace (Z.to_nat (L - 7)) with (length t) by lia.
  change (skipn (Z.to_nat 7) (bearer ++ t)) with t. apply firstn_all.
Qed.

(** X22: the middleware lets a request through, as the user [u], exactly
    when its authorization header is [Bearer ] followed by a token for
    which the identity provider returns the user [u] and no error.  The
    token is everything after the first seven characters, taken as it is.
    In every other case the request is answered 401 and never passed on. *)
Theorem authorization_passes (User : Type)
    (getUser : jsstring -> Outcome (UserAnswer User))
    (authorization : option jsstring) (u : User) :
  authMiddleware getUser authorization = Next u
  <-> exists token answer,
        authorization = Some (bearer ++ token)
        /\ getUser token = Ret answer
        /\ user answer = Some u /\ failed answer = false.
Proof.
  unfold authMiddleware. split.
  - destruct authorization as [[|c h]|]; try discriminate.
    destruct (starts_with bearer (c :: h)) eqn:E; try discriminate.
    apply starts_with_app in E. destruct E as [t Ht]. rewrite Ht.
    rewrite substring_after_bearer.
    destruct (getUser t) as [answer|e] eqn:Eg; try discriminate.
    destruct (user answer) as [u'|] eqn:Eu; try discriminate.
    destruct (failed answer) eqn:Ef; try discriminate.
    intros H. inversion H; subst. exists t, answer. auto.
  - intros (token & answer & -> & Hg & Hu & Hf).
    assert (E : starts_with bearer (bearer ++ token) = true).
    { apply starts_with_app. now exists token. }
    pose proof (substring_after_bearer token) as Hsub.
    destruct (bearer ++ token) as [|c h] eqn:Es; [discriminate Es|].
    rewrite E, Hsub, Hg, Hu, Hf. reflexivity.
Qed.

(** ** The further properties on sample inputs *)

Lemma validation_flags_address_shape_witness :
  exists v,
    fst (validateContacts [ann; cy] sampleWorld) = Ret [v; validated cy]
    /\ (c_isValid v = true <-> address_shape (to_text (c_email ann))).
Proof.
  destruct (validation_flags_address_shape [ann; cy] sampleWorld)
    as (vs & Hrun & _ & Hall).
  destruct (Hall 0 ann eq_refl) as (v & Hv & _ & _ & _ & _ & Hiff).
  exists v. split; [|exact Hiff].
  vm_compute in Hrun. inversion Hrun; subst. cbn in Hv.
  inversion Hv; subst. reflexivity.
Defined.


Lemma campaign_creation_attaches_contacts_witness :
  store_wf sampleWorld
  /\ Forall (present sampleWorld) [1; 2]
  /\ exists w',
       postCampaign (str "Hi") (str "News") [1; 2] sampleWorld
       = (CampaignOk (new_campaign 4 (str "Hi") (str "News") [1; 2]), w')
       /\ option_map c_campaignId (map_get 2 (contacts w')) = Some (Some 4)
       /\ option_map c_campaignId (map_get 3 (contacts w')) = Some (Some 0).
Proof.
  assert (Hp : Forall (present sampleWorld) [1; 2])
    by (repeat constructor; discriminate).
  split; [exact sampleWorld_wf|]. split; [exact Hp|].
  destruct (@campaign_creation_attaches_contacts (str "Hi") (str "News")
              [1; 2] sampleWorld sampleWorld_wf Hp)
    as (w' & Hrun & _ & _ & _ & _ & _ & Hget).
  exists w'. split; [exact Hrun|].
  rewrite (Hget 2), (Hget 3). split; reflexivity.
Defined.

Lemma campaign_creation_is_not_atomic_witness :
  store_wf sampleWorld
  /\ Forall (present sampleWorld) [1]
  /\ map_get 9 (contacts sampleWorld) = None
  /\ exists w',
       postCampaign (str "Hi") (str "News") [1; 9; 2] sampleWorld
       = (CampaignError 500 (str "Failed to create campaign"), w')
       /\ map_get 4 (campaigns w')
          = Some (new_campaign 4 (str "Hi") (str "News") [1; 9; 2])
       /\ option_map c_campaignId (map_get 1 (contacts w')) = Some (Some 4)
       /\ option_map c_campaignId (map_get 2 (contacts w')) = Some (Some 0).
Proof.
  assert (Hp : Forall (present sampleWorld) [1])
    by (repeat constructor; discriminate).
  split; [exact sampleWorld_wf|]. split; [exact Hp|].
  split; [reflexivity|].
  destruct (@campaign_creation_is_not_atomic (str "Hi") (str "News") [1] 9
              [2] sampleWorld sampleWorld_wf Hp eq_refl)
    as (w' & Hrun & Hc & Hget).
  exists w'. split; [exact Hrun|]. split; [exact Hc|].
  rewrite (Hget 1), (Hget 2). split; reflexivity.
Defined.

Lemma dispatch_answers_witness :
  store_wf sampleWorld
  /\ (exists sentCount failedCount,
        fst (postCampaignSend (Some sampleApi) 0 sampleWorld)
        = SendOk sentCount failedCount 2)
  /\ postCampaignSend (Some sampleApi) 7 sampleWorld
     = (NotFoundError, sampleWorld).
Proof.
  split; [exact sampleWorld_wf|]. split.
  - exact (@dispatch_answers (Some sampleApi) 0 sampleWorld sampleWorld_wf).
  - exact (@dispatch_answers (Some sampleApi) 7 sampleWorld sampleWorld_wf).
Defined.

Lemma dispatch_writes_to_valid_contacts_only_witness :
  store_wf sampleWorld
  /\ map_get 0 (campaigns sampleWorld) = Some sampleCampaign
  /\ outbox (snd (postCampaignSend (Some sampleApi) 0 sampleWorld))
     = [emailRequest sampleCampaign ann; emailRequest sampleCampaign bob]
  /\ exists rq,
       nth_error (outbox (snd (postCampaignSend (Some sampleApi) 0 sampleWorld)))
         1
       = Some rq
       /\ rq_toName rq = VText (str "Bob")
       /\ rq_subject rq = str "Hello Bob".
Proof.
  split; [exact sampleWorld_wf|]. split; [reflexivity|].
  destruct (@dispatch_writes_to_valid_contacts_only sampleApi 0 sampleWorld
              sampleCampaign sampleWorld_wf eq_refl)
    as (Hout & _ & Hat & _).
  split; [exact Hout|].
  destruct (Hat 1 bob eq_refl) as (rq & Hrq & _ & Hname & Hsubject & _).
  exists rq. split; [exact Hrq|]. split; [exact Hname|].
  rewrite Hsubject. reflexivity.
Defined.

Lemma results_after_dispatch_witness :
  store_wf sampleWorld
  /\ map_get 0 (campaigns sampleWorld) = Some sampleCampaign
  /\ exists sentCount failedCount total w' created,
       postCampaignSend (Some sampleApi) 0 sampleWorld
       = (SendOk sentCount failedCount total, w')
       /\ getCampaignResults 0 w'
          = (ResultsOk (completed sampleCampaign sentCount failedCount)
               created 3 sentCount failedCount (filter is_failed created),
             w')
       /\ map er_contactId created = [1; 2].
Proof.
  split; [exact sampleWorld_wf|]. split; [reflexivity|].
  destruct (@results_after_dispatch sampleApi 0 sampleWorld sampleCampaign
              sampleWorld_wf eq_refl)
    as (s & f & t & w' & created & Hrun & Hres & _ & _ & Hids).
  exists s, f, t, w', created. split; [exact Hrun|].
  split; [exact Hres|exact Hids].
Defined.

Lemma second_dispatch_sends_again_witness :
  store_wf sampleWorld
  /\ map_get 0 (campaigns sampleWorld) = Some sampleCampaign
  /\ exists s1 f1 s2 f2 w1 w2,
       postCampaignSend (Some sampleApi) 0 sampleWorld = (SendOk s1 f1 2, w1)
       /\ postCampaignSend (Some sampleApi) 0 w1 = (SendOk s2 f2 2, w2)
       /\ map (fun rq => to_text (rq_toEmail rq)) (outbox w2)
          = [str "ann@example.org"; str "bob@example.org";
             str "ann@example.org"; str "bob@example.org"].
Proof.
  split; [exact sampleWorld_wf|]. split; [reflexivity|].
  destruct (@second_dispatch_sends_again sampleApi sampleApi 0 sampleWorld
              sampleCampaign sampleWorld_wf eq_refl)
    as (s1 & f1 & s2 & f2 & w1 & w2 & c1 & c2 & H1 & H2 & _ & _ & _ & Hout
        & _).
  exists s1, f1, s2, f2, w1, w2. split; [exact H1|]. split; [exact H2|].
  rewrite Hout. reflexivity.
Defined.

Lemma no_email_is_ever_sent_witness :
  map_get 3 (campaigns
               (serveAll (mkConfig (Some sampleApi) true)
                  [UploadContacts (Sheet sampleRows);
                   CreateCampaign (str "Hi") (str "News") [0; 1; 2]]
                  empty_world)) <> None
  /\ fst (postCampaignSend (Some sampleApi) 3
            (serveAll (mkConfig (Some sampleApi) true)
               [UploadContacts (Sheet sampleRows);
                CreateCampaign (str "Hi") (str "News") [0; 1; 2]]
               empty_world))
     = SendOk 0 0 0.
Proof.
  assert (H : map_get 3
                (campaigns
                   (serveAll (mkConfig (Some sampleApi) true)
                      [UploadContacts (Sheet sampleRows);
                       CreateCampaign (str "Hi") (str "News") [0; 1; 2]]
                      empty_world)) <> None)
    by (vm_compute; discriminate).
  split; [exact H|].
  destruct (no_email_is_ever_sent (mkConfig (Some sampleApi) true)
              [UploadContacts (Sheet sampleRows);
               CreateCampaign (str "Hi") (str "News") [0; 1; 2]])
    as (_ & _ & _ & Hsend).
  exact (Hsend sampleApi 3 H).
Defined.

Lemma text_without_placeholder_is_kept_witness :
  contains placeholder (cp_subject plainCampaign) = false
  /\ rq_subject (emailRequest plainCampaign ann) = str "Hello".
Proof.
  assert (H : contains placeholder (cp_subject plainCampaign) = false)
    by (vm_compute; reflexivity).
  split; [exact H|].
  destruct (text_without_placeholder_is_kept plainCampaign ann) as (H1 & _).
  exact (H1 H).
Defined.

Lemma word_count_counts_runs_witness :
  is_space 32%N = true
  /\ wordCountOf (str "join" ++ 32%N :: str "us now")
     = wordCountOf (str "join") + wordCountOf (str "us now").
Proof.
  split; [reflexivity|].
  destruct (word_count_counts_runs (str "join")) as (_ & H & _).
  exact (H (str "join") 32%N (str "us now") eq_refl).
Defined.

Lemma reported_probes_hold_of_the_completion_witness :
  exists aiMessage compliance w',
    postAiMessage true (str "sms") [] (HttpOk (Some (str "Reply STOP")))
      empty_world
    = (AiOk aiMessage compliance, w')
    /\ hasOptOut compliance = true
    /\ exists aiMessage' compliance' w'',
         postAiMessage true (str "whatsapp") []
           (HttpOk (Some (str "EliteIIT: Reply STOP to end"))) w'
         = (AiOk aiMessage' compliance', w'')
         /\ hasOptOut compliance' = true.
Proof.
  destruct (reported_probes_hold_of_the_completion (str "sms") []
              (Some (str "Reply STOP")) empty_world)
    as (aiMessage & compliance & w' & Hrun & _ & _ & _ & _ & _ & Hsame & Hmore).
  assert (Hc : hasOptOut compliance = true)
    by (rewrite Hsame by (vm_compute; discriminate); vm_compute; reflexivity).
  exists aiMessage, compliance, w'. split; [exact Hrun|]. split; [exact Hc|].
  destruct (Hmore (str "whatsapp") [] (str "EliteIIT: ") (str " to end") w')
    as (aiMessage' & compliance' & w'' & Hrun' & H1 & _).
  - vm_compute. discriminate.
  - exists aiMessage', compliance', w''. split; [exact Hrun'|exact (H1 Hc)].
Defined.

Lemma job_submission_witness :
  blank (str "a poster") = false
  /\ cache_get (str "task_2")
       (snd (startImage configured (Some (str "a poster")) (str "task_2")
               submittedCache))
     = Some submittedTask
  /\ cache_get (str "task_1")
       (snd (startImage configured (Some (str "a poster")) (str "task_2")
               submittedCache))
     = cache_get (str "task_1") submittedCache.
Proof.
  split; [reflexivity|].
  destruct (job_submission configured (Some (str "a poster")) (str "task_2")
              submittedCache) as (_ & H & _).
  destruct (H (str "a poster") eq_refl eq_refl eq_refl eq_refl)
    as (_ & Hget & Hother).
  split; [exact Hget|]. apply Hother. discriminate.
Defined.

Lemma poll_touches_one_job_witness :
  cache_get (str "task_9") submittedCache = None
  /\ code (fst (fst (getImageStatus configured accepting (str "task_9")
                       submittedCache))) = 404%N
  /\ snd (getImageStatus configured accepting (str "task_9") submittedCache)
     = [].
Proof.
  split; [reflexivity|].
  destruct (poll_touches_one_job configured accepting (str "task_9")
              submittedCache) as (_ & _ & H).
  destruct (H eq_refl) as (_ & Hcalls & Hcode).
  split; [|exact Hcalls]. apply Hcode; [reflexivity|reflexivity|discriminate].
Defined.

Lemma provider_trouble_leaves_the_job_witness :
  jseq (status runningTask) CREATED = false
  /\ fst (fst (pollTask rateLimited runningTask)) = runningTask
  /\ code (snd (fst (pollTask rateLimited runningTask))) = 429%N
  /\ b_retryAfter (body (snd (fst (pollTask rateLimited runningTask))))
     = Some (str "5").
Proof.
  split; [reflexivity|].
  destruct (@provider_trouble_leaves_the_job rateLimited runningTask 104%N
              (str "1") eq_refl eq_refl) as (H1 & _ & H3 & H4).
  split; [exact H1|]. split; [exact H3|]. exact (H4 eq_refl).
Defined.

Lemma provider_answer_is_stored_witness :
  jseq (status runningTask) CREATED = false
  /\ exists task' response,
       pollTask delivering runningTask
       = (task', response, [CallStatus (str "h1")])
       /\ status task' = COMPLETED
       /\ imageUrl task' = Some (str "https://cdn.example/2.png").
Proof.
  split; [reflexivity|].
  destruct (@provider_answer_is_stored delivering runningTask 104%N (str "1")
              _ eq_refl eq_refl eq_refl)
    as (task' & response & Hrun & _ & Hst & _ & _ & _ & Hdone & _).
  exists task', response. split; [exact Hrun|]. split; [exact Hst|].
  destruct (Hdone Hst) as (url & rest & Hg & Hurl & _).
  inversion Hg; subst. exact Hurl.
Defined.

Lemma first_poll_initializes_witness :
  jseq (status submittedTask) CREATED = true
  /\ exists task' response,
       pollTask accepting submittedTask
       = (task', response,
          [CallEnhance (str "a poster"); CallSubmit (str "a detailed poster");
           CallStatus (str "h1")])
       /\ freepikTaskId task' = Some (str "h1")
       /\ enhancedPrompt task' = Some (str "a detailed poster")
       /\ status task' = CREATED
       /\ filter is_initialization (snd (pollTask accepting task')) <> [].
Proof.
  split; [reflexivity|].
  destruct (@first_poll_initializes accepting submittedTask
              (Some (str "a detailed poster"))
              (mkSubmitData (str "{}") (Some (str "h1")) (Some (str "CREATED")))
              104%N (str "1") eq_refl eq_refl eq_refl eq_refl)
    as (task' & response & Hrun & _ & He & Hh & Hst & Hnext).
  cbn [check accepting] in Hst. destruct Hst as (Hst & Hcreated).
  exists task', response. split; [exact Hrun|]. split; [exact Hh|].
  split; [exact He|]. split; [exact Hst|].
  intros Hnone. apply (Hnext accepting) in Hnone.
  destruct Hcreated as (_ & Hc). rewrite (Hc eq_refl) in Hnone.
  discriminate Hnone.
Defined.

Lemma waiting_route_gives_up_witness :
  (forall k, k < 60 -> still_running (LegacyImage.statuses neverDone k) = true)
  /\ postGenerateImage configured (Some (str "a poster")) neverDone
     = (ImageError 500 (str "Image generation timed out after 2 minutes"), 60).
Proof.
  assert (H : forall k, k < 60 ->
                still_running (LegacyImage.statuses neverDone k) = true)
    by (intros k _; reflexivity).
  split; [exact H|].
  destruct (waiting_route_gives_up configured (Some (str "a poster"))
              neverDone) as (_ & Hout).
  exact (Hout (str "a poster") _ _ eq_refl eq_refl eq_refl eq_refl eq_refl
           eq_refl eq_refl H).
Defined.

Lemma waiting_route_returns_first_asset_witness :
  (forall j, j < 2 -> still_running (LegacyImage.statuses doneAtThird j) = true)
  /\ postGenerateImage configured (Some (str "a poster")) doneAtThird
     = (ImageOk (str "a poster") (str "a detailed poster")
          (str "https://cdn.example/2.png"), 3).
Proof.
  assert (H : forall j, j < 2 ->
                still_running (LegacyImage.statuses doneAtThird j) = true).
  { intros j Hj. destruct j as [|[|j]]; [reflexivity|reflexivity|lia]. }
  split; [exact H|].
  exact (@waiting_route_returns_first_asset configured (str "a poster")
           doneAtThird _ _ 2 _ _ _ eq_refl eq_refl eq_refl eq_refl eq_refl
           eq_refl ltac:(lia) H eq_refl eq_refl eq_refl).
Defined.

Lemma client_polling_stops_witness :
  exists result waits n,
    pollImageStatus (fun _ => Replied (snd (fst (pollTask inProgress runningTask))))
      (str "a poster")
    = (result, waits, n)
    /\ n <= 40.
Proof.
  destruct (client_polling_stops
              (fun _ => Replied (snd (fst (pollTask inProgress runningTask))))
              (str "a poster"))
    as (result & waits & n & Hrun & Hn & _).
  exists result, waits, n. split; [exact Hrun|exact Hn].
Defined.

Lemma client_reads_the_server_answer_witness :
  jseq (status runningTask) CREATED = false
  /\ pollImageStatus
       (fun _ => Replied (snd (fst (pollTask rateLimited runningTask))))
       (str "a poster")
     = (Failure (ErrorObj
                   (str "Rate limit exceeded. Please try again in a few moments.")),
        [], 1).
Proof.
  split; [reflexivity|].
  destruct (@client_reads_the_server_answer rateLimited runningTask 104%N
              (str "1")
              (fun _ => Replied (snd (fst (pollTask rateLimited runningTask))))
              (str "a poster") eq_refl eq_refl eq_refl)
    as (e & Hrun & He).
  rewrite Hrun, (He eq_refl). reflexivity.
Defined.

Lemma authorization_passes_witness :
  authMiddleware knownToken (Some (str "Bearer t0k")) = Next 7
  /\ authMiddleware knownToken (Some (str "bearer t0k")) <> Next 7.
Proof.
  split.
  - apply (authorization_passes knownToken (Some (str "Bearer t0k")) 7).
    exists (str "t0k"), (mkUserAnswer (Some 7) false).
    repeat split; reflexivity.
  - intros H.
    apply (authorization_passes knownToken (Some (str "bearer t0k")) 7) in H.
    destruct H as (token & answer & Hh & _). discriminate Hh.
Defined.
